(** * simplebtclib: secp256k1 points, keys, ECDSA and BIP32 in Rocq

    A shallow embedding of [btc/utils.py], [btc/ecpoint.py], [btc/keys.py],
    [btc/randoms.py] (RFC 6979) and [btc/bip32.py], with the properties of
    the specification stated and settled against it.

    Python integers are [Z]; [%] and [//] are floor operations, as
    [Z.modulo] and [Z.div] are.  [bytes] values are lists of [byte],
    [str] values are [string].  An operation that can raise returns a
    [result]; the loops of RFC 6979, whose exit depends on the hash,
    run on fuel. *)

From Stdlib Require Import ZArith List Lia Bool String Ascii.
From Stdlib Require Import Strings.Byte DecimalString HexadecimalString.
From Stdlib Require Import Znumtheory Zdivisibility Zpow_facts.
From Stdlib Require Import Setoid Morphisms Zmod Zstar.
From Equations Require Import Equations.
Import ListNotations.
Local Open Scope Z_scope.

(* ================================================================== *)
(** ** Exceptions and results *)

(** The exceptions the modelled code can raise.  [ValueError] and
    [AssertionError] carry the text of [str(err)]. *)
Inductive exn : Type :=
| ValueError (msg : string)
| AssertionError (msg : string)
| OverflowError
| ZeroDivisionError
| AttributeError
| TypeError.

Inductive result (A : Type) : Type :=
| Ok (a : A)
| Raise (e : exn).
Arguments Ok {A} a.
Arguments Raise {A} e.

Definition bind {A B : Type} (r : result A) (f : A -> result B) : result B :=
  match r with
  | Ok a => f a
  | Raise e => Raise e
  end.

Notation "x <- c ;; k" := (bind c (fun x => k))
  (at level 61, c at next level, right associativity).
Notation "' pat <- c ;; k" := (bind c (fun x => let pat := x in k))
  (at level 61, pat pattern, c at next level, right associativity).

Definition is_ok {A : Type} (r : result A) : bool :=
  match r with Ok _ => true | Raise _ => false end.

(* ================================================================== *)
(** ** btc/utils.py: integers and bytes *)

Definition bytes : Type := list byte.

Definition byte_to_Z (b : byte) : Z := Z.of_N (Byte.to_N b).

Definition byte_of_Z (z : Z) : byte :=
  match Byte.of_N (Z.to_N z) with
  | Some b => b
  | None => x00
  end.

(** [int.from_bytes(b, byteorder="big", signed=False)]. *)
Fixpoint from_bytes_acc (acc : Z) (b : bytes) : Z :=
  match b with
  | [] => acc
  | x :: r => from_bytes_acc (acc * 256 + byte_to_Z x) r
  end.

Definition bytes2int (b : bytes) : Z := from_bytes_acc 0 b.

(** The [len] low base-256 digits of [i], most significant first. *)
Fixpoint to_bytes_be (len : nat) (i : Z) : bytes :=
  match len with
  | O => []
  | S l => to_bytes_be l (i / 256) ++ [byte_of_Z (i mod 256)]
  end.

(** [i.to_bytes(length, byteorder="big")]: [OverflowError] for a negative
    [i] and for an [i] that does not fit. *)
Definition int_to_bytes (i : Z) (len : nat) : result bytes :=
  if (i <? 0) || (256 ^ Z.of_nat len <=? i) then Raise OverflowError
  else Ok (to_bytes_be len i).

(** [i.bit_length()]. *)
Definition bit_length (i : Z) : Z :=
  if i =? 0 then 0 else Z.log2 (Z.abs i) + 1.

(** [int2bytes(i, length=32)]; [None] is Python's [None]: the least
    length, [ceil(i.bit_length() / 8)]. *)
Definition int2bytes (i : Z) (length : option nat) : result bytes :=
  match length with
  | None => int_to_bytes i (Z.to_nat ((bit_length i + 7) / 8))
  | Some l => int_to_bytes i l
  end.

Definition int2bytes32 (i : Z) : result bytes := int2bytes i (Some 32%nat).

(** [b[lo:hi]] for [0 <= lo <= hi]. *)
Definition slice {A : Type} (lo hi : nat) (l : list A) : list A :=
  firstn (hi - lo) (skipn lo l).

(** [bytes.hex()]. *)
Definition hex_digit (z : Z) : ascii :=
  if z <? 10 then ascii_of_nat (Z.to_nat (48 + z))
  else ascii_of_nat (Z.to_nat (87 + z)).

Fixpoint hex (b : bytes) : string :=
  match b with
  | [] => EmptyString
  | x :: r =>
      String (hex_digit (byte_to_Z x / 16))
        (String (hex_digit (byte_to_Z x mod 16)) (hex r))
  end.

(** ["{:d}".format(i)]. *)
Definition fmt_d (i : Z) : string :=
  DecimalString.NilZero.string_of_int (Z.to_int i).

(* ------------------------------------------------------------------ *)
(** *** Base58 *)

Definition BASE58_ALPHABET : string :=
  "123456789ABCDEFGHJKLMNPQRSTUVWXYZabcdefghijkmnopqrstuvwxyz".

Definition BASE58_COUNT : Z := Z.of_nat (String.length BASE58_ALPHABET).

(** [BASE58_ALPHABET[i]]; every use has [0 <= i < 58]. *)
Definition alphabet_at (i : Z) : ascii :=
  match String.get (Z.to_nat i) BASE58_ALPHABET with
  | Some c => c
  | None => "1"%char
  end.

(** [s.index(char)]: the first position of [char], [None] where Python
    raises [ValueError]. *)
Fixpoint str_index (c : ascii) (s : string) : option Z :=
  match s with
  | EmptyString => None
  | String d r =>
      if Ascii.eqb c d then Some 0
      else match str_index c r with
           | Some i => Some (i + 1)
           | None => None
           end
  end.

(** The [while num >= BASE58_COUNT] loop of [base58_encode]. *)
Equations? base58_encode_loop (num : Z) (encoded : string) : Z * string
  by wf (Z.to_nat (Z.log2 num)) lt :=
  base58_encode_loop num encoded with Z_lt_ge_dec num BASE58_COUNT := {
    | left _ => (num, encoded)
    | right _ =>
        base58_encode_loop (num / BASE58_COUNT)
          (String (alphabet_at (num mod BASE58_COUNT)) encoded) }.
Proof.
  change BASE58_COUNT with 58 in *.
  assert (Hle : num / 58 <= num / 2) by (apply Z.div_le_compat_l; lia).
  assert (Hhalf : Z.log2 (num / 2) = Z.log2 num - 1).
  { change 2 with (2 ^ 1) at 1.
    rewrite <- (Z.shiftr_div_pow2 num 1), Z.log2_shiftr by lia.
    assert (1 <= Z.log2 num) by (apply Z.log2_le_pow2; lia). lia. }
  pose proof (Z.log2_le_mono _ _ Hle).
  pose proof (Z.log2_nonneg (num / 58)). lia.
Qed.

Definition base58_encode (b : bytes) : string :=
  let '(num, encoded) := base58_encode_loop (bytes2int b) EmptyString in
  if num =? 0 then encoded else String (alphabet_at num) encoded.

(** [s[::-1]]. *)
Fixpoint rev_append_string (s acc : string) : string :=
  match s with
  | EmptyString => acc
  | String c r => rev_append_string r (String c acc)
  end.

Definition string_rev (s : string) : string := rev_append_string s EmptyString.

(** The [for char in s] loop of [base58_decode], over the reversed string. *)
Fixpoint base58_decode_loop (s : string) (decoded multi : Z) : result Z :=
  match s with
  | EmptyString => Ok decoded
  | String c r =>
      match str_index c BASE58_ALPHABET with
      | None => Raise (ValueError "substring not found")
      | Some i =>
          base58_decode_loop r (decoded + multi * i) (multi * BASE58_COUNT)
      end
  end.

Definition base58_decode (s : string) (length : option nat) : result bytes :=
  decoded <- base58_decode_loop (string_rev s) 0 1 ;;
  int2bytes decoded length.

(* ------------------------------------------------------------------ *)
(** *** Modular inverse *)

(** The inner [egcd(a, b)] of [mod_inverse]; the Python recursion is
    unrolled on [fuel]. *)
Fixpoint egcd_fuel (fuel : nat) (a b : Z) : option (Z * Z * Z) :=
  match fuel with
  | O => None
  | S f =>
      if a =? 0 then Some (b, 0, 1)
      else
        match egcd_fuel f (b mod a) a with
        | Some (g, y, x) => Some (g, x - y * (b / a), y)
        | None => None
        end
  end.

(** A recursion depth that [egcd_fuel_enough] shows sufficient. *)
Definition egcd_depth (a : Z) : nat := S (2 * Z.to_nat (bit_length a)).

Definition egcd (a b : Z) : Z * Z * Z :=
  match egcd_fuel (egcd_depth a) a b with
  | Some r => r
  | None => (0, 0, 0)
  end.

Definition mod_inverse (a m : Z) : result Z :=
  let '(g, x, _) := egcd a m in
  if negb (g =? 1) then
    Raise (ValueError
             ("No modular inverse for: a=" ++ fmt_d a ++ ", m=" ++ fmt_d m))
  else if m =? 0 then Raise ZeroDivisionError
  else Ok (x mod m).

(** ["{:x}".format(i)]. *)
Definition fmt_x (i : Z) : string :=
  HexadecimalString.NilZero.string_of_int (Z.to_hex_int i).

(** [pow(base, e, m)] for [0 <= e] and [m <> 0]. *)
Definition pow_mod (base e m : Z) : Z := Zpow_mod base e m.

(* ================================================================== *)
(** ** btc/ecpoint.py *)

Definition SECP256K1_A : Z := 0.
Definition SECP256K1_B : Z := 7.
Definition SECP256K1_GX : Z :=
  0x79be667ef9dcbbac55a06295ce870b07029bfcdb2dce28d959f2815b16f81798.
Definition SECP256K1_GY : Z :=
  0x483ada7726a3c4655da4fbfc0e1108a8fd17b448a68554199c47d08ffb10d4b8.
Definition SECP256K1_P : Z :=
  2 ^ 256 - 2 ^ 32 - 2 ^ 9 - 2 ^ 8 - 2 ^ 7 - 2 ^ 6 - 2 ^ 4 - 1.
Definition SECP256K1_ORDER : Z :=
  0xfffffffffffffffffffffffffffffffebaaedce6af48a03bbfd25e8cd0364141.
Definition SECP256K1_ORDER_LEN : Z := bit_length SECP256K1_ORDER.
Definition SECP256K1_H : Z := 1.

Module ECPoint.

(** An instance of the class: the coordinates and the curve
    [y^2 = x^3 + a*x + b (mod p)] it was built for. *)
Record t : Type := mk { x : Z; y : Z; a : Z; b : Z; p_mod : Z }.

(** [is_contained(x, y, a, b, mod)]. *)
Definition is_contained (x y a b m : Z) : result bool :=
  if m =? 0 then Raise ZeroDivisionError
  else Ok ((y ^ 2 - (x ^ 3 + a * x + b)) mod m =? 0).

Definition not_on_curve (x y : Z) : string :=
  "The point " ++ fmt_x x ++ ", " ++ fmt_x y ++
  " is not on the elliptic curve".

(** [ECPoint(x, y, a, b, mod)]: the constructor checks a point other
    than [(0, 0)]. *)
Definition __init__ (x y a b m : Z) : result t :=
  if negb (x =? 0) || negb (y =? 0) then
    c <- is_contained x y a b m ;;
    if c then Ok (mk x y a b m)
    else Raise (AssertionError (not_on_curve x y))
  else Ok (mk x y a b m).

(** [ECPoint.infinity()], that is [ECPoint(0, 0)]. *)
Definition infinity : t := mk 0 0 SECP256K1_A SECP256K1_B SECP256K1_P.

(** [__eq__]: coordinates only. *)
Definition __eq__ (p1 p2 : t) : bool := (x p1 =? x p2) && (y p1 =? y p2).

Definition double (p : t) : result t :=
  if __eq__ p infinity then Ok infinity
  else if p_mod p =? 0 then Raise ZeroDivisionError
  else
    let dy := (3 * x p * x p + a p) mod p_mod p in
    let dx := (2 * y p) mod p_mod p in
    i <- mod_inverse dx (p_mod p) ;;
    let s := (dy * i) mod p_mod p in
    let x2 := (s * s - x p - x p) mod p_mod p in
    let y2 := (s * (x p - x2) - y p) mod p_mod p in
    Ok (mk x2 y2 (a p) (b p) (p_mod p)).

Definition add (p1 p2 : t) : result t :=
  if __eq__ p1 infinity then Ok p2
  else if __eq__ p2 infinity then Ok p1
  else if x p1 =? x p2 then
    if y p1 =? y p2 then double p1 else Ok infinity
  else if p_mod p1 =? 0 then Raise ZeroDivisionError
  else
    let dy := (y p2 - y p1) mod p_mod p1 in
    let dx := (x p2 - x p1) mod p_mod p1 in
    i <- mod_inverse dx (p_mod p1) ;;
    let s := (dy * i) mod p_mod p1 in
    let x3 := (s * s - x p1 - x p2) mod p_mod p1 in
    let y3 := (s * (x p1 - x3) - y p1) mod p_mod p1 in
    Ok (mk x3 y3 (a p1) (b p1) (p_mod p1)).

(** One turn of the [while x > 0] loop of [multiply]: the new [temp]. *)
Definition multiply_temp (x : Z) (temp p : t) : result t :=
  if negb (x mod 2 =? 0) then
    if __eq__ temp p then double temp else add temp p
  else Ok temp.

(** One turn of the loop: the new [x]. *)
Definition multiply_x (x : Z) : Z :=
  (if negb (x mod 2 =? 0) then x - 1 else x) / 2.

Equations? multiply_loop (x : Z) (temp p : t) : result t
  by wf (Z.to_nat (bit_length x)) lt :=
  multiply_loop x temp p with Z_gt_le_dec x 0 := {
    | right _ => Ok temp
    | left _ with multiply_temp x temp p := {
        | Raise e => Raise e
        | Ok temp' with double p := {
            | Raise e => Raise e
            | Ok p' => multiply_loop (multiply_x x) temp' p' } } }.
Proof.
  unfold multiply_x, bit_length.
  assert (Hx : (if negb (x0 mod 2 =? 0) then x0 - 1 else x0) / 2 = x0 / 2).
  { destruct (Z.eqb_spec (x0 mod 2) 0); simpl; [reflexivity|].
    pose proof (Z.mod_pos_bound x0 2 eq_refl).
    rewrite (Z.div_mod x0 2) at 1 by lia.
    replace (2 * (x0 / 2) + x0 mod 2 - 1) with (0 + (x0 / 2) * 2) by lia.
    rewrite Z.div_add by lia. reflexivity. }
  rewrite Hx.
  destruct (Z.eqb_spec x0 0); [lia|].
  destruct (Z.eqb_spec (x0 / 2) 0); [pose proof (Z.log2_nonneg (Z.abs x0)); lia|].
  assert (0 < x0 / 2) by (pose proof (Z.div_pos x0 2); lia).
  rewrite !Z.abs_eq by lia.
  change 2 with (2 ^ 1) at 1.
  rewrite <- (Z.shiftr_div_pow2 x0 1), Z.log2_shiftr by lia.
  assert (1 <= Z.log2 x0).
  { apply Z.log2_le_pow2; [lia|]. change (2 ^ 1) with 2.
    assert (x0 <> 1) by (intros ->; compute in *; congruence). lia. }
  lia.
Qed.

(** [multiply(p, x)]. *)
Definition multiply (p : t) (x : Z) : result t :=
  temp <- __init__ (ECPoint.x p) (y p) (a p) (b p) (p_mod p) ;;
  multiply_loop (x - 1) temp p.

(** [__add__] and [__mul__]. *)
Definition __add__ (self other : t) : result t :=
  if (x self =? x other) && (y self =? y other) then double self
  else add self other.

Definition __mul__ (self : t) (other : Z) : result t := multiply self other.

(** [get_secp256k1_y(x)] with the default [a], [b] and [p]. *)
Definition get_secp256k1_y (x : Z) : result Z :=
  let y := pow_mod (x ^ 3 + x * SECP256K1_A + SECP256K1_B)
             ((SECP256K1_P + 1) / 4) SECP256K1_P in
  c <- is_contained x y SECP256K1_A SECP256K1_B SECP256K1_P ;;
  if c then Ok y else Raise (AssertionError (not_on_curve x y)).

End ECPoint.

(* ================================================================== *)
(** ** The hash primitives of [hashlib] and [hmac]

    SHA-1/2, RIPEMD-160 and HMAC come from the Python standard library.
    They are an interface here: the digest functions and the one fact
    about them that the code relies on, the size of a digest. *)

Inductive digestmod : Type := SHA1 | SHA224 | SHA256 | SHA384 | SHA512 | RIPEMD160.

Definition digest_size (alg : digestmod) : nat :=
  match alg with
  | SHA1 => 20 | SHA224 => 28 | SHA256 => 32
  | SHA384 => 48 | SHA512 => 64 | RIPEMD160 => 20
  end%nat.

Class Hashlib : Type := {
  (** [hashlib.new(alg, data).digest()] *)
  hashlib_digest : digestmod -> bytes -> bytes;
  (** [hmac.new(secret, data, alg).digest()] *)
  hmac_digest : digestmod -> bytes -> bytes -> bytes;
  hashlib_digest_size :
    forall alg data, List.length (hashlib_digest alg data) = digest_size alg;
  hmac_digest_size :
    forall alg secret data,
      List.length (hmac_digest alg secret data) = digest_size alg
}.

(** The [type] strings of [sha] and [hmac_sha]. *)
Definition digestmod_of_type (type : string) : option digestmod :=
  if String.eqb type "1" then Some SHA1
  else if String.eqb type "224" then Some SHA224
  else if String.eqb type "256" then Some SHA256
  else if String.eqb type "384" then Some SHA384
  else if String.eqb type "512" then Some SHA512
  else None.

Section Hashes.
Context {hashlib : Hashlib}.

(** [sha(data, type)]. *)
Definition sha (data : bytes) (type : string) : result bytes :=
  match digestmod_of_type type with
  | Some alg => Ok (hashlib_digest alg data)
  | None => Raise (ValueError "Invalid type for SHA")
  end.

(** [hmac_sha(secret, data, type)]. *)
Definition hmac_sha (secret data : bytes) (type : string) : result bytes :=
  match digestmod_of_type type with
  | Some alg => Ok (hmac_digest alg secret data)
  | None => Raise (ValueError "Invalid type for HMAC_SHA")
  end.

(** [sha256(data)] on [bytes], that is [sha(data, "256")]. *)
Definition sha256 (data : bytes) : bytes := hashlib_digest SHA256 data.

(** [hmac_sha512(secret, data)], that is [hmac_sha(secret, data, "512")]. *)
Definition hmac_sha512 (secret data : bytes) : bytes :=
  hmac_digest SHA512 secret data.

Definition ripemd160 (data : bytes) : bytes := hashlib_digest RIPEMD160 data.

End Hashes.

(* ================================================================== *)
(** ** btc/randoms.py: RFC 6979 *)

Module RFC6979.
Section WithHashlib.
Context {hashlib : Hashlib}.

(** The parameters and preparation values the inner functions close
    over. *)
Variables (q : Z) (curve_gen_point : option ECPoint.t) (sha_type : string).

Definition qlen : Z := bit_length q.
(** [8 * ceil(qlen / 8)]. *)
Definition rlen : Z := 8 * ((qlen + 7) / 8).

Definition bits2int (b : bytes) : Z :=
  let blen := Z.of_nat (List.length b) * 8 in
  let num := bytes2int b in
  if qlen <? blen then Z.shiftr num (blen - qlen) else num.

Definition int2octets (i : Z) : result bytes :=
  int_to_bytes i (Z.to_nat (rlen / 8)).

Definition bits2octets (b : bytes) : result bytes :=
  let z1 := bits2int b in
  if q =? 0 then Raise ZeroDivisionError
  else
    let z2 := z1 mod q in
    bits <- int2octets z2 ;;
    Ok (repeat x00 (Z.to_nat (rlen / 8 - Z.of_nat (List.length bits)))
          ++ bits).

Definition test_suitable (k : Z) : result bool :=
  match curve_gen_point with
  | None => Ok true
  | Some g =>
      C <- ECPoint.__mul__ g k ;;
      Ok (negb (ECPoint.x C =? 0))
  end.

(** The inner [while len(t) * 8 < qlen] loop: the new [v] and [t]. *)
Fixpoint fill (fuel : nat) (k v t : bytes) : option (result (bytes * bytes)) :=
  if Z.of_nat (List.length t) * 8 <? qlen then
    match fuel with
    | O => None
    | S f =>
        match hmac_sha k v sha_type with
        | Raise e => Some (Raise e)
        | Ok v' => fill f k v' (t ++ v')
        end
    end
  else Some (Ok (v, t)).

(** A bound on the turns of [fill]: each turn adds a digest, which is
    not empty. *)
Definition fill_fuel : nat := Z.to_nat qlen.

(** Step h, the [while True] loop; [None] when [fuel] turns were not
    enough to find a candidate. *)
Fixpoint step_h (fuel : nat) (k v : bytes) : option (result Z) :=
  match fuel with
  | O => None
  | S f =>
      match fill fill_fuel k v [] with
      | None => None
      | Some (Raise e) => Some (Raise e)
      | Some (Ok (v1, t)) =>
          let kk := bits2int t in
          let retry :=
            match hmac_sha k (v1 ++ [x00]) sha_type with
            | Raise e => Some (Raise e)
            | Ok k' =>
                match hmac_sha k' v1 sha_type with
                | Raise e => Some (Raise e)
                | Ok v' => step_h f k' v'
                end
            end in
          if (1 <=? kk) && (kk <? q) then
            match test_suitable kk with
            | Raise e => Some (Raise e)
            | Ok true => Some (Ok kk)
            | Ok false => retry
            end
          else retry
      end
  end.

(** Steps a to g: the initial [k] and [v] of step h. *)
Definition steps_a_g (message : bytes) (x : Z) : result (bytes * bytes) :=
  h1 <- sha message sha_type ;;
  let hlen := List.length h1 in
  let v := repeat x01 hlen in
  let k := repeat x00 hlen in
  xo <- int2octets x ;;
  ho <- bits2octets h1 ;;
  k <- hmac_sha k (v ++ [x00] ++ xo ++ ho) sha_type ;;
  v <- hmac_sha k v sha_type ;;
  xo <- int2octets x ;;
  ho <- bits2octets h1 ;;
  k <- hmac_sha k (v ++ [x01] ++ xo ++ ho) sha_type ;;
  v <- hmac_sha k v sha_type ;;
  Ok (k, v).

(** [random_rfc6979(message, x, q, curve_gen_point, sha_type)]. *)
Definition random_rfc6979 (fuel : nat) (message : bytes) (x : Z)
  : option (result Z) :=
  match steps_a_g message x with
  | Raise e => Some (Raise e)
  | Ok (k, v) => step_h fuel k v
  end.

End WithHashlib.
End RFC6979.

(* ================================================================== *)
(** ** btc/keys.py *)

Definition ADDRESS_PREFIX_MAINNET : Z := 0x00.
Definition ADDRESS_PREFIX_TESTNET : Z := 0x6f.

(** [s.lstrip("1")]. *)
Fixpoint lstrip_1 (s : string) : string :=
  match s with
  | String c r => if Ascii.eqb c "1" then lstrip_1 r else s
  | EmptyString => EmptyString
  end.

Module KeysBTC.
Section WithHashlib.
Context {hashlib : Hashlib}.

(** The attributes of an instance; the four caches start as [None]. *)
Record t : Type := mk {
  _private_key : bytes;
  _public_point : option ECPoint.t;
  _public_key : option bytes;
  _public_key_hash : option bytes;
  _address : option string
}.

(** [KeysBTC(private_key)] for a [bytes] argument.  (Without an
    argument the key is drawn from [random_bbs]; a [str] argument goes
    through [bytes.fromhex] first.) *)
Definition __init__ (private_key : bytes) : result t :=
  if bytes2int private_key >? 0 then
    Ok (mk private_key None None None None)
  else Raise (AssertionError "Invalid private key").

Definition get_private_key (self : t) : bytes := _private_key self.

Definition get_private_key_int (self : t) : Z :=
  bytes2int (_private_key self).

(** [get_generator_point()]. *)
Definition get_generator_point : result ECPoint.t :=
  ECPoint.__init__ SECP256K1_GX SECP256K1_GY
    SECP256K1_A SECP256K1_B SECP256K1_P.

Definition set_public_point (self : t) (P : ECPoint.t) : t :=
  mk (_private_key self) (Some P) (_public_key self)
     (_public_key_hash self) (_address self).

Definition set_public_key (self : t) (k : bytes) : t :=
  mk (_private_key self) (_public_point self) (Some k)
     (_public_key_hash self) (_address self).

(** [get_public_point()]: the result and the instance afterwards. *)
Definition get_public_point (self : t) : result ECPoint.t * t :=
  match _public_point self with
  | Some P => (Ok P, self)
  | None =>
      match (g <- get_generator_point ;;
             ECPoint.__mul__ g (get_private_key_int self)) with
      | Ok P => (Ok P, set_public_point self P)
      | Raise e => (Raise e, self)
      end
  end.

(** [point_to_publickey(point, compressed)]. *)
Definition point_to_publickey (point : ECPoint.t) (compressed : bool)
  : result bytes :=
  if compressed then
    xb <- int2bytes32 (ECPoint.x point) ;;
    Ok ((if ECPoint.y point mod 2 =? 0 then [x02] else [x03]) ++ xb)
  else
    xb <- int2bytes32 (ECPoint.x point) ;;
    yb <- int2bytes32 (ECPoint.y point) ;;
    Ok ([x04] ++ xb ++ yb).

(** [get_public_key(compressed)]. *)
Definition get_public_key (self : t) (compressed : bool) : result bytes * t :=
  match _public_key self with
  | Some k => (Ok k, self)
  | None =>
      match get_public_point self with
      | (Raise e, self1) => (Raise e, self1)
      | (Ok P, self1) =>
          match point_to_publickey P compressed with
          | Ok k => (Ok k, set_public_key self1 k)
          | Raise e => (Raise e, self1)
          end
      end
  end.

(** [privatekey_to_wif(private_key, compressed)]. *)
Definition privatekey_to_wif (private_key : bytes) (compressed : bool)
  : string :=
  let compressed_flag := if compressed then [x01] else [] in
  let wif := [x80] ++ private_key ++ compressed_flag in
  let double_sha := sha256 (sha256 wif) in
  base58_encode (wif ++ slice 0 4 double_sha).

(** [privatekey_from_wif(wif)]: every exception of the [try] block
    becomes the [ValueError] of the handler. *)
Definition privatekey_from_wif (wif : string) : result bytes :=
  match base58_decode wif (Some 38%nat) with
  | Ok p => Ok (slice 1 33 p)
  | Raise _ => Raise (ValueError ("Invalid private key in WIF: " ++ wif))
  end.

(** [address_to_pubkey_hash(address)]. *)
Definition address_to_pubkey_hash (address : string) : result bytes :=
  t <- base58_decode (lstrip_1 address) (Some 25%nat) ;;
  if list_eq_dec Byte.byte_eq_dec
       (slice 0 4 (sha256 (sha256 (slice 0 21 t)))) (skipn 21 t)
  then Ok (slice 1 21 t)
  else Raise (ValueError ("Incorrect checksum for address: " ++ address)).

(** [sign(hash)].  [fuel] bounds the turns of the RFC 6979 loop;
    [None] when they were not enough. *)
Definition sign (fuel : nat) (self : t) (hash : bytes)
  : option (result (bytes * bytes)) :=
  let private_key_int := get_private_key_int self in
  let N := SECP256K1_ORDER in
  let h := bytes2int hash mod N in
  let h := if h =? 0 then 1 else h in
  match get_generator_point with
  | Raise e => Some (Raise e)
  | Ok g =>
      match RFC6979.random_rfc6979 N (Some g) "256" fuel hash
              private_key_int with
      | None => None
      | Some (Raise e) => Some (Raise e)
      | Some (Ok k) =>
          Some (g <- get_generator_point ;;
                C <- ECPoint.__mul__ g k ;;
                i <- mod_inverse k N ;;
                let s := ((h + ECPoint.x C * private_key_int) * i) mod N in
                rb <- int2bytes32 (ECPoint.x C) ;;
                sb <- int2bytes32 s ;;
                Ok (rb, sb))
      end
  end.

(** [verify(hash, r, s)]: the result and the instance afterwards
    ([get_public_point] fills its cache). *)
Definition verify (self : t) (hash r s : bytes) : result bool * t :=
  let N := SECP256K1_ORDER in
  let h := bytes2int hash mod N in
  let h := if h =? 0 then 1 else h in
  let r1 := bytes2int r in
  match mod_inverse (bytes2int s) N with
  | Raise e => (Raise e, self)
  | Ok s_inv =>
      let u1 := (h * s_inv) mod N in
      let u2 := (r1 * s_inv) mod N in
      match (g <- get_generator_point ;; ECPoint.__mul__ g u1) with
      | Raise e => (Raise e, self)
      | Ok C1 =>
          match get_public_point self with
          | (Raise e, self1) => (Raise e, self1)
          | (Ok Q, self1) =>
              (C2 <- ECPoint.__mul__ Q u2 ;;
               C <- ECPoint.__add__ C1 C2 ;;
               Ok (ECPoint.x C =? r1), self1)
          end
      end
  end.

End WithHashlib.
End KeysBTC.

(* ================================================================== *)
(** ** btc/bip32.py *)

Definition MAINNET_PUBLIC : bytes := [x04; x88; xb2; x1e].
Definition MAINNET_PRIVATE : bytes := [x04; x88; xad; xe4].
Definition TESTNET_PUBLIC : bytes := [x04; x35; x87; xcf].
Definition TESTNET_PRIVATE : bytes := [x04; x35; x83; x94].

Definition bytes_eqb (b1 b2 : bytes) : bool :=
  if list_eq_dec Byte.byte_eq_dec b1 b2 then true else false.

Module ExtendedKey.
Section WithHashlib.
Context {hashlib : Hashlib}.

(** The [key] attribute is dynamically typed: [bytes] for an extended
    private key, an [ECPoint] for an extended public key; anything else
    is neither. *)
Inductive key_value : Type :=
| KeyBytes (k : bytes)
| KeyPoint (K : ECPoint.t)
| KeyOther.

Record t : Type := mk {
  key : key_value;
  chain_code : bytes;
  level : Z;
  index : Z;
  fingerprint : bytes
}.

Definition is_public (self : t) : bool :=
  match key self with KeyPoint _ => true | _ => false end.

Definition is_private (self : t) : bool :=
  match key self with KeyBytes _ => true | _ => false end.

(** [serialize()]. *)
Definition serialize (self : t) : result string :=
  ser_key <-
    match key self with
    | KeyBytes k =>
        lb <- int2bytes (level self) (Some 1%nat) ;;
        ib <- int2bytes (index self) (Some 4%nat) ;;
        Ok (MAINNET_PRIVATE ++ lb ++ fingerprint self ++ ib ++
            chain_code self ++ [x00] ++ k)
    | KeyPoint K =>
        lb <- int2bytes (level self) (Some 1%nat) ;;
        ib <- int2bytes (index self) (Some 4%nat) ;;
        pk <- KeysBTC.point_to_publickey K true ;;
        Ok (MAINNET_PUBLIC ++ lb ++ fingerprint self ++ ib ++
            chain_code self ++ pk)
    | KeyOther => Raise (ValueError "Invalid extended key")
    end ;;
  let checksum := slice 0 4 (sha256 (sha256 ser_key)) in
  Ok (base58_encode (ser_key ++ checksum)).

(** [ser_key[i]] of a [bytes] value that is long enough. *)
Definition byte_at (i : nat) (b : bytes) : Z := byte_to_Z (nth i b x00).

(** [deserialize(ser_key)]: on success the five attributes of [self]
    are replaced, and the instance afterwards is returned. *)
Definition deserialize (self : t) (ser_key : string) : result t :=
  ser_key <- base58_decode ser_key (Some 82%nat) ;;
  if negb (bytes_eqb (slice 0 4 (sha256 (sha256 (slice 0 78 ser_key))))
             (skipn 78 ser_key))
  then Raise (ValueError
                ("Wrong checksum of the extended key: " ++ hex ser_key))
  else
    let level := byte_at 4 ser_key in
    let fingerprint := slice 5 9 ser_key in
    let index := bytes2int (slice 9 13 ser_key) in
    let chain_code := slice 13 45 ser_key in
    if bytes_eqb (slice 0 4 ser_key) MAINNET_PRIVATE then
      Ok (mk (KeyBytes (slice 46 78 ser_key))
            chain_code level index fingerprint)
    else if bytes_eqb (slice 0 4 ser_key) MAINNET_PUBLIC then
      let x := bytes2int (slice 46 78 ser_key) in
      y <- ECPoint.get_secp256k1_y x ;;
      let y :=
        if byte_at 45 ser_key =? 2 then
          if negb (y mod 2 =? 0) then SECP256K1_P - y else y
        else
          if y mod 2 =? 0 then SECP256K1_P - y else y in
      K <- ECPoint.__init__ x y SECP256K1_A SECP256K1_B SECP256K1_P ;;
      Ok (mk (KeyPoint K) chain_code level index fingerprint)
    else
      Raise (ValueError
               ("Invalid serialized extended key: " ++ hex ser_key)).

(** [get_fingerprint(public_key)]. *)
Definition get_fingerprint (public_key : bytes) : bytes :=
  slice 0 4 (ripemd160 (sha256 public_key)).

(** [seed_to_master_key(seed)]; ["Bitcoin seed"] in ASCII. *)
Definition bitcoin_seed : bytes :=
  [x42; x69; x74; x63; x6f; x69; x6e; x20; x73; x65; x65; x64].

Definition seed_to_master_key (seed : bytes) : result t :=
  let hash := hmac_sha512 bitcoin_seed seed in
  let key := slice 0 32 hash in
  let chain_code := skipn 32 hash in
  let key_int := bytes2int key in
  if (key_int =? 0) || (key_int >=? SECP256K1_ORDER) then
    Raise (ValueError "Wrong master key")
  else Ok (mk (KeyBytes key) chain_code 0 0 [x00; x00; x00; x00]).

End WithHashlib.
End ExtendedKey.

Module BIP32.
Section WithHashlib.
Context {hashlib : Hashlib}.

(** What a [parent_prv] or [parent_pub] variable, and so a value of a
    [keys_path] dictionary, can hold: [None], an extended key, or the
    text of an exception. *)
Inductive value : Type :=
| VNone
| VKey (k : ExtendedKey.t)
| VStr (s : string).

(** One [{"private": ..., "public": ...}] dictionary of [keys_path]. *)
Record couple : Type := mk_couple { private : value; public : value }.

Record t : Type := mk {
  master_prv : value;
  master_pub : value;
  level_indexes : list Z;
  keys_path : list couple
}.

(** [BIP32(master, level_indexes)]; [keys_path] is not set before
    [build_keys_path] runs. *)
Definition __init__ (master : ExtendedKey.t) (level_indexes : option (list Z))
  : result t :=
  let indexes :=
    match level_indexes with None => [] | Some l => l end in
  match ExtendedKey.key master with
  | ExtendedKey.KeyBytes k =>
      keys <- KeysBTC.__init__ k ;;
      P <- fst (KeysBTC.get_public_point keys) ;;
      Ok (mk (VKey master)
            (VKey (ExtendedKey.mk (ExtendedKey.KeyPoint P)
                     (ExtendedKey.chain_code master) 0 0
                     [x00; x00; x00; x00]))
            indexes [])
  | ExtendedKey.KeyPoint _ => Ok (mk VNone (VKey master) indexes [])
  | ExtendedKey.KeyOther => Raise (ValueError "Invalid master key: {:s}")
  end.

Definition hardened_index (index : Z) : Z := index + 2 ^ 31.

(** [prv_to_child(parent_prv, index)]. *)
Definition prv_to_child (parent_prv : value) (index : Z)
  : result ExtendedKey.t :=
  match parent_prv with
  | VNone | VStr _ => Raise AttributeError
  | VKey parent =>
      match ExtendedKey.key parent with
      | ExtendedKey.KeyPoint _ | ExtendedKey.KeyOther => Raise TypeError
      | ExtendedKey.KeyBytes k =>
          cur_key <- KeysBTC.__init__ k ;;
          ser32_index <- int2bytes index (Some 4%nat) ;;
          '(data, cur_key) <-
            (if index >=? 2 ^ 31 then
               Ok ([x00] ++ KeysBTC.get_private_key cur_key ++ ser32_index,
                   cur_key)
             else
               let '(pk, cur_key) := KeysBTC.get_public_key cur_key true in
               pk <- pk ;; Ok (pk ++ ser32_index, cur_key)) ;;
          let child_hash :=
            hmac_sha512 (ExtendedKey.chain_code parent) data in
          let child_hash_left := bytes2int (slice 0 32 child_hash) in
          let k_i :=
            (child_hash_left + KeysBTC.get_private_key_int cur_key)
              mod SECP256K1_ORDER in
          if (child_hash_left >=? SECP256K1_ORDER) || (k_i =? 0) then
            Raise (ValueError "The resulting key is invalid")
          else
            kb <- int2bytes32 k_i ;;
            pk <- fst (KeysBTC.get_public_key cur_key true) ;;
            Ok (ExtendedKey.mk (ExtendedKey.KeyBytes kb)
                  (skipn 32 child_hash)
                  (ExtendedKey.level parent + 1)
                  index
                  (ExtendedKey.get_fingerprint pk))
      end
  end.

Definition hardened_message : string :=
  "Cannot generate a child public key because it is a hardened key".

Definition invalid_child_message (index : Z) : string :=
  "The resulting key is invalid for index " ++ fmt_d index.

(** [pub_to_child(parent_pub, index)]. *)
Definition pub_to_child (parent_pub : value) (index : Z)
  : result ExtendedKey.t :=
  if index >=? 2 ^ 31 then Raise (ValueError hardened_message)
  else
    ser32_index <- int2bytes index (Some 4%nat) ;;
    match parent_pub with
    | VNone | VStr _ => Raise AttributeError
    | VKey parent =>
        match ExtendedKey.key parent with
        | ExtendedKey.KeyBytes _ | ExtendedKey.KeyOther =>
            Raise AttributeError
        | ExtendedKey.KeyPoint K =>
            public_key <- KeysBTC.point_to_publickey K true ;;
            let data := public_key ++ ser32_index in
            let child_hash :=
              hmac_sha512 (ExtendedKey.chain_code parent) data in
            let child_hash_left := bytes2int (slice 0 32 child_hash) in
            g <- KeysBTC.get_generator_point ;;
            gl <- ECPoint.__mul__ g child_hash_left ;;
            K_i <- ECPoint.__add__ gl K ;;
            if (child_hash_left >=? SECP256K1_ORDER)
               || ECPoint.__eq__ K_i ECPoint.infinity
            then Raise (ValueError (invalid_child_message index))
            else
              Ok (ExtendedKey.mk (ExtendedKey.KeyPoint K_i)
                    (skipn 32 child_hash)
                    (ExtendedKey.level parent + 1)
                    index
                    (ExtendedKey.get_fingerprint public_key))
        end
    end.

(** The [try] ... [except ValueError as err] around a derivation:
    a [ValueError] leaves [str(err)] in the variable, any other
    exception propagates. *)
Definition try_child (derive : value -> Z -> result ExtendedKey.t)
  (parent : value) (index : Z) : result value :=
  match parent with
  | VNone => Ok VNone
  | _ =>
      match derive parent index with
      | Ok child => Ok (VKey child)
      | Raise (ValueError msg) => Ok (VStr msg)
      | Raise e => Raise e
      end
  end.

(** The [for level in range(...)] loop of [build_keys_path]: the
    [keys_path] built so far and how the loop ended. *)
Fixpoint build_loop (indexes : list Z) (parent_prv parent_pub : value)
  (keys_path : list couple) : list couple * result unit :=
  match indexes with
  | [] => (keys_path, Ok tt)
  | index :: rest =>
      match try_child prv_to_child parent_prv index with
      | Raise e => (keys_path, Raise e)
      | Ok parent_prv =>
          match try_child pub_to_child parent_pub index with
          | Raise e => (keys_path, Raise e)
          | Ok parent_pub =>
              build_loop rest parent_prv parent_pub
                (keys_path ++ [mk_couple parent_prv parent_pub])
          end
      end
  end.

(** [build_keys_path(level_indexes)]: the instance afterwards and the
    result.  The elements of [level_indexes] are [int]s here, so the
    [isinstance] test passes. *)
Definition build_keys_path (self : t) (level_indexes_ : option (list Z))
  : t * result unit :=
  let indexes :=
    match level_indexes_ with
    | None | Some [] => level_indexes self
    | Some l => l
    end in
  let '(path, r) :=
    build_loop indexes (master_prv self) (master_pub self)
      [mk_couple (master_prv self) (master_pub self)] in
  (mk (master_prv self) (master_pub self) indexes path, r).

(** [keys_path[-1]]. *)
Definition last_couple (self : t) : couple :=
  last (keys_path self) (mk_couple VNone VNone).

(** [ckd_pub(index_list)]: the list comprehension stops at the first
    exception. *)
Fixpoint derive_all (derive : value -> Z -> result ExtendedKey.t)
  (parent : value) (index_list : list Z) : result (list ExtendedKey.t) :=
  match index_list with
  | [] => Ok []
  | index :: rest =>
      child <- derive parent index ;;
      children <- derive_all derive parent rest ;;
      Ok (child :: children)
  end.

Definition ckd_priv (self : t) (index_list : list Z)
  : t * result (list ExtendedKey.t) :=
  match build_keys_path self None with
  | (self, Raise e) => (self, Raise e)
  | (self, Ok _) =>
      (self, derive_all prv_to_child (private (last_couple self)) index_list)
  end.

Definition ckd_pub (self : t) (index_list : list Z)
  : t * result (list ExtendedKey.t) :=
  match build_keys_path self None with
  | (self, Raise e) => (self, Raise e)
  | (self, Ok _) =>
      (self, derive_all pub_to_child (public (last_couple self)) index_list)
  end.

End WithHashlib.
End BIP32.

(* ================================================================== *)
(** ** Notions used to state the properties *)

(** The number a Base58 string stands for, as [base58_decode] reads it. *)
Definition base58_value (s : string) : result Z :=
  base58_decode_loop (string_rev s) 0 1.

(** [b] without its leading zero bytes. *)
Fixpoint lstrip_zeros (b : bytes) : bytes :=
  match b with
  | x :: r => if Byte.eqb x x00 then lstrip_zeros r else b
  | [] => []
  end.

(** The generator point, as [get_generator_point] builds it. *)
Definition G : ECPoint.t :=
  ECPoint.mk SECP256K1_GX SECP256K1_GY SECP256K1_A SECP256K1_B SECP256K1_P.

(** A stand-in for [hashlib] and [hmac] to run the code on: every digest
    is cut from the 64 bytes [00...0 last 00...0 last], so that a digest
    of 32 bytes and each half of one of 64 bytes stand for the number
    [last]. *)
Definition fixed_digest (last : byte) (alg : digestmod) : bytes :=
  firstn (digest_size alg)
    (repeat x00 31 ++ [last] ++ repeat x00 31 ++ [last]).

Definition fixed_hashlib (last : byte) : Hashlib.
Proof.
  refine {| hashlib_digest := fun alg _ => fixed_digest last alg;
            hmac_digest := fun alg _ _ => fixed_digest last alg |}.
  - intros [] _; reflexivity.
  - intros [] _ _; reflexivity.
Defined.

(** The trailing four bytes of a decoded WIF are not the double SHA-256
    checksum of the bytes before them. *)
Definition wif_checksum_mismatch {hashlib : Hashlib} (wif : string) : Prop :=
  exists p : bytes,
    base58_decode wif (Some 38%nat) = Ok p /\
    slice 0 4 (sha256 (sha256 (firstn 34 p))) <> skipn 34 p.

(** The curve equation [y^2 = x^3 + a*x + b] as a congruence modulo [m]. *)
Definition curve_eqm (m a b x y : Z) : Prop :=
  eqm m (y * y) (x * x * x + a * x + b).

(** A valid point of secp256k1: an instance with the parameters of the
    curve that is the [(0, 0)] sentinel of the point at infinity or
    satisfies the curve equation, as [is_contained] tests it. *)
Definition on_secp256k1 (P : ECPoint.t) : bool :=
  (ECPoint.a P =? SECP256K1_A) && (ECPoint.b P =? SECP256K1_B) &&
  (ECPoint.p_mod P =? SECP256K1_P) &&
  (ECPoint.__eq__ P ECPoint.infinity ||
   ((ECPoint.y P ^ 2 -
     (ECPoint.x P ^ 3 + ECPoint.a P * ECPoint.x P + ECPoint.b P))
      mod ECPoint.p_mod P =? 0)).

(** Coordinates reduced modulo [p], as the point operations leave them. *)
Definition reduced (P : ECPoint.t) : bool :=
  (0 <=? ECPoint.x P) && (ECPoint.x P <? ECPoint.p_mod P) &&
  (0 <=? ECPoint.y P) && (ECPoint.y P <? ECPoint.p_mod P).

(* ------------------------------------------------------------------ *)
(** *** Primality certificates *)

(** Trial division by [d], [d + 1], ... up to the square root of [n]. *)
Fixpoint trial_division (fuel : nat) (d n : Z) : bool :=
  match fuel with
  | O => false
  | S f =>
      if n <? d * d then true
      else if n mod d =? 0 then false
      else trial_division f (d + 1) n
  end.

Definition small_prime (n : Z) : bool :=
  (1 <? n) && trial_division (Z.to_nat (Z.sqrt n)) 2 n.

(** A Pocklington certificate for [N]: pairwise coprime divisors [q] of
    [N - 1], each with its base [a]. *)
Definition pock_item (N : Z) (qa : Z * Z) : bool :=
  ((N - 1) mod fst qa =? 0) &&
  (Zpow_mod (snd qa) (N - 1) N =? 1) &&
  (Z.gcd (Zpow_mod (snd qa) ((N - 1) / fst qa) N - 1) N =? 1).

Fixpoint pock_product (cert : list (Z * Z)) : Z :=
  match cert with
  | [] => 1
  | qa :: rest => fst qa * pock_product rest
  end.

Fixpoint pock_coprime (cert : list (Z * Z)) : bool :=
  match cert with
  | [] => true
  | qa :: rest => (Z.gcd (fst qa) (pock_product rest) =? 1) && pock_coprime rest
  end.

Definition pocklington (N : Z) (cert : list (Z * Z)) : bool :=
  (1 <? N) && forallb (pock_item N) cert && pock_coprime cert &&
  (N <? (pock_product cert + 1) * (pock_product cert + 1)).

(** Twice the generator point. *)
Definition G2 : ECPoint.t :=
  ECPoint.mk
    0xc6047f9441ed7d6d3045406e95c07cd85c778e4b8cef3ca7abac09b95c709ee5
    0x1ae168fea63dc339a3c58419466ceaeef7f632653266d0e1236431a950cfe52a
    SECP256K1_A SECP256K1_B SECP256K1_P.





(** A well-formed extended key: a private key of 32 bytes or a public
    point on the curve with reduced coordinates, a chain code of 32
    bytes, a depth in 0..255, a [uint32] index and a fingerprint of 4
    bytes. *)
Definition well_formed (node : ExtendedKey.t) : bool :=
  match ExtendedKey.key node with
  | ExtendedKey.KeyBytes k => (List.length k =? 32)%nat
  | ExtendedKey.KeyPoint K =>
      on_secp256k1 K && reduced K && negb (ECPoint.__eq__ K ECPoint.infinity)
  | ExtendedKey.KeyOther => false
  end &&
  (List.length (ExtendedKey.chain_code node) =? 32)%nat &&
  (0 <=? ExtendedKey.level node) && (ExtendedKey.level node <? 256) &&
  (0 <=? ExtendedKey.index node) && (ExtendedKey.index node <? 2 ^ 32) &&
  (List.length (ExtendedKey.fingerprint node) =? 4)%nat.

(* ================================================================== *)
(** ** Further code of the modules *)

(* ------------------------------------------------------------------ *)
(** *** btc/utils.py: signatures in DER *)

(** The exceptions of [signature_to_der] and [der_to_signature]: the
    [IndexError] of a subscript out of range, besides those of
    [int2bytes]. *)
Inductive der_exn : Type :=
| IndexError
| Other (e : exn).

Definition der_bind {A B : Type} (r : der_exn + A) (f : A -> der_exn + B)
  : der_exn + B :=
  match r with
  | inr a => f a
  | inl e => inl e
  end.

Definition der_lift {A : Type} (r : result A) : der_exn + A :=
  match r with
  | Ok a => inr a
  | Raise e => inl (Other e)
  end.

(** [b[i]] for [0 <= i]. *)
Definition getitem (b : bytes) (i : nat) : der_exn + Z :=
  match nth_error b i with
  | Some x => inr (byte_to_Z x)
  | None => inl IndexError
  end.

(** [b"\x00" + b if b[0] > 127 else b]. *)
Definition der_positive (b : bytes) : der_exn + bytes :=
  der_bind (getitem b 0) (fun b0 =>
  inr (if 127 <? b0 then [x00] ++ b else b)).

(** [signature_to_der(left, right)]. *)
Definition signature_to_der (left right : bytes) : der_exn + bytes :=
  der_bind (der_positive left) (fun r =>
  der_bind (der_positive right) (fun s =>
  der_bind (der_lift (int2bytes (Z.of_nat (List.length r)) (Some 1%nat)))
    (fun rl =>
  der_bind (der_lift (int2bytes (Z.of_nat (List.length s)) (Some 1%nat)))
    (fun sl =>
  let rs := [x02] ++ rl ++ r ++ [x02] ++ sl ++ s in
  der_bind (der_lift (int2bytes (Z.of_nat (List.length rs)) (Some 1%nat)))
    (fun rsl =>
  inr ([x30] ++ rsl ++ rs)))))).

(** [b[1:] if b[0] == 0 and b[1] > 127 else b]; [b[1]] is read only
    when [b[0]] is 0. *)
Definition der_strip (b : bytes) : der_exn + bytes :=
  der_bind (getitem b 0) (fun b0 =>
  if b0 =? 0 then
    der_bind (getitem b 1) (fun b1 =>
    inr (if 127 <? b1 then skipn 1 b else b))
  else inr b).

(** [der_to_signature(der)]. *)
Definition der_to_signature (der : bytes) : der_exn + (bytes * bytes) :=
  der_bind (getitem der 3) (fun r_len =>
  let r_len := Z.to_nat r_len in
  der_bind (getitem der (5 + r_len)) (fun s_len =>
  let s_len := Z.to_nat s_len in
  der_bind (der_strip (slice 4 (4 + r_len) der)) (fun r =>
  der_bind (der_strip (slice (6 + r_len) (6 + r_len + s_len) der)) (fun s =>
  inr (r, s))))).

(* ------------------------------------------------------------------ *)
(** *** btc/keys.py: hashes and addresses *)

Module Address.
Section WithHashlib.
Context {hashlib : Hashlib}.

Definition set_public_key_hash (self : KeysBTC.t) (h : bytes) : KeysBTC.t :=
  KeysBTC.mk (KeysBTC._private_key self) (KeysBTC._public_point self)
    (KeysBTC._public_key self) (Some h) (KeysBTC._address self).

Definition set_address (self : KeysBTC.t) (a : string) : KeysBTC.t :=
  KeysBTC.mk (KeysBTC._private_key self) (KeysBTC._public_point self)
    (KeysBTC._public_key self) (KeysBTC._public_key_hash self) (Some a).

(** [get_private_key_wif(compressed)]. *)
Definition get_private_key_wif (self : KeysBTC.t) (compressed : bool)
  : string :=
  KeysBTC.privatekey_to_wif (KeysBTC._private_key self) compressed.

(** [get_pubkey_hash()]: the result and the instance afterwards. *)
Definition get_pubkey_hash (self : KeysBTC.t) : result bytes * KeysBTC.t :=
  match KeysBTC._public_key_hash self with
  | Some h => (Ok h, self)
  | None =>
      match KeysBTC.get_public_key self true with
      | (Raise e, self1) => (Raise e, self1)
      | (Ok pk, self1) =>
          let h := ripemd160 (sha256 pk) in
          (Ok h, set_public_key_hash self1 h)
      end
  end.

(** The [for _ in t] loop of [get_address]: the zero bytes [t] starts
    with. *)
Fixpoint leading_zeros (t : bytes) : nat :=
  match t with
  | x :: r => if byte_to_Z x =? 0 then S (leading_zeros r) else O
  | [] => O
  end.

(** [n * "1"]. *)
Fixpoint ones (n : nat) : string :=
  match n with
  | O => EmptyString
  | S m => String "1" (ones m)
  end.

(** [get_address(version)]: the result and the instance afterwards.
    [bytes([version])] raises [ValueError] outside [range(256)]. *)
Definition get_address (self : KeysBTC.t) (version : option Z)
  : result string * KeysBTC.t :=
  let version :=
    match version with None => ADDRESS_PREFIX_MAINNET | Some v => v end in
  match KeysBTC._address self with
  | Some a => (Ok a, self)
  | None =>
      if (version <? 0) || (255 <? version) then
        (Raise (ValueError "bytes must be in range(0, 256)"), self)
      else
        match get_pubkey_hash self with
        | (Raise e, self1) => (Raise e, self1)
        | (Ok h, self1) =>
            let t := [byte_of_Z version] ++ h in
            let t := t ++ slice 0 4 (sha256 (sha256 t)) in
            let a := (ones (leading_zeros t) ++ base58_encode t)%string in
            (Ok a, set_address self1 a)
        end
  end.

End WithHashlib.
End Address.

(* ------------------------------------------------------------------ *)
(** *** Notions used to state the further properties *)

(** Every character of [s] is in the Base58 alphabet. *)
Fixpoint base58_string (s : string) : bool :=
  match s with
  | EmptyString => true
  | String c r =>
      match str_index c BASE58_ALPHABET with
      | Some _ => base58_string r
      | None => false
      end
  end.

(** [signature_to_der] and [der_to_signature] agree on [b]: it is not
    empty and does not start with a zero byte followed by nothing or by
    a byte over 127. *)
Definition der_safe (b : bytes) : bool :=
  match b with
  | [] => false
  | b0 :: rest =>
      if byte_to_Z b0 =? 0 then
        match rest with
        | [] => false
        | b1 :: _ => byte_to_Z b1 <=? 127
        end
      else true
  end.

(** The number a reversed Base58 string stands for, its least
    significant digit first. *)
Fixpoint base58_digits (t : string) : Z :=
  match t with
  | EmptyString => 0
  | String c r =>
      match str_index c BASE58_ALPHABET with
      | Some i => i
      | None => 0
      end + BASE58_COUNT * base58_digits r
  end.

(** [base58_encode] from the number on: the loop, then the last digit,
    in front of the characters [encoded]. *)
Definition base58_encode_num (num : Z) (encoded : string) : string :=
  let '(num, encoded) := base58_encode_loop num encoded in
  if num =? 0 then encoded else String (alphabet_at num) encoded.

(* ------------------------------------------------------------------ *)
(** *** btc/randoms.py: the Miller-Rabin test *)

Module Randoms.






End Randoms.

(* ================================================================== *)
(** * Properties *)

(** ** Bytes and integers *)

Lemma byte_to_Z_range (b : byte) : 0 <= byte_to_Z b < 256.
Proof.
  unfold byte_to_Z. pose proof (Byte.to_N_bounded b). lia.
Qed.

Lemma byte_of_to_Z (b : byte) : byte_of_Z (byte_to_Z b) = b.
Proof.
  unfold byte_of_Z, byte_to_Z. rewrite N2Z.id, Byte.of_to_N. reflexivity.
Qed.

Lemma byte_to_of_Z (z : Z) : 0 <= z < 256 -> byte_to_Z (byte_of_Z z) = z.
Proof.
  intros Hz. unfold byte_of_Z, byte_to_Z.
  destruct (Byte.of_N (Z.to_N z)) as [b|] eqn:E.
  - apply Byte.to_of_N in E. rewrite E. lia.
  - apply Byte.of_N_None_iff in E. lia.
Qed.

Lemma from_bytes_acc_app (b1 b2 : bytes) (acc : Z) :
  from_bytes_acc acc (b1 ++ b2) = from_bytes_acc (from_bytes_acc acc b1) b2.
Proof.
  revert acc. induction b1 as [|x b1 IH]; intros acc; simpl; [reflexivity|].
  apply IH.
Qed.

Lemma from_bytes_acc_shift (b : bytes) (acc : Z) :
  from_bytes_acc acc b = acc * 256 ^ Z.of_nat (List.length b) + bytes2int b.
Proof.
  unfold bytes2int. revert acc.
  induction b as [|x b IH]; intros acc.
  - simpl. lia.
  - cbn [from_bytes_acc List.length]. rewrite IH, (IH (0 * 256 + byte_to_Z x)).
    rewrite Nat2Z.inj_succ, Z.pow_succ_r by lia. ring.
Qed.

Lemma bytes2int_snoc (b : bytes) (x : byte) :
  bytes2int (b ++ [x]) = bytes2int b * 256 + byte_to_Z x.
Proof.
  unfold bytes2int. rewrite from_bytes_acc_app. reflexivity.
Qed.

Lemma bytes2int_cons (x : byte) (b : bytes) :
  bytes2int (x :: b) = byte_to_Z x * 256 ^ Z.of_nat (List.length b) + bytes2int b.
Proof.
  unfold bytes2int at 1. cbn [from_bytes_acc].
  rewrite from_bytes_acc_shift. reflexivity.
Qed.

Lemma bytes2int_app (b1 b2 : bytes) :
  bytes2int (b1 ++ b2) =
  bytes2int b1 * 256 ^ Z.of_nat (List.length b2) + bytes2int b2.
Proof.
  unfold bytes2int at 1. rewrite from_bytes_acc_app, from_bytes_acc_shift.
  reflexivity.
Qed.

Lemma bytes2int_range (b : bytes) :
  0 <= bytes2int b < 256 ^ Z.of_nat (List.length b).
Proof.
  induction b as [|x b IH] using rev_ind.
  - cbn. lia.
  - rewrite bytes2int_snoc, length_app, Nat2Z.inj_add. cbn [List.length].
    rewrite Z.pow_add_r by lia. change (256 ^ Z.of_nat 1) with 256.
    pose proof (byte_to_Z_range x). lia.
Qed.

Lemma to_bytes_be_length (len : nat) (i : Z) :
  List.length (to_bytes_be len i) = len.
Proof.
  revert i. induction len as [|l IH]; intros i; simpl; [reflexivity|].
  rewrite length_app, IH. simpl. lia.
Qed.

Lemma to_bytes_be_bytes2int (b : bytes) :
  to_bytes_be (List.length b) (bytes2int b) = b.
Proof.
  induction b as [|x b IH] using rev_ind; [reflexivity|].
  rewrite length_app, Nat.add_comm. cbn [List.length Nat.add to_bytes_be].
  rewrite bytes2int_snoc. pose proof (byte_to_Z_range x).
  rewrite Z.div_add_l, Z.div_small, Z.add_0_r by lia.
  rewrite Z.add_comm, Z.mod_add, Z.mod_small by lia.
  rewrite IH, byte_of_to_Z. reflexivity.
Qed.

Lemma bytes2int_to_bytes_be (len : nat) (i : Z) :
  0 <= i < 256 ^ Z.of_nat len -> bytes2int (to_bytes_be len i) = i.
Proof.
  revert i. induction len as [|l IH]; intros i Hi.
  - cbn in *. lia.
  - cbn [to_bytes_be]. rewrite bytes2int_snoc.
    rewrite Nat2Z.inj_succ, Z.pow_succ_r in Hi by lia.
    rewrite IH, byte_to_of_Z.
    + pose proof (Z.div_mod i 256). lia.
    + apply Z.mod_pos_bound. lia.
    + split; [apply Z.div_pos; lia|].
      apply Z.div_lt_upper_bound; lia.
Qed.

(** [int.to_bytes] after [int.from_bytes] at the same length. *)
Lemma int_to_bytes_bytes2int (b : bytes) :
  int_to_bytes (bytes2int b) (List.length b) = Ok b.
Proof.
  unfold int_to_bytes. pose proof (bytes2int_range b) as H.
  destruct (Z.ltb_spec (bytes2int b) 0); [lia|].
  destruct (Z.leb_spec (256 ^ Z.of_nat (List.length b)) (bytes2int b)); [lia|].
  simpl. rewrite to_bytes_be_bytes2int. reflexivity.
Qed.

Lemma int_to_bytes_ok (i : Z) (len : nat) :
  0 <= i < 256 ^ Z.of_nat len -> int_to_bytes i len = Ok (to_bytes_be len i).
Proof.
  intros H. unfold int_to_bytes.
  destruct (Z.ltb_spec i 0); [lia|].
  destruct (Z.leb_spec (256 ^ Z.of_nat len) i); [lia|]. reflexivity.
Qed.

Lemma int_to_bytes_inv (i : Z) (len : nat) (b : bytes) :
  int_to_bytes i len = Ok b ->
  0 <= i < 256 ^ Z.of_nat len /\ b = to_bytes_be len i.
Proof.
  unfold int_to_bytes.
  destruct (Z.ltb_spec i 0); [discriminate|].
  destruct (Z.leb_spec (256 ^ Z.of_nat len) i); [discriminate|].
  simpl. intros [= <-]. split; [lia|reflexivity].
Qed.

(** Left padding: a longer request puts zero bytes in front. *)
Lemma to_bytes_be_pad (k len : nat) (i : Z) :
  0 <= i < 256 ^ Z.of_nat len ->
  to_bytes_be (k + len) i = repeat x00 k ++ to_bytes_be len i.
Proof.
  revert i. induction len as [|l IH]; intros i Hi.
  - cbn in Hi. assert (i = 0) by lia. subst i.
    rewrite Nat.add_0_r, app_nil_r. clear Hi.
    induction k as [|k IHk]; [reflexivity|].
    cbn [to_bytes_be]. change (0 / 256) with 0. rewrite IHk.
    change (byte_of_Z (0 mod 256)) with x00.
    change [x00] with (repeat x00 1). rewrite <- repeat_app.
    rewrite Nat.add_comm. reflexivity.
  - rewrite Nat.add_succ_r. cbn [to_bytes_be].
    rewrite Nat2Z.inj_succ, Z.pow_succ_r in Hi by lia.
    rewrite IH, app_assoc; [reflexivity|].
    split; [apply Z.div_pos; lia|]. apply Z.div_lt_upper_bound; lia.
Qed.

(** ** Base58 *)

Lemma base58_encode_loop_eq (num : Z) (encoded : string) :
  base58_encode_loop num encoded =
  if num <? BASE58_COUNT then (num, encoded)
  else base58_encode_loop (num / BASE58_COUNT)
         (String (alphabet_at (num mod BASE58_COUNT)) encoded).
Proof.
  rewrite base58_encode_loop_equation_1.
  destruct (Z_lt_ge_dec num BASE58_COUNT) as [H|H]; simpl;
    destruct (Z.ltb_spec num BASE58_COUNT); try lia; reflexivity.
Qed.

(** Every digit is found again at its own position of the alphabet. *)
Lemma str_index_alphabet_at (d : Z) :
  0 <= d < BASE58_COUNT ->
  str_index (alphabet_at d) BASE58_ALPHABET = Some d.
Proof.
  intros Hd.
  assert (Hall : forallb (fun n =>
            match str_index (alphabet_at (Z.of_nat n)) BASE58_ALPHABET with
            | Some i => i =? Z.of_nat n
            | None => false
            end) (seq 0 58) = true) by (vm_compute; reflexivity).
  rewrite forallb_forall in Hall.
  specialize (Hall (Z.to_nat d)).
  rewrite Z2Nat.id in Hall by lia.
  assert (Hin : In (Z.to_nat d) (seq 0 58)).
  { apply in_seq. change BASE58_COUNT with 58 in Hd. lia. }
  specialize (Hall Hin).
  destruct (str_index (alphabet_at d) BASE58_ALPHABET); [|discriminate].
  apply Z.eqb_eq in Hall. congruence.
Qed.

Lemma string_app_assoc (s1 s2 s3 : string) :
  ((s1 ++ s2) ++ s3 = s1 ++ (s2 ++ s3))%string.
Proof.
  induction s1 as [|c s1 IH]; cbn; [reflexivity|]. rewrite IH. reflexivity.
Qed.

Lemma string_length_app (s1 s2 : string) :
  String.length (s1 ++ s2) = (String.length s1 + String.length s2)%nat.
Proof.
  induction s1 as [|c s1 IH]; cbn; [reflexivity|]. rewrite IH. reflexivity.
Qed.

Lemma rev_append_string_app (s acc : string) :
  rev_append_string s acc = (string_rev s ++ acc)%string.
Proof.
  unfold string_rev. revert acc.
  induction s as [|c s IH]; intros acc; [reflexivity|].
  cbn [rev_append_string]. rewrite IH, (IH (String c EmptyString)).
  rewrite string_app_assoc. reflexivity.
Qed.

Lemma string_rev_cons (c : ascii) (s : string) :
  string_rev (String c s) = (string_rev s ++ String c EmptyString)%string.
Proof. unfold string_rev at 1. cbn. apply rev_append_string_app. Qed.

Lemma string_rev_length (s : string) :
  String.length (string_rev s) = String.length s.
Proof.
  induction s as [|c s IH]; [reflexivity|].
  rewrite string_rev_cons, string_length_app, IH. cbn. lia.
Qed.

Lemma base58_decode_loop_app (s1 s2 : string) (d m : Z) :
  base58_decode_loop (s1 ++ s2) d m =
  (d' <- base58_decode_loop s1 d m ;;
   base58_decode_loop s2 d' (m * BASE58_COUNT ^ Z.of_nat (String.length s1))).
Proof.
  revert d m. induction s1 as [|c s1 IH]; intros d m.
  - cbn. rewrite Z.mul_1_r. reflexivity.
  - cbn [append base58_decode_loop String.length].
    destruct (str_index c BASE58_ALPHABET) as [i|]; [|reflexivity].
    rewrite IH, Nat2Z.inj_succ, Z.pow_succ_r by lia.
    rewrite Z.mul_assoc. reflexivity.
Qed.

Lemma base58_value_cons (c : ascii) (s : string) (i v : Z) :
  str_index c BASE58_ALPHABET = Some i ->
  base58_value s = Ok v ->
  base58_value (String c s) =
  Ok (i * BASE58_COUNT ^ Z.of_nat (String.length s) + v).
Proof.
  intros Hi Hv. unfold base58_value in *.
  rewrite string_rev_cons, base58_decode_loop_app, Hv. cbn [bind].
  cbn [base58_decode_loop]. rewrite Hi, string_rev_length.
  f_equal. ring.
Qed.

(** The encoding loop keeps the number that digits and rest stand for. *)
Lemma base58_encode_loop_value (num : Z) :
  0 <= num ->
  forall (encoded : string) (v : Z),
    base58_value encoded = Ok v ->
    exists num' encoded' v',
      base58_encode_loop num encoded = (num', encoded') /\
      0 <= num' < BASE58_COUNT /\
      base58_value encoded' = Ok v' /\
      num' * BASE58_COUNT ^ Z.of_nat (String.length encoded') + v' =
      num * BASE58_COUNT ^ Z.of_nat (String.length encoded) + v.
Proof.
  intros Hnum. pattern num. apply Zlt_0_ind; [|exact Hnum].
  clear num Hnum. intros num IH Hnum encoded v Hv.
  rewrite base58_encode_loop_eq.
  destruct (Z.ltb_spec num BASE58_COUNT) as [Hlt|Hge].
  - exists num, encoded, v. repeat split; assumption.
  - change BASE58_COUNT with 58 in *.
    assert (Hd : 0 <= num mod 58 < 58) by (apply Z.mod_pos_bound; lia).
    pose proof (str_index_alphabet_at (num mod 58) Hd) as Hidx.
    pose proof (base58_value_cons _ _ _ _ Hidx Hv) as Hv'.
    assert (Hq : 0 <= num / 58 < num).
    { split; [apply Z.div_pos; lia|]. apply Z.div_lt; lia. }
    destruct (IH (num / 58) Hq _ _ Hv') as (n' & e' & v' & E & R & V & W).
    exists n', e', v'. repeat split; try assumption; try lia.
    rewrite W. cbn [String.length]. rewrite Nat2Z.inj_succ, Z.pow_succ_r by lia.
    change BASE58_COUNT with 58.
    rewrite (Z.div_mod num 58) at 3 by lia. ring.
Qed.

(** A Base58 string of [b] stands for the number [b] stands for. *)
Lemma base58_value_encode (b : bytes) :
  base58_value (base58_encode b) = Ok (bytes2int b).
Proof.
  unfold base58_encode.
  destruct (base58_encode_loop_value (bytes2int b) (proj1 (bytes2int_range b))
              EmptyString 0 eq_refl) as (n' & e' & v' & E & R & V & W).
  rewrite E. cbn [String.length] in W. change (Z.of_nat 0) with 0 in W.
  rewrite Z.pow_0_r, Z.mul_1_r, Z.add_0_r in W.
  destruct (Z.eqb_spec n' 0) as [->|Hn].
  - rewrite V. f_equal. lia.
  - rewrite (base58_value_cons _ _ n' v'); [f_equal; lia| |assumption].
    apply str_index_alphabet_at. assumption.
Qed.

(** Decoding an encoding is [int2bytes] of the number of the bytes. *)
Lemma base58_decode_encode (b : bytes) (length : option nat) :
  base58_decode (base58_encode b) length = int2bytes (bytes2int b) length.
Proof.
  unfold base58_decode. fold (base58_value (base58_encode b)).
  rewrite base58_value_encode. reflexivity.
Qed.

Lemma bytes2int_zeros (k : nat) (b : bytes) :
  bytes2int (repeat x00 k ++ b) = bytes2int b.
Proof.
  induction k as [|k IH]; [reflexivity|].
  cbn [repeat app]. rewrite bytes2int_cons, IH. cbn. reflexivity.
Qed.

Lemma lstrip_zeros_split (b : bytes) :
  exists k, b = repeat x00 k ++ lstrip_zeros b.
Proof.
  induction b as [|x b [k IH]]; [exists 0%nat; reflexivity|].
  cbn [lstrip_zeros]. destruct (Byte.eqb x x00) eqn:E.
  - apply Byte.byte_dec_bl in E. subst x. exists (S k). cbn. congruence.
  - exists 0%nat. reflexivity.
Qed.

Lemma lstrip_zeros_head (b : bytes) :
  match lstrip_zeros b with
  | x :: _ => Byte.eqb x x00 = false
  | [] => True
  end.
Proof.
  induction b as [|x b IH]; [exact I|].
  cbn [lstrip_zeros]. destruct (Byte.eqb x x00) eqn:E; assumption.
Qed.

Lemma byte_to_Z_nonzero (x : byte) : Byte.eqb x x00 = false -> 1 <= byte_to_Z x.
Proof.
  intros E. pose proof (byte_to_Z_range x).
  destruct (Z.eq_dec (byte_to_Z x) 0) as [H0|]; [|lia].
  apply (f_equal byte_of_Z) in H0. rewrite byte_of_to_Z in H0.
  subst x. discriminate.
Qed.

(** The least length of [int2bytes] is the length without leading zeros. *)
Lemma least_length_lstrip (b : bytes) :
  Z.to_nat ((bit_length (bytes2int b) + 7) / 8) = List.length (lstrip_zeros b).
Proof.
  destruct (lstrip_zeros_split b) as [k Hk].
  rewrite Hk at 1. rewrite bytes2int_zeros.
  clear Hk. pose proof (lstrip_zeros_head b) as Hhd.
  destruct (lstrip_zeros b) as [|x r]; [reflexivity|].
  apply byte_to_Z_nonzero in Hhd.
  pose proof (bytes2int_range (x :: r)) as Hr.
  rewrite bytes2int_cons in *. pose proof (bytes2int_range r) as Hr'.
  set (i := byte_to_Z x * 256 ^ Z.of_nat (List.length r) + bytes2int r) in *.
  set (n := Z.of_nat (List.length r)) in *.
  assert (Hn : 0 <= n) by lia.
  assert (Hlow : 256 ^ n <= i).
  { unfold i. assert (0 < 256 ^ n) by (apply Z.pow_pos_nonneg; lia). nia. }
  assert (H256 : forall m, 0 <= m -> 256 ^ m = 2 ^ (8 * m)).
  { intros m Hm. rewrite Z.pow_mul_r by lia. reflexivity. }
  cbn [List.length] in Hr. rewrite Nat2Z.inj_succ in Hr. fold n in Hr.
  rewrite H256 in Hlow, Hr by lia.
  assert (0 < i) by (assert (0 < 2 ^ (8 * n)) by (apply Z.pow_pos_nonneg; lia); lia).
  unfold bit_length. destruct (Z.eqb_spec i 0); [lia|].
  rewrite Z.abs_eq by lia.
  assert (8 * n <= Z.log2 i) by (apply Z.log2_le_pow2; lia).
  assert (Z.log2 i < 8 * Z.succ n) by (apply Z.log2_lt_pow2; lia).
  assert ((Z.log2 i + 1 + 7) / 8 = n + 1).
  { symmetry. apply Z.div_unique with (r := Z.log2 i - 8 * n); lia. }
  cbn [List.length]. lia.
Qed.

Lemma base58_roundtrip_at_length (b : bytes) :
  base58_decode (base58_encode b) (Some (List.length b)) = Ok b.
Proof. rewrite base58_decode_encode. apply int_to_bytes_bytes2int. Qed.

(** ** C10: the Base58 round trip *)

(** C10.  For every byte string [b], the empty one and those with
    leading zero bytes included, decoding the Base58 encoding of [b] at
    the length of [b] gives [b] back.  [base58_encode] itself encodes
    only the big-endian number: leading zero bytes do not change the
    encoding, and decoding at the least length loses them.  They come
    back because [base58_decode] pads its number on the left up to the
    requested length. *)
Theorem base58_decode_encode_roundtrip :
  (forall b : bytes,
     base58_decode (base58_encode b) (Some (List.length b)) = Ok b) /\
  (forall (k : nat) (b : bytes),
     base58_encode (repeat x00 k ++ b) = base58_encode b) /\
  (forall b : bytes,
     base58_decode (base58_encode b) None = Ok (lstrip_zeros b)) /\
  (forall (k : nat) (b : bytes),
     base58_decode (base58_encode b) (Some (k + List.length b)%nat) =
     Ok (repeat x00 k ++ b)).
Proof.
  repeat split.
  - intros b. rewrite base58_decode_encode. apply int_to_bytes_bytes2int.
  - intros k b. unfold base58_encode. rewrite bytes2int_zeros. reflexivity.
  - intros b. rewrite base58_decode_encode. cbn [int2bytes].
    rewrite least_length_lstrip.
    destruct (lstrip_zeros_split b) as [k Hk].
    rewrite Hk at 1. rewrite bytes2int_zeros. apply int_to_bytes_bytes2int.
  - intros k b. rewrite base58_decode_encode. cbn [int2bytes].
    pose proof (bytes2int_range b) as Hr.
    rewrite int_to_bytes_ok.
    + rewrite to_bytes_be_pad, to_bytes_be_bytes2int by assumption.
      reflexivity.
    + split; [lia|]. rewrite Nat2Z.inj_add, Z.pow_add_r by lia.
      assert (1 <= 256 ^ Z.of_nat k) by (apply Z.pow_le_mono_r with (b := 0); lia).
      nia.
Qed.

(** ** Scalar multiplication: the loop and the scalar zero *)

Lemma multiply_loop_eq (x : Z) (temp p : ECPoint.t) :
  ECPoint.multiply_loop x temp p =
  if x >? 0 then
    temp' <- ECPoint.multiply_temp x temp p ;;
    p' <- ECPoint.double p ;;
    ECPoint.multiply_loop (ECPoint.multiply_x x) temp' p'
  else Ok temp.
Proof.
  rewrite ECPoint.multiply_loop_equation_1.
  destruct (Z_gt_le_dec x 0) as [H|H]; simpl;
    destruct (Z.gtb_spec x 0); try lia; [|reflexivity].
  destruct (ECPoint.multiply_temp x temp p); simpl; [|reflexivity].
  destruct (ECPoint.double p); reflexivity.
Qed.

(** With the scalar [0] the loop is not entered: the result is the copy
    of the point made before it. *)
Lemma multiply_zero (P : ECPoint.t) :
  ECPoint.multiply P 0 =
  ECPoint.__init__ (ECPoint.x P) (ECPoint.y P) (ECPoint.a P) (ECPoint.b P)
    (ECPoint.p_mod P).
Proof.
  unfold ECPoint.multiply.
  destruct (ECPoint.__init__ _ _ _ _ _) as [temp|e]; [|reflexivity].
  cbn [bind]. rewrite multiply_loop_eq. reflexivity.
Qed.

Lemma get_generator_point_G : KeysBTC.get_generator_point = Ok G.
Proof. vm_compute. reflexivity. Qed.

(** C3.  [multiply(P, 0)] is [P], not the point at infinity: at the
    generator point the code returns the generator point itself, which
    is not the [(0, 0)] sentinel. *)
Theorem multiply_zero_is_not_infinity :
  ECPoint.multiply G 0 = Ok G /\ ECPoint.__eq__ G ECPoint.infinity = false.
Proof.
  split; [|vm_compute; reflexivity].
  rewrite multiply_zero. exact get_generator_point_G.
Qed.

(** ** The constructor of [KeysBTC] *)

Lemma KeysBTC_init_ok (private_key : bytes) :
  0 < bytes2int private_key ->
  KeysBTC.__init__ private_key =
  Ok (KeysBTC.mk private_key None None None None).
Proof.
  intros H. unfold KeysBTC.__init__.
  destruct (Z.gtb_spec (bytes2int private_key) 0); [reflexivity|lia].
Qed.

(** C7.  The constructor only asserts that the scalar is positive: the
    32 bytes of the curve order [n] are accepted as a private key. *)
Theorem KeysBTC_accepts_curve_order :
  bytes2int (to_bytes_be 32 SECP256K1_ORDER) = SECP256K1_ORDER /\
  KeysBTC.__init__ (to_bytes_be 32 SECP256K1_ORDER) =
  Ok (KeysBTC.mk (to_bytes_be 32 SECP256K1_ORDER) None None None None).
Proof.
  assert (E : bytes2int (to_bytes_be 32 SECP256K1_ORDER) = SECP256K1_ORDER)
    by (vm_compute; reflexivity).
  split; [exact E|]. apply KeysBTC_init_ok. rewrite E. reflexivity.
Qed.

(** ** WIF decoding *)

(** [privatekey_from_wif] returns bytes 1 to 32 of whatever decodes to 38
    bytes; no hash is computed. *)
Lemma privatekey_from_wif_decoded (wif : string) (p : bytes) :
  base58_decode wif (Some 38%nat) = Ok p ->
  KeysBTC.privatekey_from_wif wif = Ok (slice 1 33 p).
Proof. intros H. unfold KeysBTC.privatekey_from_wif. rewrite H. reflexivity. Qed.

(** C6.  Two WIF strings with the same 34 leading bytes and different
    trailing four bytes: for any hash, the checksum of at least one of
    them does not match, and [privatekey_from_wif] returns the scalar all
    the same. *)
Theorem privatekey_from_wif_ignores_checksum (hashlib : Hashlib) :
  let payload := [x80] ++ repeat x01 32 ++ [x01] in
  exists wif : string,
    (wif = base58_encode (payload ++ [x00; x00; x00; x00]) \/
     wif = base58_encode (payload ++ [x00; x00; x00; x01])) /\
    wif_checksum_mismatch wif /\
    KeysBTC.privatekey_from_wif wif = Ok (repeat x01 32).
Proof.
  intros payload.
  set (c := slice 0 4 (sha256 (sha256 payload))).
  assert (D : forall t, List.length t = 4%nat ->
            base58_decode (base58_encode (payload ++ t)) (Some 38%nat) =
            Ok (payload ++ t)).
  { intros t Ht.
    replace 38%nat with (List.length (payload ++ t))
      by (rewrite length_app, Ht; reflexivity).
    apply base58_roundtrip_at_length. }
  destruct (list_eq_dec Byte.byte_eq_dec c [x00; x00; x00; x00]) as [E|E].
  - exists (base58_encode (payload ++ [x00; x00; x00; x01])).
    split; [right; reflexivity|]. split.
    + exists (payload ++ [x00; x00; x00; x01]). split; [apply D; reflexivity|].
      change (firstn 34 (payload ++ [x00; x00; x00; x01])) with payload.
      change (skipn 34 (payload ++ [x00; x00; x00; x01]))
        with [x00; x00; x00; x01].
      fold c. rewrite E. discriminate.
    + rewrite (privatekey_from_wif_decoded _ _ (D [x00; x00; x00; x01] eq_refl)).
      reflexivity.
  - exists (base58_encode (payload ++ [x00; x00; x00; x00])).
    split; [left; reflexivity|]. split.
    + exists (payload ++ [x00; x00; x00; x00]). split; [apply D; reflexivity|].
      exact E.
    + rewrite (privatekey_from_wif_decoded _ _ (D [x00; x00; x00; x00] eq_refl)).
      reflexivity.
Qed.

(** ** [build_keys_path] and a failing derivation *)

(** C4.  A public-only tree and the one-step path [2^31]: the hardened
    derivation fails, [build_keys_path] returns normally and the text of
    the exception is in [keys_path] where the child key would be. *)
Theorem build_keys_path_stores_message (hashlib : Hashlib) :
  let master :=
    ExtendedKey.mk (ExtendedKey.KeyPoint G) (repeat x00 32) 0 0
      [x00; x00; x00; x00] in
  exists self : BIP32.t,
    BIP32.__init__ master (Some [2 ^ 31]) = Ok self /\
    BIP32.pub_to_child (BIP32.VKey master) (2 ^ 31) =
    Raise (ValueError BIP32.hardened_message) /\
    BIP32.build_keys_path self None =
    (BIP32.mk BIP32.VNone (BIP32.VKey master) [2 ^ 31]
       [BIP32.mk_couple BIP32.VNone (BIP32.VKey master);
        BIP32.mk_couple BIP32.VNone (BIP32.VStr BIP32.hardened_message)],
     Ok tt).
Proof.
  intros master. eexists. split; [reflexivity|]. split; reflexivity.
Qed.

(** ** The extended Euclidean algorithm of [mod_inverse] *)

Lemma egcd_fuel_S (f : nat) (a b : Z) :
  egcd_fuel (S f) a b =
  if a =? 0 then Some (b, 0, 1)
  else match egcd_fuel f (b mod a) a with
       | Some (g, y, x) => Some (g, x - y * (b / a), y)
       | None => None
       end.
Proof. reflexivity. Qed.

Lemma egcd_fuel_more (f : nat) :
  forall (a b : Z) (r : Z * Z * Z),
    egcd_fuel f a b = Some r -> egcd_fuel (S f) a b = Some r.
Proof.
  induction f as [|f IH]; intros a b r H; [discriminate|].
  rewrite egcd_fuel_S in H. rewrite egcd_fuel_S.
  destruct (a =? 0); [exact H|].
  destruct (egcd_fuel f (b mod a) a) as [r'|] eqn:E; [|discriminate].
  rewrite (IH _ _ _ E). exact H.
Qed.

Lemma egcd_fuel_mono (f f' : nat) (a b : Z) (r : Z * Z * Z) :
  (f <= f')%nat -> egcd_fuel f a b = Some r -> egcd_fuel f' a b = Some r.
Proof.
  induction 1 as [|f' _ IH]; [trivial|].
  intros H. apply egcd_fuel_more, IH, H.
Qed.

Lemma egcd_fuel_agree (f f' : nat) (a b : Z) (r r' : Z * Z * Z) :
  egcd_fuel f a b = Some r -> egcd_fuel f' a b = Some r' -> r = r'.
Proof.
  intros H H'. destruct (Nat.le_ge_cases f f') as [L|L].
  - rewrite (egcd_fuel_mono _ _ _ _ _ L H) in H'. congruence.
  - rewrite (egcd_fuel_mono _ _ _ _ _ L H') in H. congruence.
Qed.

(** Two steps of the recursion halve the second argument, so a depth of
    twice its bit length is never exhausted. *)
Lemma egcd_fuel_enough_lt (k : nat) :
  forall a b : Z, 0 <= a < b -> b < 2 ^ Z.of_nat k ->
    exists r, egcd_fuel (2 * k) a b = Some r.
Proof.
  induction k as [|k IH]; intros a b Hab Hb.
  - cbn in Hb. lia.
  - replace (2 * S k)%nat with (S (S (2 * k))) by lia.
    rewrite egcd_fuel_S.
    destruct (Z.eqb_spec a 0) as [->|Hnz]; [eexists; reflexivity|].
    set (a1 := b mod a).
    assert (Ha1 : 0 <= a1 < a) by (apply Z.mod_pos_bound; lia).
    rewrite egcd_fuel_S.
    destruct (Z.eqb_spec a1 0) as [E1|Hnz1]; [eexists; reflexivity|].
    assert (Hhalf : 2 * a1 < b).
    { pose proof (Z.div_mod b a Hnz) as D. fold a1 in D.
      assert (1 <= b / a) by (apply Z.div_le_lower_bound; lia). nia. }
    destruct (IH (a mod a1) a1) as [[[g y] x] E].
    { apply Z.mod_pos_bound. lia. }
    { rewrite Nat2Z.inj_succ, Z.pow_succ_r in Hb by lia. lia. }
    rewrite E. eexists. reflexivity.
Qed.

Lemma egcd_fuel_enough (k : nat) (a b : Z) :
  0 <= a < 2 ^ Z.of_nat k -> exists r, egcd_fuel (S (2 * k)) a b = Some r.
Proof.
  intros Ha. rewrite egcd_fuel_S.
  destruct (Z.eqb_spec a 0) as [->|Hnz]; [eexists; reflexivity|].
  destruct (egcd_fuel_enough_lt k (b mod a) a) as [[[g y] x] E].
  - apply Z.mod_pos_bound. lia.
  - lia.
  - rewrite E. eexists. reflexivity.
Qed.

Lemma bit_length_bound (a : Z) : 0 <= a -> a < 2 ^ bit_length a.
Proof.
  intros Ha. unfold bit_length.
  destruct (Z.eqb_spec a 0) as [->|Hnz]; [reflexivity|].
  rewrite Z.abs_eq by lia.
  replace (Z.log2 a + 1) with (Z.succ (Z.log2 a)) by lia.
  apply Z.log2_spec. lia.
Qed.

Lemma bit_length_nonneg (a : Z) : 0 <= bit_length a.
Proof.
  unfold bit_length. destruct (a =? 0); [lia|].
  pose proof (Z.log2_nonneg (Z.abs a)). lia.
Qed.

(** The recursion equation of the Python [egcd], for the arguments that
    reach it: a non-negative first argument. *)
Lemma egcd_eq (a b : Z) :
  0 <= a ->
  egcd a b =
  if a =? 0 then (b, 0, 1)
  else let '(g, y, x) := egcd (b mod a) a in (g, x - y * (b / a), y).
Proof.
  intros Ha.
  assert (En : forall a b, 0 <= a ->
            exists r, egcd_fuel (egcd_depth a) a b = Some r).
  { intros a' b' Ha'. apply egcd_fuel_enough.
    rewrite Z2Nat.id by apply bit_length_nonneg.
    split; [lia|]. apply bit_length_bound. lia. }
  destruct (Z.eqb_spec a 0) as [->|Hnz]; [reflexivity|].
  assert (Ha1 : 0 <= b mod a < a) by (apply Z.mod_pos_bound; lia).
  destruct (En a b Ha) as [r E]. destruct (En (b mod a) a ltac:(lia)) as [r1 E1].
  unfold egcd. rewrite E, E1.
  unfold egcd_depth in E. rewrite egcd_fuel_S in E.
  destruct (Z.eqb_spec a 0); [lia|].
  destruct (egcd_fuel _ (b mod a) a) as [r2|] eqn:E2; [|discriminate].
  rewrite (egcd_fuel_agree _ _ _ _ _ _ E1 E2).
  destruct r2 as [[g y] x]. congruence.
Qed.

(** What [egcd] returns: Bezout coefficients of the greatest common
    divisor. *)
Lemma egcd_spec (a b : Z) :
  0 <= a -> 0 <= b ->
  let '(g, x, y) := egcd a b in g = Z.gcd a b /\ a * x + b * y = g.
Proof.
  intros Ha. revert b. pattern a. apply Zlt_0_ind; [|exact Ha].
  clear a Ha. intros a IH Ha b Hb.
  rewrite egcd_eq by assumption.
  destruct (Z.eqb_spec a 0) as [->|Hnz].
  - rewrite Z.gcd_0_l, Z.abs_eq by lia. lia.
  - assert (Ha1 : 0 <= b mod a < a) by (apply Z.mod_pos_bound; lia).
    specialize (IH (b mod a) Ha1 a Ha).
    destruct (egcd (b mod a) a) as [[g y] x]. destruct IH as [Hg Hb'].
    split.
    + rewrite Hg, Z.gcd_mod by lia. reflexivity.
    + pose proof (Z.div_mod b a Hnz). nia.
Qed.

(** [mod_inverse] on a non-negative number and a modulus from 2 on. *)
Lemma mod_inverse_coprime (a m : Z) :
  0 <= a -> 1 < m -> Z.gcd a m = 1 ->
  exists i, mod_inverse a m = Ok i /\ 0 <= i < m /\ (a * i) mod m = 1.
Proof.
  intros Ha Hm Hg. unfold mod_inverse.
  pose proof (egcd_spec a m Ha ltac:(lia)) as S.
  destruct (egcd a m) as [[g x] y]. destruct S as [Sg Sb].
  rewrite Sg, Hg. cbn [Z.eqb negb Pos.eqb].
  destruct (Z.eqb_spec m 0); [lia|].
  exists (x mod m). split; [reflexivity|]. split; [apply Z.mod_pos_bound; lia|].
  rewrite Z.mul_mod_idemp_r by lia.
  replace (a * x) with (1 + (- y) * m) by lia.
  rewrite Z.mod_add by lia. apply Z.mod_small. lia.
Qed.

Lemma mod_inverse_not_coprime (a m : Z) :
  0 <= a -> 0 <= m -> Z.gcd a m <> 1 ->
  mod_inverse a m =
  Raise (ValueError
           ("No modular inverse for: a=" ++ fmt_d a ++ ", m=" ++ fmt_d m)).
Proof.
  intros Ha Hm Hg. unfold mod_inverse.
  pose proof (egcd_spec a m Ha Hm) as S.
  destruct (egcd a m) as [[g x] y]. destruct S as [Sg Sb].
  destruct (Z.eqb_spec g 1); [congruence|]. reflexivity.
Qed.

(** What a successful [mod_inverse] returned. *)
Lemma mod_inverse_inv (a m i : Z) :
  0 <= a -> 1 < m -> mod_inverse a m = Ok i ->
  0 <= i < m /\ (a * i) mod m = 1.
Proof.
  intros Ha Hm H.
  destruct (Z.eq_dec (Z.gcd a m) 1) as [Hg|Hg].
  - destruct (mod_inverse_coprime a m Ha Hm Hg) as (i' & E & R).
    rewrite E in H. injection H as <-. exact R.
  - rewrite mod_inverse_not_coprime in H by (assumption || lia). discriminate.
Qed.

(** ** The chord and tangent formulas stay on the curve

    Arithmetic modulo [m], for any modulus: the sum of two points of
    [y^2 = x^3 + a*x + b] built with a slope [s] lies on the curve
    again.  The line through the points meets the cubic in a third
    point; [f] below is the cubic restricted to the line. *)

#[local] Instance eqm_equivalence (m : Z) : Equivalence (eqm m) := eqm_setoid m.
#[local] Instance add_eqm (m : Z) : Proper (eqm m ==> eqm m ==> eqm m) Z.add :=
  Zplus_eqm m.
#[local] Instance sub_eqm (m : Z) : Proper (eqm m ==> eqm m ==> eqm m) Z.sub :=
  Zminus_eqm m.
#[local] Instance mul_eqm (m : Z) : Proper (eqm m ==> eqm m ==> eqm m) Z.mul :=
  Zmult_eqm m.

Section CurveAlgebra.
Variables m a b : Z.

Local Abbreviation curve_eqm := (curve_eqm m a b).

(** The chord: [s * (x2 - x1) = y2 - y1]. *)
Lemma chord_on_curve (x1 y1 x2 y2 i s : Z) :
  curve_eqm x1 y1 -> curve_eqm x2 y2 ->
  eqm m ((x2 - x1) * i) 1 ->
  eqm m (s * (x2 - x1)) (y2 - y1) ->
  let x3 := s * s - x1 - x2 in
  let y3 := s * (x1 - x3) - y1 in
  curve_eqm x3 y3.
Proof.
  intros H1 H2 Hi Hs x3 y3. unfold curve_eqm in *.
  (* the line is y = s * x + c; f is the cubic along the line *)
  set (c := y1 - s * x1).
  set (f := fun X => (s * X + c) * (s * X + c) - (X * X * X + a * X + b)).
  set (alpha := 2 * s * c - a + x1 * x2 + x1 * x3 + x2 * x3).
  assert (F1 : eqm m (f x1) 0).
  { unfold f, c. replace (s * x1 + (y1 - s * x1)) with y1 by ring.
    rewrite H1. replace (x1 * x1 * x1 + a * x1 + b - (x1 * x1 * x1 + a * x1 + b))
      with 0 by ring. reflexivity. }
  assert (F2 : eqm m (f x2) 0).
  { unfold f, c.
    replace (s * x2 + (y1 - s * x1)) with (s * (x2 - x1) + y1) by ring.
    rewrite Hs. replace (y2 - y1 + y1) with y2 by ring. rewrite H2.
    replace (x2 * x2 * x2 + a * x2 + b - (x2 * x2 * x2 + a * x2 + b))
      with 0 by ring. reflexivity. }
  assert (A : eqm m alpha 0).
  { replace alpha with (alpha * 1) by ring. rewrite <- Hi.
    replace (alpha * ((x2 - x1) * i)) with ((f x2 - f x1) * i)
      by (unfold alpha, f, x3, c; ring).
    rewrite F1, F2. reflexivity. }
  replace (y3 * y3) with
    (alpha * (x3 - x1) + f x1 + (x3 * x3 * x3 + a * x3 + b))
    by (unfold alpha, f, y3, x3, c; ring).
  rewrite A, F1. replace (0 * (x3 - x1) + 0 + (x3 * x3 * x3 + a * x3 + b))
    with (x3 * x3 * x3 + a * x3 + b) by ring. reflexivity.
Qed.

(** The tangent: [s * (2 * y1) = 3 * x1^2 + a]. *)
Lemma tangent_on_curve (x1 y1 s : Z) :
  curve_eqm x1 y1 ->
  eqm m (s * (2 * y1)) (3 * x1 * x1 + a) ->
  let x3 := s * s - x1 - x1 in
  let y3 := s * (x1 - x3) - y1 in
  curve_eqm x3 y3.
Proof.
  intros H1 Hs x3 y3. unfold curve_eqm in *.
  set (c := y1 - s * x1).
  set (f := fun X => (s * X + c) * (s * X + c) - (X * X * X + a * X + b)).
  set (alpha := 2 * s * c - a + x1 * x1 + x1 * x3 + x1 * x3).
  assert (F1 : eqm m (f x1) 0).
  { unfold f, c. replace (s * x1 + (y1 - s * x1)) with y1 by ring.
    rewrite H1. replace (x1 * x1 * x1 + a * x1 + b - (x1 * x1 * x1 + a * x1 + b))
      with 0 by ring. reflexivity. }
  assert (A : eqm m alpha 0).
  { replace alpha with (s * (2 * y1) - (3 * x1 * x1 + a))
      by (unfold alpha, x3, c; ring).
    rewrite Hs. replace (3 * x1 * x1 + a - (3 * x1 * x1 + a)) with 0 by ring.
    reflexivity. }
  replace (y3 * y3) with
    (alpha * (x3 - x1) + f x1 + (x3 * x3 * x3 + a * x3 + b))
    by (unfold alpha, f, y3, x3, c; ring).
  rewrite A, F1. replace (0 * (x3 - x1) + 0 + (x3 * x3 * x3 + a * x3 + b))
    with (x3 * x3 * x3 + a * x3 + b) by ring. reflexivity.
Qed.

(** Reducing the coordinates modulo [m] keeps a point on the curve. *)
Lemma curve_eqm_mod (x y x' y' : Z) :
  eqm m x' x -> eqm m y' y -> curve_eqm x y -> curve_eqm x' y'.
Proof.
  unfold curve_eqm. intros Hx Hy H. rewrite Hx, Hy. exact H.
Qed.

End CurveAlgebra.

(** ** Closure of [add], [double] and [multiply] on secp256k1 *)

Lemma SECP256K1_P_gt_1 : 1 < SECP256K1_P.
Proof. reflexivity. Qed.

Lemma contained_iff_curve_eqm (m a b x y : Z) :
  (y ^ 2 - (x ^ 3 + a * x + b)) mod m = 0 <-> curve_eqm m a b x y.
Proof.
  unfold curve_eqm, eqm. rewrite Z.cong_iff_0.
  replace (y * y - (x * x * x + a * x + b)) with (y ^ 2 - (x ^ 3 + a * x + b))
    by ring.
  reflexivity.
Qed.

Lemma on_secp256k1_inv (P : ECPoint.t) :
  on_secp256k1 P = true ->
  ECPoint.a P = SECP256K1_A /\ ECPoint.b P = SECP256K1_B /\
  ECPoint.p_mod P = SECP256K1_P /\
  (ECPoint.__eq__ P ECPoint.infinity = true \/
   curve_eqm SECP256K1_P SECP256K1_A SECP256K1_B (ECPoint.x P) (ECPoint.y P)).
Proof.
  unfold on_secp256k1. rewrite !andb_true_iff, orb_true_iff, !Z.eqb_eq.
  intros [[[Ha Hb] Hp] H]. repeat split; try assumption.
  destruct H as [H|H]; [left; exact H|right].
  rewrite Ha, Hb, Hp in H. apply contained_iff_curve_eqm. exact H.
Qed.

Lemma on_secp256k1_intro (P : ECPoint.t) :
  ECPoint.a P = SECP256K1_A -> ECPoint.b P = SECP256K1_B ->
  ECPoint.p_mod P = SECP256K1_P ->
  curve_eqm SECP256K1_P SECP256K1_A SECP256K1_B (ECPoint.x P) (ECPoint.y P) ->
  on_secp256k1 P = true.
Proof.
  intros Ha Hb Hp H. unfold on_secp256k1.
  rewrite !andb_true_iff, orb_true_iff, !Z.eqb_eq.
  repeat split; try assumption. right.
  rewrite Ha, Hb, Hp. apply contained_iff_curve_eqm. exact H.
Qed.

Lemma on_secp256k1_infinity : on_secp256k1 ECPoint.infinity = true.
Proof. reflexivity. Qed.

(** [double] away from the point at infinity. *)
Lemma double_eq (P : ECPoint.t) :
  ECPoint.__eq__ P ECPoint.infinity = false -> ECPoint.p_mod P <> 0 ->
  ECPoint.double P =
  (i <- mod_inverse ((2 * ECPoint.y P) mod ECPoint.p_mod P) (ECPoint.p_mod P) ;;
   let s := ((3 * ECPoint.x P * ECPoint.x P + ECPoint.a P) mod ECPoint.p_mod P * i)
              mod ECPoint.p_mod P in
   let x2 := (s * s - ECPoint.x P - ECPoint.x P) mod ECPoint.p_mod P in
   let y2 := (s * (ECPoint.x P - x2) - ECPoint.y P) mod ECPoint.p_mod P in
   Ok (ECPoint.mk x2 y2 (ECPoint.a P) (ECPoint.b P) (ECPoint.p_mod P))).
Proof.
  intros Hinf Hm. unfold ECPoint.double. rewrite Hinf.
  destruct (Z.eqb_spec (ECPoint.p_mod P) 0); [contradiction|reflexivity].
Qed.

(** [add] of two points with different [x], neither at infinity. *)
Lemma add_eq (P1 P2 : ECPoint.t) :
  ECPoint.__eq__ P1 ECPoint.infinity = false ->
  ECPoint.__eq__ P2 ECPoint.infinity = false ->
  ECPoint.x P1 <> ECPoint.x P2 -> ECPoint.p_mod P1 <> 0 ->
  ECPoint.add P1 P2 =
  (i <- mod_inverse ((ECPoint.x P2 - ECPoint.x P1) mod ECPoint.p_mod P1)
         (ECPoint.p_mod P1) ;;
   let s := ((ECPoint.y P2 - ECPoint.y P1) mod ECPoint.p_mod P1 * i)
              mod ECPoint.p_mod P1 in
   let x3 := (s * s - ECPoint.x P1 - ECPoint.x P2) mod ECPoint.p_mod P1 in
   let y3 := (s * (ECPoint.x P1 - x3) - ECPoint.y P1) mod ECPoint.p_mod P1 in
   Ok (ECPoint.mk x3 y3 (ECPoint.a P1) (ECPoint.b P1) (ECPoint.p_mod P1))).
Proof.
  intros H1 H2 Hx Hm. unfold ECPoint.add. rewrite H1, H2.
  destruct (Z.eqb_spec (ECPoint.x P1) (ECPoint.x P2)); [contradiction|].
  destruct (Z.eqb_spec (ECPoint.p_mod P1) 0); [contradiction|reflexivity].
Qed.

Lemma SECP256K1_P_nonzero : SECP256K1_P <> 0.
Proof. discriminate. Qed.

(** [double] keeps a valid point valid. *)
Lemma double_on_curve (P R : ECPoint.t) :
  on_secp256k1 P = true -> ECPoint.double P = Ok R -> on_secp256k1 R = true.
Proof.
  intros HP. destruct (on_secp256k1_inv P HP) as (Ha & Hb & Hp & Hc).
  destruct (ECPoint.__eq__ P ECPoint.infinity) eqn:Einf.
  { unfold ECPoint.double. rewrite Einf. intros [= <-]. reflexivity. }
  destruct Hc as [Hc|Hc]; [congruence|].
  rewrite double_eq by (assumption || rewrite Hp; discriminate).
  rewrite Hp, Ha, Hb.
  destruct (mod_inverse _ _) as [i|e] eqn:Ei; [|discriminate].
  unfold bind. cbv zeta. set (res := ECPoint.mk _ _ _ _ _).
  intros [= <-]. subst res.
  apply mod_inverse_inv in Ei;
    [|apply Z.mod_pos_bound; reflexivity|reflexivity].
  destruct Ei as [_ Ei].
  apply on_secp256k1_intro; try reflexivity.
  cbn [ECPoint.x ECPoint.y].
  set (m := SECP256K1_P) in *. set (x1 := ECPoint.x P) in *.
  set (y1 := ECPoint.y P) in *.
  set (s := ((3 * x1 * x1 + SECP256K1_A) mod m * i) mod m).
  assert (Hi : eqm m ((2 * y1) * i) 1).
  { unfold eqm. rewrite <- Ei, Z.mul_mod_idemp_l, Z.mod_mod by discriminate.
    reflexivity. }
  assert (Hs : eqm m (s * (2 * y1)) (3 * x1 * x1 + SECP256K1_A)).
  { unfold s. rewrite Zmod_eqm, Zmod_eqm.
    replace ((3 * x1 * x1 + SECP256K1_A) * i * (2 * y1))
      with ((3 * x1 * x1 + SECP256K1_A) * ((2 * y1) * i)) by ring.
    rewrite Hi. rewrite Z.mul_1_r. reflexivity. }
  pose proof (tangent_on_curve m SECP256K1_A SECP256K1_B x1 y1 s Hc Hs) as T.
  cbv zeta in T. eapply curve_eqm_mod; [| |exact T].
  - apply Zmod_eqm.
  - rewrite Zmod_eqm. rewrite Zmod_eqm. reflexivity.
Qed.

(** [add] keeps valid points valid. *)
Lemma add_on_curve (P1 P2 R : ECPoint.t) :
  on_secp256k1 P1 = true -> on_secp256k1 P2 = true ->
  ECPoint.add P1 P2 = Ok R -> on_secp256k1 R = true.
Proof.
  intros HP1 HP2.
  destruct (on_secp256k1_inv P1 HP1) as (Ha & Hb & Hp & Hc1).
  destruct (on_secp256k1_inv P2 HP2) as (_ & _ & _ & Hc2).
  destruct (ECPoint.__eq__ P1 ECPoint.infinity) eqn:E1.
  { unfold ECPoint.add. rewrite E1. intros [= <-]. exact HP2. }
  destruct (ECPoint.__eq__ P2 ECPoint.infinity) eqn:E2.
  { unfold ECPoint.add. rewrite E1, E2. intros [= <-]. exact HP1. }
  destruct (Z.eqb_spec (ECPoint.x P1) (ECPoint.x P2)) as [Ex|Ex].
  { unfold ECPoint.add. rewrite E1, E2.
    destruct (Z.eqb_spec (ECPoint.x P1) (ECPoint.x P2)); [|contradiction].
    destruct (ECPoint.y P1 =? ECPoint.y P2).
    - apply double_on_curve. exact HP1.
    - intros [= <-]. reflexivity. }
  destruct Hc1 as [Hc1|Hc1]; [congruence|].
  destruct Hc2 as [Hc2|Hc2]; [congruence|].
  rewrite add_eq by (assumption || rewrite Hp; discriminate).
  rewrite Hp, Ha, Hb.
  destruct (mod_inverse _ _) as [i|e] eqn:Ei; [|discriminate].
  unfold bind. cbv zeta. set (res := ECPoint.mk _ _ _ _ _).
  intros [= <-]. subst res.
  apply mod_inverse_inv in Ei;
    [|apply Z.mod_pos_bound; reflexivity|reflexivity].
  destruct Ei as [_ Ei].
  apply on_secp256k1_intro; try reflexivity.
  cbn [ECPoint.x ECPoint.y].
  set (m := SECP256K1_P) in *.
  set (x1 := ECPoint.x P1) in *. set (y1 := ECPoint.y P1) in *.
  set (x2 := ECPoint.x P2) in *. set (y2 := ECPoint.y P2) in *.
  set (s := ((y2 - y1) mod m * i) mod m).
  assert (Hi : eqm m ((x2 - x1) * i) 1).
  { unfold eqm. rewrite <- Ei, Z.mul_mod_idemp_l, Z.mod_mod by discriminate.
    reflexivity. }
  assert (Hs : eqm m (s * (x2 - x1)) (y2 - y1)).
  { unfold s. rewrite Zmod_eqm, Zmod_eqm.
    replace ((y2 - y1) * i * (x2 - x1)) with ((y2 - y1) * ((x2 - x1) * i))
      by ring.
    rewrite Hi. rewrite Z.mul_1_r. reflexivity. }
  pose proof (chord_on_curve m SECP256K1_A SECP256K1_B x1 y1 x2 y2 i s
                Hc1 Hc2 Hi Hs) as T.
  cbv zeta in T. eapply curve_eqm_mod; [| |exact T].
  - apply Zmod_eqm.
  - rewrite Zmod_eqm. rewrite Zmod_eqm. reflexivity.
Qed.

Lemma multiply_x_bounds (x : Z) : 0 < x -> 0 <= ECPoint.multiply_x x < x.
Proof.
  intros Hx. unfold ECPoint.multiply_x.
  destruct (negb (x mod 2 =? 0)).
  - split; [apply Z.div_pos; lia|]. apply Z.div_lt_upper_bound; lia.
  - split; [apply Z.div_pos; lia|]. apply Z.div_lt_upper_bound; lia.
Qed.

(** The constructor accepts a valid point as it is. *)
Lemma init_on_curve (P : ECPoint.t) :
  on_secp256k1 P = true ->
  ECPoint.__init__ (ECPoint.x P) (ECPoint.y P) (ECPoint.a P) (ECPoint.b P)
    (ECPoint.p_mod P) = Ok P.
Proof.
  intros HP. unfold on_secp256k1 in HP.
  rewrite !andb_true_iff, orb_true_iff, !Z.eqb_eq in HP.
  destruct HP as [[[Ha Hb] Hp] H].
  destruct P as [x y a b m]. cbn [ECPoint.x ECPoint.y ECPoint.a ECPoint.b
                                  ECPoint.p_mod] in *.
  unfold ECPoint.__init__, ECPoint.is_contained.
  destruct (Z.eqb_spec x 0) as [Ex|Ex]; destruct (Z.eqb_spec y 0) as [Ey|Ey];
    cbn [negb orb]; try reflexivity;
    (destruct H as [H|H];
     [unfold ECPoint.__eq__ in H; cbn in H;
      apply andb_true_iff in H; rewrite !Z.eqb_eq in H; lia|]);
    subst m; change (SECP256K1_P =? 0) with false; cbv iota; cbn [bind];
    rewrite H; reflexivity.
Qed.

Lemma multiply_temp_on_curve (x : Z) (temp p R : ECPoint.t) :
  on_secp256k1 temp = true -> on_secp256k1 p = true ->
  ECPoint.multiply_temp x temp p = Ok R -> on_secp256k1 R = true.
Proof.
  intros Ht Hp. unfold ECPoint.multiply_temp.
  destruct (negb (x mod 2 =? 0)).
  - destruct (ECPoint.__eq__ temp p).
    + apply double_on_curve. exact Ht.
    + apply add_on_curve; assumption.
  - intros [= <-]. exact Ht.
Qed.

Lemma multiply_loop_on_curve (n : nat) :
  forall (x : Z) (temp p R : ECPoint.t),
    x < Z.of_nat n ->
    on_secp256k1 temp = true -> on_secp256k1 p = true ->
    ECPoint.multiply_loop x temp p = Ok R -> on_secp256k1 R = true.
Proof.
  induction n as [|n IH]; intros x temp p R Hx Ht Hp;
    rewrite multiply_loop_eq; destruct (Z.gtb_spec x 0) as [Hpos|Hneg];
    try lia; try (intros [= <-]; exact Ht).
  destruct (ECPoint.multiply_temp x temp p) as [temp'|e] eqn:Et;
    cbn [bind]; [|discriminate].
  destruct (ECPoint.double p) as [p'|e] eqn:Ed; cbn [bind]; [|discriminate].
  apply IH.
  - pose proof (multiply_x_bounds x ltac:(lia)). lia.
  - exact (multiply_temp_on_curve x temp p temp' Ht Hp Et).
  - exact (double_on_curve p p' Hp Ed).
Qed.

(** [multiply] keeps a valid point valid, for every scalar. *)
Lemma multiply_on_curve (P R : ECPoint.t) (k : Z) :
  on_secp256k1 P = true -> ECPoint.multiply P k = Ok R -> on_secp256k1 R = true.
Proof.
  intros HP. unfold ECPoint.multiply. rewrite init_on_curve by exact HP.
  cbn [bind]. apply (multiply_loop_on_curve (Z.to_nat k)); try assumption. lia.
Qed.

(** ** Primality certificates

    The field prime [p] and the group order [n] of secp256k1 are proved
    prime with Pocklington's criterion: for a part [F] of [N - 1] whose
    prime factors [q] are known, a base [a] with [a^(N-1) = 1] and
    [gcd (a^((N-1)/q) - 1) N = 1] forces every prime factor of [N] to be
    [1] modulo [q]; when [F + 1] exceeds the square root of [N], [N] is
    prime. *)

Lemma prime_factor_exists (n : Z) : 1 < n -> exists r, Z.prime r /\ (r | n).
Proof.
  intros Hn. assert (H0 : 0 <= n) by lia. revert Hn. pattern n.
  apply Zlt_0_ind; [|exact H0]. clear n H0. intros n IH _ Hn.
  destruct (prime_dec n) as [Hp|Hnp].
  - exists n. split; [apply prime_alt; exact Hp|apply Z.divide_refl].
  - destruct (not_prime_divide n Hn Hnp) as (d & Hd & Hdiv).
    destruct (IH d ltac:(lia) ltac:(lia)) as (r & Hr & Hrd).
    exists r. split; [exact Hr|]. eapply Z.divide_trans; eassumption.
Qed.

(** Powers in the group of units modulo [r], read in [Z]. *)
Lemma Zstar_pow_eq_one (r a k : Z) :
  2 <= r -> Z.coprime (a mod r) r -> 0 <= k ->
  (Zstar.pow (Zstar.of_Zmod (Zmod.of_Z r a)) k = Zstar.one <->
   a ^ k mod r = 1).
Proof.
  intros Hr Hc Hk.
  rewrite <- Zstar.to_Zmod_inj_iff, Zstar.to_Zmod_pow, Zstar.to_Zmod_1.
  rewrite Zstar.to_Zmod_of_Zmod by (rewrite Zmod.to_Z_of_Z; exact Hc).
  rewrite <- Zmod.of_Z_pow, <- Zmod.of_Z_1 by exact Hk.
  rewrite Zmod.of_Z_inj. rewrite (Z.mod_small 1 r) by lia. reflexivity.
Qed.

(** One prime [q] of the certificate: it divides [r - 1] for every prime
    factor [r] of [N]. *)
Lemma pocklington_step (N q a r : Z) :
  1 < N -> Z.prime q -> (q | N - 1) ->
  a ^ (N - 1) mod N = 1 ->
  Z.gcd (a ^ ((N - 1) / q) mod N - 1) N = 1 ->
  Z.prime r -> (r | N) -> (q | r - 1).
Proof.
  intros HN Hq Hdiv Ha Hg Hr HrN.
  pose proof (Z.prime_ge_2 _ Hr) as Hr2.
  pose proof (Z.prime_ge_2 _ Hq) as Hq2.
  set (e := (N - 1) / q).
  assert (He : N - 1 = e * q).
  { unfold e. destruct Hdiv as [c Hc]. rewrite Hc, Z.div_mul by lia. reflexivity. }
  assert (He0 : 0 <= e) by (apply Z.div_pos; lia).
  assert (Hmodr : forall z, (z mod N) mod r = z mod r).
  { intros z. apply Z.mod_mod_divide. exact HrN. }
  assert (Ha_r : a ^ (N - 1) mod r = 1).
  { rewrite <- Hmodr, Ha. apply Z.mod_small. lia. }
  assert (Hcop : Z.coprime (a mod r) r).
  { apply Z.coprime_mod_l_iff. unfold Z.coprime. rewrite Z.gcd_comm.
    apply Z.coprime_prime_l; [exact Hr|]. intros Hdiva.
    assert ((r | a ^ (N - 1))).
    { replace (N - 1) with (Z.succ (N - 2)) by lia.
      rewrite Z.pow_succ_r by lia. apply Z.divide_mul_l. exact Hdiva. }
    apply Z.mod_divide in H; lia. }
  set (A := Zstar.of_Zmod (Zmod.of_Z r a)).
  set (B := Zstar.pow A e).
  assert (HBq : Zstar.pow B q = Zstar.one).
  { unfold B, A. rewrite <- Zstar.pow_mul_r, <- He.
    apply Zstar_pow_eq_one; try assumption; lia. }
  assert (HBr : Zstar.pow B (r - 1) = Zstar.one).
  { replace (r - 1) with (Z.pred r) by lia. apply Zstar.fermat. exact Hr. }
  assert (HB1 : B <> Zstar.one).
  { intros E. unfold B, A in E. apply Zstar_pow_eq_one in E; try assumption.
    assert (Hd : (r | a ^ e mod N - 1)).
    { apply Z.mod_divide; [lia|].
      rewrite Zminus_mod, Hmodr, E, (Z.mod_small 1 r) by lia. reflexivity. }
    assert (Hd1 : (r | 1)).
    { rewrite <- Hg. apply Z.gcd_greatest; assumption. }
    apply Z.divide_1_r_nonneg in Hd1; lia. }
  destruct (Z.eq_dec ((r - 1) mod q) 0) as [D|D];
    [apply Z.mod_divide in D; [exact D|lia]|exfalso].
  assert (D' : ~ (q | r - 1)) by (intros X; apply Z.mod_divide in X; lia).
  assert (Hc : Z.coprime q (r - 1)) by (apply Z.coprime_prime_l; assumption).
  clear D D'.
  apply Z.Bezout_coprime in Hc. destruct Hc as (u & v & Huv).
  apply HB1. rewrite <- (Zstar.pow_1_r B), <- Huv, Zstar.pow_add_r.
  rewrite (Z.mul_comm u), (Z.mul_comm v), !Zstar.pow_mul_r, HBq, HBr.
  rewrite !Zstar.pow_1_l. apply Zstar.mul_1_l.
Qed.

Lemma pock_product_divides (cert : list (Z * Z)) (M : Z) :
  pock_coprime cert = true ->
  (forall qa, In qa cert -> (fst qa | M)) ->
  (pock_product cert | M).
Proof.
  induction cert as [|qa rest IH]; intros Hc Hd.
  - apply Z.divide_1_l.
  - cbn [pock_coprime pock_product] in *.
    apply andb_true_iff in Hc. destruct Hc as [Hg Hc]. apply Z.eqb_eq in Hg.
    assert (Hq : (fst qa | M)) by (apply Hd; left; reflexivity).
    assert (Hr : (pock_product rest | M))
      by (apply IH; [exact Hc|intros; apply Hd; right; assumption]).
    destruct Hq as [M' ->]. rewrite (Z.mul_comm M').
    apply Z.mul_divide_mono_l. apply Z.gauss with (m := fst qa).
    + rewrite Z.mul_comm. exact Hr.
    + rewrite Z.gcd_comm. exact Hg.
Qed.

Lemma pock_product_pos (cert : list (Z * Z)) :
  (forall qa, In qa cert -> 0 < fst qa) -> 0 < pock_product cert.
Proof.
  induction cert as [|qa rest IH]; intros H; cbn [pock_product]; [lia|].
  apply Z.mul_pos_pos; [apply H; left; reflexivity|].
  apply IH. intros; apply H; right; assumption.
Qed.

(** Pocklington's criterion. *)
Theorem pocklington_sound (N : Z) (cert : list (Z * Z)) :
  pocklington N cert = true ->
  (forall qa, In qa cert -> Z.prime (fst qa)) ->
  Z.prime N.
Proof.
  unfold pocklington. rewrite !andb_true_iff, forallb_forall.
  intros [[[HN Hitems] Hcop] Hsqrt] Hprimes.
  apply Z.ltb_lt in HN. apply Z.ltb_lt in Hsqrt.
  set (F := pock_product cert) in *.
  assert (HF : 0 < F).
  { apply pock_product_pos. intros qa Hin.
    pose proof (Z.prime_ge_2 _ (Hprimes qa Hin)). lia. }
  assert (Hfactor : forall r, Z.prime r -> (r | N) -> F + 1 <= r).
  { intros r Hr HrN. pose proof (Z.prime_ge_2 _ Hr).
    assert (HFr : (F | r - 1)).
    { apply pock_product_divides; [exact Hcop|]. intros qa Hin.
      specialize (Hitems qa Hin). unfold pock_item in Hitems.
      rewrite !andb_true_iff, !Z.eqb_eq in Hitems.
      destruct Hitems as [[Hd Ha] Hg].
      rewrite Zpow_mod_correct in Ha, Hg by lia.
      pose proof (Z.prime_ge_2 _ (Hprimes qa Hin)).
      apply (pocklington_step N (fst qa) (snd qa) r); try assumption.
      - apply Hprimes. exact Hin.
      - apply Z.mod_divide; [lia|exact Hd]. }
    apply Z.divide_pos_le in HFr; lia. }
  apply prime_alt. destruct (prime_dec N) as [Hp|Hnp]; [exact Hp|exfalso].
  destruct (not_prime_divide N HN Hnp) as (d & Hd & [c Hc]).
  assert (Hc1 : 1 < c) by nia.
  destruct (prime_factor_exists d ltac:(lia)) as (r1 & Hr1 & Hr1d).
  destruct (prime_factor_exists c Hc1) as (r2 & Hr2 & Hr2c).
  assert (F + 1 <= r1).
  { apply Hfactor; [exact Hr1|]. rewrite Hc. apply Z.divide_mul_r. exact Hr1d. }
  assert (F + 1 <= r2).
  { apply Hfactor; [exact Hr2|]. rewrite Hc. apply Z.divide_mul_l. exact Hr2c. }
  apply Z.divide_pos_le in Hr1d; [|lia].
  apply Z.divide_pos_le in Hr2c; [|lia].
  nia.
Qed.

Lemma trial_division_sound (fuel : nat) :
  forall d n : Z,
    0 < d -> trial_division fuel d n = true ->
    forall k, d <= k -> k * k <= n -> n mod k <> 0.
Proof.
  induction fuel as [|f IH]; intros d n Hd H k Hk Hkk; [discriminate|].
  cbn [trial_division] in H.
  destruct (Z.ltb_spec n (d * d)) as [Hlt|Hge]; [nia|].
  destruct (Z.eqb_spec (n mod d) 0) as [E|E]; [discriminate|].
  destruct (Z.eq_dec k d) as [->|Hne]; [exact E|].
  apply (IH (d + 1) n); try assumption; lia.
Qed.

Theorem small_prime_sound (n : Z) : small_prime n = true -> Z.prime n.
Proof.
  unfold small_prime. rewrite andb_true_iff. intros [Hn Ht].
  apply Z.ltb_lt in Hn.
  pose proof (trial_division_sound _ 2 n ltac:(lia) Ht) as Hnd.
  split; [exact Hn|]. intros m Hm [c Hc].
  assert (Hc1 : 1 < c) by nia.
  destruct (Z.le_gt_cases (m * m) n) as [Hle|Hgt].
  - apply (Hnd m); [lia|exact Hle|]. rewrite Hc. apply Z.mod_mul. lia.
  - apply (Hnd c); [lia|nia|]. rewrite Hc, Z.mul_comm. apply Z.mod_mul. lia.
Qed.

Lemma small_primes_sound (cert : list (Z * Z)) :
  forallb (fun qa => small_prime (fst qa)) cert = true ->
  forall qa, In qa cert -> Z.prime (fst qa).
Proof.
  rewrite forallb_forall. intros H qa Hin. apply small_prime_sound, H, Hin.
Qed.

Lemma single_prime_sound (q a : Z) :
  Z.prime q -> forall qa, In qa [(q, a)] -> Z.prime (fst qa).
Proof. intros Hq qa [<-|[]]. exact Hq. Qed.

(** The chain for the field prime [p]:
    [p - 1 = 2 * 3 * 7 * 13441 * q1], [q1 - 1 = ... * q2] and [q2 - 1]
    has enough small prime factors. *)
Lemma prime_p_chain_2 : Z.prime 255515944373312847190720520512484175977.
Proof.
  apply (pocklington_sound _
           [(2, 3); (7, 2); (11, 2); (1627, 2); (2657, 2); (4423, 2);
            (41201, 2); (96557, 2)]).
  - vm_compute. reflexivity.
  - apply small_primes_sound. vm_compute. reflexivity.
Qed.

Lemma prime_p_chain_1 :
  Z.prime 205115282021455665897114700593932402728804164701536103180137503955397371.
Proof.
  apply (pocklington_sound _ [(255515944373312847190720520512484175977, 2)]).
  - vm_compute. reflexivity.
  - apply single_prime_sound, prime_p_chain_2.
Qed.

(** The field prime of secp256k1 is prime. *)
Theorem SECP256K1_P_prime : Z.prime SECP256K1_P.
Proof.
  apply (pocklington_sound _
    [(205115282021455665897114700593932402728804164701536103180137503955397371,
      2)]).
  - vm_compute. reflexivity.
  - apply single_prime_sound, prime_p_chain_1.
Qed.

(** The chain for the group order [n]. *)
Lemma prime_n_chain_3 : Z.prime 29047611873442575647497758179.
Proof.
  apply (pocklington_sound _ [(545358713, 2); (305873, 2); (293, 2); (2, 2)]).
  - vm_compute. reflexivity.
  - apply small_primes_sound. vm_compute. reflexivity.
Qed.

Lemma prime_n_chain_2 : Z.prime 341948486974166000522343609283189.
Proof.
  apply (pocklington_sound _ [(29047611873442575647497758179, 2)]).
  - vm_compute. reflexivity.
  - apply single_prime_sound, prime_n_chain_3.
Qed.

Lemma prime_n_chain_1 : Z.prime 107361793816595537.
Proof.
  apply (pocklington_sound _ [(16699, 2); (85831, 2)]).
  - vm_compute. reflexivity.
  - apply small_primes_sound. vm_compute. reflexivity.
Qed.

(** The order of the generator of secp256k1 is prime. *)
Theorem SECP256K1_ORDER_prime : Z.prime SECP256K1_ORDER.
Proof.
  apply (pocklington_sound _
           [(341948486974166000522343609283189, 2); (107361793816595537, 2)]).
  - vm_compute. reflexivity.
  - intros qa [<-|[<-|[]]]; [exact prime_n_chain_2|exact prime_n_chain_1].
Qed.

(** ** The point operations never fail on valid points *)

(** Modulo a prime every non-zero residue has its inverse. *)
Lemma mod_inverse_prime (a m : Z) :
  Z.prime m -> 0 < a < m ->
  exists i, mod_inverse a m = Ok i /\ 0 <= i < m /\ (a * i) mod m = 1.
Proof.
  intros Hm Ha. pose proof (Z.prime_ge_2 _ Hm).
  apply mod_inverse_coprime; try lia.
  rewrite Z.gcd_comm. apply Z.coprime_prime_small; [exact Hm|lia].
Qed.

(** No [x] has [x^3 + 7 = 0] modulo [p]: [-7] is not a cube, since
    [(-7)^((p-1)/3)] is not [1]. *)
Lemma no_point_of_order_two (x : Z) : (x * x * x + 7) mod SECP256K1_P <> 0.
Proof.
  intros H. set (p := SECP256K1_P) in *.
  assert (Hp : Z.prime p) by exact SECP256K1_P_prime.
  assert (Hx : x mod p <> 0).
  { intros Hx. apply Z.mod_divide in Hx; [|discriminate].
    assert (Hd : (p | x * x * x)) by (apply Z.divide_mul_r; exact Hx).
    apply Z.mod_divide in Hd; [|discriminate].
    rewrite Zplus_mod, Hd in H. vm_compute in H. discriminate. }
  pose proof (Z.fermat_nz p x Hp Hx) as F.
  assert (Hc : (x ^ 3) mod p = (-7) mod p).
  { apply Z.cong_iff_0. replace (x ^ 3 - -7) with (x * x * x + 7) by ring.
    exact H. }
  assert (E : (-7) ^ ((p - 1) / 3) mod p = 1).
  { rewrite <- Z.mod_pow_l, <- Hc, Z.mod_pow_l, <- Z.pow_mul_r by (vm_compute; discriminate).
    replace (3 * ((p - 1) / 3)) with (p - 1) by (vm_compute; reflexivity).
    exact F. }
  rewrite <- Zpow_mod_correct in E by discriminate.
  vm_compute in E. discriminate.
Qed.

Lemma reduced_inv (P : ECPoint.t) :
  reduced P = true ->
  0 <= ECPoint.x P < ECPoint.p_mod P /\ 0 <= ECPoint.y P < ECPoint.p_mod P.
Proof.
  unfold reduced. rewrite !andb_true_iff, !Z.leb_le, !Z.ltb_lt. lia.
Qed.

Lemma reduced_intro (P : ECPoint.t) :
  0 <= ECPoint.x P < ECPoint.p_mod P -> 0 <= ECPoint.y P < ECPoint.p_mod P ->
  reduced P = true.
Proof.
  unfold reduced. rewrite !andb_true_iff, !Z.leb_le, !Z.ltb_lt. lia.
Qed.

Lemma reduced_infinity : reduced ECPoint.infinity = true.
Proof. reflexivity. Qed.

(** [double] on a valid point with reduced coordinates. *)
Lemma double_total (P : ECPoint.t) :
  on_secp256k1 P = true -> reduced P = true ->
  exists R, ECPoint.double P = Ok R /\
            on_secp256k1 R = true /\ reduced R = true.
Proof.
  intros HP HR.
  destruct (ECPoint.__eq__ P ECPoint.infinity) eqn:Einf.
  { exists ECPoint.infinity. unfold ECPoint.double. rewrite Einf.
    repeat split; reflexivity. }
  destruct (on_secp256k1_inv P HP) as (Ha & Hb & Hp & Hc).
  destruct Hc as [Hc|Hc]; [congruence|].
  destruct (reduced_inv P HR) as [Hx Hy]. rewrite Hp in Hx, Hy.
  assert (Hdx : 0 < (2 * ECPoint.y P) mod SECP256K1_P < SECP256K1_P).
  { pose proof (Z.mod_pos_bound (2 * ECPoint.y P) SECP256K1_P eq_refl) as Bd.
    destruct (Z.eq_dec ((2 * ECPoint.y P) mod SECP256K1_P) 0) as [E|E]; [|lia].
    exfalso. apply Z.mod_divide in E; [|discriminate].
    apply Z.divide_prime_mul in E; [|exact SECP256K1_P_prime].
    destruct E as [E|E].
    - apply Z.divide_pos_le in E; [|lia]. vm_compute in E. apply E. reflexivity.
    - apply Z.mod_divide in E; [|discriminate].
      apply (no_point_of_order_two (ECPoint.x P)).
      unfold curve_eqm, eqm in Hc. change SECP256K1_A with 0 in Hc.
      change SECP256K1_B with 7 in Hc.
      replace (ECPoint.x P * ECPoint.x P * ECPoint.x P + 0 * ECPoint.x P + 7)
        with (ECPoint.x P * ECPoint.x P * ECPoint.x P + 7) in Hc by ring.
      rewrite <- Hc, Zmult_mod, E. reflexivity. }
  destruct (mod_inverse_prime _ _ SECP256K1_P_prime Hdx) as (i & Ei & _).
  pose proof (double_eq P Einf ltac:(rewrite Hp; discriminate)) as D.
  rewrite Hp in D. rewrite Ei in D. cbn [bind] in D. cbv zeta in D.
  eexists. split; [exact D|]. split.
  - eapply double_on_curve; [exact HP|exact D].
  - apply reduced_intro; cbn [ECPoint.x ECPoint.y ECPoint.p_mod];
      apply Z.mod_pos_bound; reflexivity.
Qed.

(** [add] on valid points with reduced coordinates. *)
Lemma add_total (P1 P2 : ECPoint.t) :
  on_secp256k1 P1 = true -> reduced P1 = true ->
  on_secp256k1 P2 = true -> reduced P2 = true ->
  exists R, ECPoint.add P1 P2 = Ok R /\
            on_secp256k1 R = true /\ reduced R = true.
Proof.
  intros HP1 HR1 HP2 HR2.
  destruct (ECPoint.__eq__ P1 ECPoint.infinity) eqn:E1.
  { exists P2. unfold ECPoint.add. rewrite E1. auto. }
  destruct (ECPoint.__eq__ P2 ECPoint.infinity) eqn:E2.
  { exists P1. unfold ECPoint.add. rewrite E1, E2. auto. }
  destruct (Z.eqb_spec (ECPoint.x P1) (ECPoint.x P2)) as [Ex|Ex].
  { unfold ECPoint.add. rewrite E1, E2.
    destruct (Z.eqb_spec (ECPoint.x P1) (ECPoint.x P2)); [|contradiction].
    destruct (ECPoint.y P1 =? ECPoint.y P2).
    - apply double_total; assumption.
    - exists ECPoint.infinity. repeat split; reflexivity. }
  destruct (on_secp256k1_inv P1 HP1) as (Ha & Hb & Hp & _).
  destruct (on_secp256k1_inv P2 HP2) as (_ & _ & Hp2 & _).
  destruct (reduced_inv P1 HR1) as [Hx1 _]. rewrite Hp in Hx1.
  destruct (reduced_inv P2 HR2) as [Hx2 _]. rewrite Hp2 in Hx2.
  assert (Hdx : 0 < (ECPoint.x P2 - ECPoint.x P1) mod SECP256K1_P < SECP256K1_P).
  { pose proof (Z.mod_pos_bound (ECPoint.x P2 - ECPoint.x P1) SECP256K1_P eq_refl).
    destruct (Z.eq_dec ((ECPoint.x P2 - ECPoint.x P1) mod SECP256K1_P) 0)
      as [E|E]; [|lia].
    exfalso. apply Z.mod_divide in E; [|discriminate].
    destruct E as [c E].
    assert (c = 0) by nia. subst c. lia. }
  destruct (mod_inverse_prime _ _ SECP256K1_P_prime Hdx) as (i & Ei & _).
  pose proof (add_eq P1 P2 E1 E2 Ex ltac:(rewrite Hp; discriminate)) as D.
  rewrite Hp in D. rewrite Ei in D. cbn [bind] in D. cbv zeta in D.
  eexists. split; [exact D|]. split.
  - eapply add_on_curve; [exact HP1|exact HP2|exact D].
  - apply reduced_intro; cbn [ECPoint.x ECPoint.y ECPoint.p_mod];
      apply Z.mod_pos_bound; reflexivity.
Qed.

Lemma multiply_temp_total (x : Z) (temp p : ECPoint.t) :
  on_secp256k1 temp = true -> reduced temp = true ->
  on_secp256k1 p = true -> reduced p = true ->
  exists R, ECPoint.multiply_temp x temp p = Ok R /\
            on_secp256k1 R = true /\ reduced R = true.
Proof.
  intros Ht Rt Hp Rp. unfold ECPoint.multiply_temp.
  destruct (negb (x mod 2 =? 0)).
  - destruct (ECPoint.__eq__ temp p).
    + apply double_total; assumption.
    + apply add_total; assumption.
  - exists temp. auto.
Qed.

Lemma multiply_loop_total (n : nat) :
  forall (x : Z) (temp p : ECPoint.t),
    x < Z.of_nat n ->
    on_secp256k1 temp = true -> reduced temp = true ->
    on_secp256k1 p = true -> reduced p = true ->
    exists R, ECPoint.multiply_loop x temp p = Ok R /\
              on_secp256k1 R = true /\ reduced R = true.
Proof.
  induction n as [|n IH]; intros x temp p Hx Ht Rt Hp Rp;
    rewrite multiply_loop_eq; destruct (Z.gtb_spec x 0) as [Hpos|Hneg];
    try lia; try solve [exists temp; auto].
  destruct (multiply_temp_total x temp p Ht Rt Hp Rp) as (temp' & Et & Ht' & Rt').
  destruct (double_total p Hp Rp) as (p' & Ed & Hp' & Rp').
  rewrite Et, Ed. cbn [bind]. apply IH; try assumption.
  pose proof (multiply_x_bounds x ltac:(lia)). lia.
Qed.

(** [multiply] on a valid point with reduced coordinates, for every
    scalar. *)
Lemma multiply_total (P : ECPoint.t) (k : Z) :
  on_secp256k1 P = true -> reduced P = true ->
  exists R, ECPoint.multiply P k = Ok R /\
            on_secp256k1 R = true /\ reduced R = true.
Proof.
  intros HP HR. unfold ECPoint.multiply. rewrite init_on_curve by exact HP.
  cbn [bind]. apply (multiply_loop_total (Z.to_nat k)); try assumption. lia.
Qed.

Lemma add_op_total (P1 P2 : ECPoint.t) :
  on_secp256k1 P1 = true -> reduced P1 = true ->
  on_secp256k1 P2 = true -> reduced P2 = true ->
  exists R, ECPoint.__add__ P1 P2 = Ok R /\
            on_secp256k1 R = true /\ reduced R = true.
Proof.
  intros HP1 HR1 HP2 HR2. unfold ECPoint.__add__.
  destruct (_ && _).
  - apply double_total; assumption.
  - apply add_total; assumption.
Qed.

Lemma G_on_secp256k1 : on_secp256k1 G = true.
Proof. vm_compute. reflexivity. Qed.

Lemma G_reduced : reduced G = true.
Proof. vm_compute. reflexivity. Qed.

(** ** C9: the point operations keep the curve invariant *)

(** C9.  For valid points [P] and [Q] of secp256k1 (on the curve, or the
    [(0, 0)] sentinel) and a scalar [k >= 1], whatever [add(P, Q)],
    [double(P)] or [multiply(P, k)] returns is valid again, and the
    constructor, whose check the direct assignment of coordinates
    bypasses, accepts it unchanged.  When the coordinates of [P] and [Q]
    are reduced modulo [p], as every result of the operations has them,
    the three operations do return. *)
Theorem point_operations_keep_the_curve (P Q : ECPoint.t) (k : Z) :
  on_secp256k1 P = true -> on_secp256k1 Q = true -> 1 <= k ->
  (forall R : ECPoint.t,
     ECPoint.add P Q = Ok R \/ ECPoint.double P = Ok R \/
     ECPoint.multiply P k = Ok R ->
     on_secp256k1 R = true /\
     ECPoint.__init__ (ECPoint.x R) (ECPoint.y R) (ECPoint.a R)
       (ECPoint.b R) (ECPoint.p_mod R) = Ok R) /\
  (reduced P = true -> reduced Q = true ->
   (exists R, ECPoint.add P Q = Ok R /\ reduced R = true) /\
   (exists R, ECPoint.double P = Ok R /\ reduced R = true) /\
   (exists R, ECPoint.multiply P k = Ok R /\ reduced R = true)).
Proof.
  intros HP HQ Hk. split.
  - intros R H.
    assert (HR : on_secp256k1 R = true).
    { destruct H as [H|[H|H]].
      - exact (add_on_curve P Q R HP HQ H).
      - exact (double_on_curve P R HP H).
      - exact (multiply_on_curve P R k HP H). }
    split; [exact HR|]. apply init_on_curve. exact HR.
  - intros RP RQ. repeat split.
    + destruct (add_total P Q HP RP HQ RQ) as (R & E & _ & HR). eauto.
    + destruct (double_total P HP RP) as (R & E & _ & HR). eauto.
    + destruct (multiply_total P k HP RP) as (R & E & _ & HR). eauto.
Qed.

(** The generator point, its double and the scalar 3. *)
Lemma point_operations_keep_the_curve_witness :
  on_secp256k1 G = true /\ on_secp256k1 G2 = true /\ 1 <= 3 /\
  ECPoint.double G = Ok G2 /\
  (forall R : ECPoint.t,
     ECPoint.add G G2 = Ok R \/ ECPoint.double G = Ok R \/
     ECPoint.multiply G 3 = Ok R ->
     on_secp256k1 R = true /\
     ECPoint.__init__ (ECPoint.x R) (ECPoint.y R) (ECPoint.a R)
       (ECPoint.b R) (ECPoint.p_mod R) = Ok R).
Proof.
  split; [vm_compute; reflexivity|].
  split; [vm_compute; reflexivity|].
  split; [lia|].
  split; [vm_compute; reflexivity|].
  apply (point_operations_keep_the_curve G G2 3).
  - vm_compute; reflexivity.
  - vm_compute; reflexivity.
  - lia.
Defined.

(** ** C8: child derivation from a public node *)

Lemma SECP256K1_P_lt_2_256 : SECP256K1_P < 256 ^ Z.of_nat 32.
Proof. reflexivity. Qed.

Lemma int2bytes32_ok (i : Z) :
  0 <= i < SECP256K1_P -> int2bytes32 i = Ok (to_bytes_be 32 i).
Proof.
  intros H. unfold int2bytes32, int2bytes. apply int_to_bytes_ok.
  pose proof SECP256K1_P_lt_2_256. lia.
Qed.

Lemma point_to_publickey_compressed (K : ECPoint.t) :
  ECPoint.p_mod K = SECP256K1_P -> reduced K = true ->
  KeysBTC.point_to_publickey K true =
  Ok ((if ECPoint.y K mod 2 =? 0 then [x02] else [x03]) ++
      to_bytes_be 32 (ECPoint.x K)).
Proof.
  intros Hp HR. destruct (reduced_inv K HR) as [Hx _]. rewrite Hp in Hx.
  unfold KeysBTC.point_to_publickey. rewrite int2bytes32_ok by exact Hx.
  reflexivity.
Qed.

Section PubToChild.
Context {hashlib : Hashlib}.

(** A hardened index is refused before anything else is looked at. *)
Lemma pub_to_child_hardened (parent_pub : BIP32.value) (index : Z) :
  2 ^ 31 <= index ->
  BIP32.pub_to_child parent_pub index =
  Raise (ValueError BIP32.hardened_message).
Proof.
  intros H. unfold BIP32.pub_to_child.
  destruct (Z.geb_spec index (2 ^ 31)); [reflexivity|lia].
Qed.


End PubToChild.


(** ** C2: ECDSA verification *)






(** ** C1: ECDSA signing *)

Section Sign.
Context {hashlib : Hashlib}.

(** What the loop of step h returns passed both tests. *)
Lemma step_h_inv (q : Z) (g : option ECPoint.t) (sha_type : string)
  (fuel : nat) :
  forall (k v : bytes) (kk : Z),
    RFC6979.step_h q g sha_type fuel k v = Some (Ok kk) ->
    1 <= kk < q /\ RFC6979.test_suitable g kk = Ok true.
Proof.
  induction fuel as [|f IH]; intros k v kk H; [discriminate|].
  cbn [RFC6979.step_h] in H.
  destruct (RFC6979.fill q sha_type (RFC6979.fill_fuel q) k v [])
    as [[[v1 t]|e]|]; try discriminate.
  assert (Hretry :
    match hmac_sha k (v1 ++ [x00]) sha_type with
    | Raise e => Some (Raise e)
    | Ok k' =>
        match hmac_sha k' v1 sha_type with
        | Raise e => Some (Raise e)
        | Ok v' => RFC6979.step_h q g sha_type f k' v'
        end
    end = Some (Ok kk) ->
    1 <= kk < q /\ RFC6979.test_suitable g kk = Ok true).
  { destruct (hmac_sha k (v1 ++ [x00]) sha_type) as [k'|e]; [|discriminate].
    destruct (hmac_sha k' v1 sha_type) as [v'|e]; [|discriminate].
    apply IH. }
  destruct ((1 <=? RFC6979.bits2int q t) && (RFC6979.bits2int q t <? q)) eqn:Er;
    [|exact (Hretry H)].
  destruct (RFC6979.test_suitable g (RFC6979.bits2int q t)) as [[|]|e] eqn:Et;
    try discriminate; [|exact (Hretry H)].
  injection H as <-. apply andb_true_iff in Er. destruct Er as [E1 E2].
  apply Z.leb_le in E1. apply Z.ltb_lt in E2. split; [lia|exact Et].
Qed.



End Sign.



(** ** C5: serialization of extended keys *)

(** *** The square root of [get_secp256k1_y] *)

(** Modulo a prime [p = 3 (mod 4)], [z^((p+1)/4)] is a square root of a
    square [z], and a square has only two roots. *)
Lemma sqrt_mod_prime (p y z : Z) :
  Z.prime p -> p mod 4 = 3 -> 0 < y < p -> z mod p = (y * y) mod p ->
  exists y', y' = z ^ ((p + 1) / 4) mod p /\
             (y' * y') mod p = (y * y) mod p /\
             0 <= y' < p /\ (y' = y \/ y' = p - y).
Proof.
  intros Hp H4 Hy Hz. pose proof (Z.prime_ge_2 _ Hp) as Hp2.
  remember ((p + 1) / 4) as e eqn:De.
  assert (He : p + 1 = 4 * e).
  { subst e. pose proof (Z.div_mod (p + 1) 4 ltac:(lia)) as D.
    assert ((p + 1) mod 4 = 0).
    { rewrite Zplus_mod, H4. reflexivity. }
    lia. }
  assert (He0 : 0 <= e) by lia.
  remember (z ^ e mod p) as y' eqn:Dy'.
  assert (Ey' : y' = (y ^ (2 * e)) mod p).
  { subst y'. rewrite <- Z.mod_pow_l, Hz, Z.mod_pow_l.
    replace (y * y) with (y ^ 2) by ring.
    rewrite <- Z.pow_mul_r by lia. reflexivity. }
  assert (Hsq : (y' * y') mod p = (y * y) mod p).
  { rewrite Ey', <- Zmult_mod, <- Z.pow_add_r by lia.
    replace (2 * e + 2 * e) with ((p - 1) + 2) by lia.
    rewrite Z.pow_add_r by lia.
    rewrite Zmult_mod, (Z.fermat_nz p y Hp) by (rewrite Z.mod_small; lia).
    rewrite Z.mul_1_l, Z.mod_mod by lia. f_equal. ring. }
  assert (By' : 0 <= y' < p) by (rewrite Ey'; apply Z.mod_pos_bound; lia).
  exists y'. split; [reflexivity|]. split; [exact Hsq|]. split; [exact By'|].
  apply Z.cong_iff_0 in Hsq.
  replace (y' * y' - y * y) with ((y' - y) * (y' + y)) in Hsq by ring.
  apply Z.mod_divide in Hsq; [|lia].
  apply Z.divide_prime_mul in Hsq; [|exact Hp].
  destruct Hsq as [[c Hd]|[c Hd]].
  - left. assert (c = 0) by nia. subst c. lia.
  - right. assert (c = 1) by nia. subst c. lia.
Qed.

(** For a point of the curve, [get_secp256k1_y] finds [y] or [p - y]. *)
Lemma get_secp256k1_y_spec (x y : Z) :
  0 < y < SECP256K1_P ->
  curve_eqm SECP256K1_P SECP256K1_A SECP256K1_B x y ->
  exists y', ECPoint.get_secp256k1_y x = Ok y' /\
             0 <= y' < SECP256K1_P /\ (y' = y \/ y' = SECP256K1_P - y).
Proof.
  intros Hy Hc.
  assert (Hz : (x ^ 3 + x * SECP256K1_A + SECP256K1_B) mod SECP256K1_P =
               (y * y) mod SECP256K1_P).
  { unfold curve_eqm, eqm in Hc. rewrite Hc. f_equal. ring. }
  destruct (sqrt_mod_prime SECP256K1_P y _ SECP256K1_P_prime eq_refl Hy Hz)
    as (y' & Dy' & Hsq & By' & Hy').
  exists y'. split; [|split; assumption].
  unfold ECPoint.get_secp256k1_y, ECPoint.is_contained, pow_mod.
  rewrite Zpow_mod_correct by discriminate. rewrite <- Dy'.
  destruct (Z.eqb_spec SECP256K1_P 0) as [E|_]; [discriminate E|].
  unfold bind.
  assert (Hcont : (y' ^ 2 - (x ^ 3 + SECP256K1_A * x + SECP256K1_B))
                    mod SECP256K1_P = 0).
  { apply Z.cong_iff_0. replace (y' ^ 2) with (y' * y') by ring.
    rewrite Hsq, <- Hz. f_equal. ring. }
  rewrite Hcont. reflexivity.
Qed.

(** The parity prefix picks [y] again: [p] is odd, so [y] and [p - y]
    differ in parity. *)
Lemma choose_root_odd (p y y' prefix : Z) :
  p mod 2 = 1 -> (y' = y \/ y' = p - y) ->
  prefix = (if y mod 2 =? 0 then 2 else 3) ->
  (if prefix =? 2 then
     if negb (y' mod 2 =? 0) then p - y' else y'
   else
     if y' mod 2 =? 0 then p - y' else y') = y.
Proof.
  intros Hodd Hy' ->.
  pose proof (Z.mod_pos_bound y 2 eq_refl) as B2.
  assert (Hpar : (p - y) mod 2 = 1 - y mod 2).
  { rewrite Zminus_mod, Hodd.
    destruct (Z.eq_dec (y mod 2) 0) as [E|E].
    - rewrite E. reflexivity.
    - replace (y mod 2) with 1 by lia. reflexivity. }
  destruct (Z.eqb_spec (y mod 2) 0) as [E|E].
  - change (2 =? 2) with true. cbv iota.
    destruct Hy' as [->| ->].
    + destruct (Z.eqb_spec (y mod 2) 0); [reflexivity|contradiction].
    + rewrite Hpar, E. change (1 - 0 =? 0) with false. unfold negb. lia.
  - change (3 =? 2) with false. cbv iota.
    destruct Hy' as [->| ->].
    + destruct (Z.eqb_spec (y mod 2) 0); [contradiction|reflexivity].
    + rewrite Hpar. replace (y mod 2) with 1 by lia.
      change (1 - 1 =? 0) with true. cbv iota. lia.
Qed.

(** *** Serialization and back *)

Lemma bytes_eqb_refl (b : bytes) : bytes_eqb b b = true.
Proof. unfold bytes_eqb. destruct (list_eq_dec _ b b); congruence. Qed.

Lemma bytes_eqb_neq (b1 b2 : bytes) : b1 <> b2 -> bytes_eqb b1 b2 = false.
Proof. unfold bytes_eqb. destruct (list_eq_dec _ b1 b2); congruence. Qed.

Lemma base58_roundtrip_82 (b : bytes) :
  List.length b = 82%nat ->
  base58_decode (base58_encode b) (Some 82%nat) = Ok b.
Proof.
  intros H. rewrite <- H. apply base58_roundtrip_at_length.
Qed.

(** A list of known length as the list of its elements. *)
Ltac explode l H :=
  repeat match type of H with
         | List.length l = S _ =>
             destruct l as [|? l]; [discriminate H|];
             cbn [List.length] in H; apply Nat.succ_inj in H
         end;
  match type of H with
  | List.length l = O => destruct l; [clear H|discriminate H]
  end.

Ltac slices :=
  cbn [slice firstn skipn app Nat.sub bind negb ExtendedKey.byte_at nth].

Lemma byte_of_single (l0 : byte) (v : Z) :
  0 <= v < 256 -> [l0] = to_bytes_be 1 v -> byte_to_Z l0 = v.
Proof.
  intros Hv H. apply (f_equal bytes2int) in H.
  rewrite bytes2int_to_bytes_be in H by (change (256 ^ Z.of_nat 1) with 256; lia).
  rewrite <- H. unfold bytes2int. cbn [from_bytes_acc]. lia.
Qed.

Section RoundTrip.
Context {hashlib : Hashlib}.

Lemma sha256_length (data : bytes) : List.length (sha256 data) = 32%nat.
Proof. apply (hashlib_digest_size SHA256). Qed.

Lemma roundtrip_private (self0 : ExtendedKey.t) (k cc fp : bytes)
  (level index : Z) :
  List.length k = 32%nat -> List.length cc = 32%nat ->
  List.length fp = 4%nat -> 0 <= level < 256 -> 0 <= index < 2 ^ 32 ->
  exists s : string,
    ExtendedKey.serialize
      (ExtendedKey.mk (ExtendedKey.KeyBytes k) cc level index fp) = Ok s /\
    ExtendedKey.deserialize self0 s =
    Ok (ExtendedKey.mk (ExtendedKey.KeyBytes k) cc level index fp).
Proof.
  intros Hk Hcc Hfp Hl Hi.
  unfold ExtendedKey.serialize.
  cbn [ExtendedKey.key ExtendedKey.level ExtendedKey.index
       ExtendedKey.chain_code ExtendedKey.fingerprint].
  unfold int2bytes.
  rewrite (int_to_bytes_ok level 1) by (change (256 ^ Z.of_nat 1) with 256; lia).
  rewrite (int_to_bytes_ok index 4)
    by (change (256 ^ Z.of_nat 4) with (2 ^ 32); lia).
  cbn [bind].
  remember (to_bytes_be 1 level) as lb eqn:Elb.
  assert (Hlb : List.length lb = 1%nat) by (subst lb; apply to_bytes_be_length).
  remember (to_bytes_be 4 index) as ib eqn:Eib.
  assert (Hib : List.length ib = 4%nat) by (subst ib; apply to_bytes_be_length).
  explode lb Hlb. explode ib Hib. explode fp Hfp. explode cc Hcc. explode k Hk.
  unfold MAINNET_PRIVATE. cbn [app].
  match goal with
  | |- context [sha256 (sha256 ?ser)] =>
      remember (sha256 (sha256 ser)) as h eqn:Eh;
      assert (Hh : List.length h = 32%nat) by (subst h; apply sha256_length)
  end.
  explode h Hh. slices.
  eexists. split; [reflexivity|].
  unfold ExtendedKey.deserialize.
  rewrite base58_roundtrip_82 by reflexivity.
  slices. rewrite <- Eh. slices. rewrite bytes_eqb_refl. slices.
  unfold MAINNET_PRIVATE. rewrite bytes_eqb_refl.
  unfold ExtendedKey.byte_at. cbn [nth].
  rewrite (byte_of_single _ level Hl Elb).
  rewrite Eib.
  rewrite bytes2int_to_bytes_be by (change (256 ^ Z.of_nat 4) with (2 ^ 32); lia).
  reflexivity.
Qed.

Lemma on_curve_y_nonzero (K : ECPoint.t) :
  on_secp256k1 K = true -> reduced K = true ->
  ECPoint.__eq__ K ECPoint.infinity = false ->
  0 < ECPoint.y K < SECP256K1_P /\
  curve_eqm SECP256K1_P SECP256K1_A SECP256K1_B (ECPoint.x K) (ECPoint.y K).
Proof.
  intros HK RK Einf.
  destruct (on_secp256k1_inv K HK) as (_ & _ & Hp & Hc).
  destruct Hc as [Hc|Hc]; [congruence|].
  destruct (reduced_inv K RK) as [_ Hy]. rewrite Hp in Hy.
  split; [|exact Hc].
  destruct (Z.eq_dec (ECPoint.y K) 0) as [E|E]; [exfalso|lia].
  apply (no_point_of_order_two (ECPoint.x K)).
  unfold curve_eqm, eqm in Hc. rewrite E in Hc.
  rewrite <- (Z.mod_0_l SECP256K1_P) by discriminate.
  change (0 mod SECP256K1_P) with ((0 * 0) mod SECP256K1_P). rewrite Hc.
  f_equal. unfold SECP256K1_A, SECP256K1_B. ring.
Qed.

Lemma roundtrip_public (self0 : ExtendedKey.t) (K : ECPoint.t) (cc fp : bytes)
  (level index : Z) :
  on_secp256k1 K = true -> reduced K = true ->
  ECPoint.__eq__ K ECPoint.infinity = false ->
  List.length cc = 32%nat ->
  List.length fp = 4%nat -> 0 <= level < 256 -> 0 <= index < 2 ^ 32 ->
  exists s : string,
    ExtendedKey.serialize
      (ExtendedKey.mk (ExtendedKey.KeyPoint K) cc level index fp) = Ok s /\
    ExtendedKey.deserialize self0 s =
    Ok (ExtendedKey.mk (ExtendedKey.KeyPoint K) cc level index fp).
Proof.
  intros HK RK Einf Hcc Hfp Hl Hi.
  destruct (on_curve_y_nonzero K HK RK Einf) as [Hy Hc].
  destruct (on_secp256k1_inv K HK) as (Ha & Hb & Hp & _).
  destruct (reduced_inv K RK) as [Hx _]. rewrite Hp in Hx.
  destruct (get_secp256k1_y_spec _ _ Hy Hc) as (y' & Ey' & By' & Hy').
  pose proof (init_on_curve K HK) as Einit. rewrite Ha, Hb, Hp in Einit.
  assert (Hroot : forall pb : byte,
            [pb] = (if ECPoint.y K mod 2 =? 0 then [x02] else [x03]) ->
            (if byte_to_Z pb =? 2 then
               if negb (y' mod 2 =? 0) then SECP256K1_P - y' else y'
             else
               if y' mod 2 =? 0 then SECP256K1_P - y' else y') = ECPoint.y K).
  { intros pb Epb. apply choose_root_odd; [reflexivity|exact Hy'|].
    destruct (ECPoint.y K mod 2 =? 0); injection Epb as ->; reflexivity. }
  unfold ExtendedKey.serialize.
  cbn [ExtendedKey.key ExtendedKey.level ExtendedKey.index
       ExtendedKey.chain_code ExtendedKey.fingerprint].
  unfold int2bytes.
  rewrite (int_to_bytes_ok level 1) by (change (256 ^ Z.of_nat 1) with 256; lia).
  rewrite (int_to_bytes_ok index 4)
    by (change (256 ^ Z.of_nat 4) with (2 ^ 32); lia).
  rewrite (point_to_publickey_compressed K Hp RK).
  cbn [bind].
  remember (to_bytes_be 1 level) as lb eqn:Elb.
  assert (Hlb : List.length lb = 1%nat) by (subst lb; apply to_bytes_be_length).
  remember (to_bytes_be 4 index) as ib eqn:Eib.
  assert (Hib : List.length ib = 4%nat) by (subst ib; apply to_bytes_be_length).
  remember (to_bytes_be 32 (ECPoint.x K)) as xb eqn:Exb.
  assert (Hxb : List.length xb = 32%nat) by (subst xb; apply to_bytes_be_length).
  remember (if ECPoint.y K mod 2 =? 0 then [x02] else [x03]) as pre eqn:Epre.
  assert (Hpre : List.length pre = 1%nat)
    by (subst pre; destruct (ECPoint.y K mod 2 =? 0); reflexivity).
  explode lb Hlb. explode ib Hib. explode fp Hfp. explode cc Hcc.
  explode xb Hxb. explode pre Hpre.
  unfold MAINNET_PUBLIC. cbn [app].
  match goal with
  | |- context [sha256 (sha256 ?ser)] =>
      remember (sha256 (sha256 ser)) as h eqn:Eh;
      assert (Hh : List.length h = 32%nat) by (subst h; apply sha256_length)
  end.
  explode h Hh. slices.
  eexists. split; [reflexivity|].
  unfold ExtendedKey.deserialize.
  rewrite base58_roundtrip_82 by reflexivity.
  slices. rewrite <- Eh. slices. rewrite bytes_eqb_refl. slices.
  unfold MAINNET_PRIVATE, MAINNET_PUBLIC.
  rewrite (bytes_eqb_neq [x04; x88; xb2; x1e] [x04; x88; xad; xe4])
    by discriminate.
  rewrite bytes_eqb_refl.
  unfold ExtendedKey.byte_at. cbn [nth].
  rewrite (byte_of_single _ level Hl Elb).
  rewrite Eib, Exb.
  rewrite !bytes2int_to_bytes_be
    by (first [change (256 ^ Z.of_nat 4) with (2 ^ 32); lia
              | pose proof SECP256K1_P_lt_2_256; lia]).
  rewrite Ey'. unfold bind.
  rewrite (Hroot _ eq_refl), Einit. reflexivity.
Qed.

End RoundTrip.

(** C5. For every well-formed extended key node -- a private node with a
    32-byte key, or a public node whose key is a point of secp256k1 with
    reduced coordinates other than (0, 0) -- with a 32-byte chain code, a
    4-byte fingerprint, a depth in 0..255 and an index in 0..2^32-1,
    [serialize] returns a string and [deserialize] of that string, on any
    receiving object, rebuilds the node field by field: key, chain code,
    depth, index and fingerprint.  For a public node the y coordinate is
    recovered from x and the 02/03 parity prefix. *)
Theorem serialize_deserialize_roundtrip (hashlib : Hashlib)
  (self0 node : ExtendedKey.t) :
  well_formed node = true ->
  exists s : string,
    ExtendedKey.serialize node = Ok s /\
    ExtendedKey.deserialize self0 s = Ok node.
Proof.
  destruct node as [key cc level index fp].
  unfold well_formed.
  cbn [ExtendedKey.key ExtendedKey.level ExtendedKey.index
       ExtendedKey.chain_code ExtendedKey.fingerprint].
  rewrite !andb_true_iff.
  intros [[[[[[Hkey Hcc] Hl0] Hl1] Hi0] Hi1] Hfp].
  apply Nat.eqb_eq in Hcc, Hfp.
  apply Z.leb_le in Hl0, Hi0. apply Z.ltb_lt in Hl1, Hi1.
  destruct key as [k | K |].
  - apply Nat.eqb_eq in Hkey.
    apply roundtrip_private; auto.
  - rewrite !andb_true_iff in Hkey. destruct Hkey as [[HK RK] Hinf].
    apply negb_true_iff in Hinf.
    apply roundtrip_public; auto.
  - discriminate.
Qed.

Lemma serialize_deserialize_roundtrip_witness :
  let hashlib := fixed_hashlib x01 in
  let self0 :=
    ExtendedKey.mk ExtendedKey.KeyOther [] 0 0 [] in
  let prv :=
    ExtendedKey.mk (ExtendedKey.KeyBytes (repeat x01 32)) (repeat x02 32)
      255 (2 ^ 31 + 5) [x0a; x0b; x0c; x0d] in
  let pub :=
    ExtendedKey.mk (ExtendedKey.KeyPoint G) (repeat x02 32)
      3 7 [x0a; x0b; x0c; x0d] in
  (well_formed prv = true /\
   exists s : string,
     ExtendedKey.serialize prv = Ok s /\
     ExtendedKey.deserialize self0 s = Ok prv) /\
  (well_formed pub = true /\
   exists s : string,
     ExtendedKey.serialize pub = Ok s /\
     ExtendedKey.deserialize self0 s = Ok pub).
Proof.
  intros hashlib self0 prv pub.
  split; (split; [vm_compute; reflexivity|]).
  - apply (serialize_deserialize_roundtrip hashlib self0 prv).
    vm_compute; reflexivity.
  - apply (serialize_deserialize_roundtrip hashlib self0 pub).
    vm_compute; reflexivity.
Defined.

(* ================================================================== *)
(** * Further properties of the code *)

(** ** btc/utils.py *)

(** X1.  [int2bytes(i, n)] returns exactly when [0 <= i < 256^n]: then
    the result has [n] bytes and [bytes2int] reads [i] back from it;
    otherwise it raises [OverflowError].  And [int2bytes] at the length
    of [b] gives [b] back from [bytes2int(b)]. *)
Theorem int2bytes_fixed_length :
  (forall (i : Z) (n : nat),
     if (0 <=? i) && (i <? 256 ^ Z.of_nat n)
     then exists b : bytes,
            int2bytes i (Some n) = Ok b /\
            List.length b = n /\ bytes2int b = i
     else int2bytes i (Some n) = Raise OverflowError) /\
  (forall b : bytes, int2bytes (bytes2int b) (Some (List.length b)) = Ok b).
Proof.
  split.
  - intros i n. cbn [int2bytes]. unfold int_to_bytes.
    destruct (Z.leb_spec 0 i) as [H0|H0];
      destruct (Z.ltb_spec i (256 ^ Z.of_nat n)) as [H1|H1];
      cbn [andb].
    + destruct (Z.ltb_spec i 0); [lia|].
      destruct (Z.leb_spec (256 ^ Z.of_nat n) i); [lia|]. cbn [orb].
      exists (to_bytes_be n i). split; [reflexivity|].
      split; [apply to_bytes_be_length|].
      apply bytes2int_to_bytes_be. lia.
    + destruct (Z.ltb_spec i 0); [lia|].
      destruct (Z.leb_spec (256 ^ Z.of_nat n) i); [|lia]. reflexivity.
    + destruct (Z.ltb_spec i 0); [|lia]. reflexivity.
    + destruct (Z.ltb_spec i 0); [|lia]. reflexivity.
  - intros b. apply int_to_bytes_bytes2int.
Qed.

(** X2.  Without a length, [int2bytes] gives the shortest big-endian
    form: from the number of [b] it returns [b] without its leading zero
    bytes (the empty string for 0).  A negative number raises
    [OverflowError]. *)
Theorem int2bytes_least_length :
  (forall b : bytes, int2bytes (bytes2int b) None = Ok (lstrip_zeros b)) /\
  (forall i : Z, i < 0 -> int2bytes i None = Raise OverflowError).
Proof.
  split.
  - intros b. cbn [int2bytes]. rewrite least_length_lstrip.
    destruct (lstrip_zeros_split b) as [k Hk].
    rewrite Hk at 1. rewrite bytes2int_zeros. apply int_to_bytes_bytes2int.
  - intros i Hi. cbn [int2bytes]. unfold int_to_bytes.
    destruct (Z.ltb_spec i 0); [reflexivity|lia].
Qed.





(** *** Base58 strings *)

Lemma str_index_get (c : ascii) (s : string) (i : Z) :
  str_index c s = Some i ->
  0 <= i < Z.of_nat (String.length s) /\ String.get (Z.to_nat i) s = Some c.
Proof.
  revert i. induction s as [|d s IH]; intros i; cbn [str_index]; [discriminate|].
  destruct (Ascii.eqb_spec c d) as [->|Hne].
  - intros [= <-]. cbn. split; [lia|reflexivity].
  - destruct (str_index c s) as [j|]; [|discriminate].
    intros [= <-]. destruct (IH j eq_refl) as [Hj Hg].
    cbn [String.length]. split; [lia|].
    replace (Z.to_nat (j + 1)) with (S (Z.to_nat j)) by lia.
    cbn [String.get]. exact Hg.
Qed.

Lemma alphabet_at_str_index (c : ascii) (i : Z) :
  str_index c BASE58_ALPHABET = Some i ->
  0 <= i < BASE58_COUNT /\ alphabet_at i = c.
Proof.
  intros H. destruct (str_index_get _ _ _ H) as [Hi Hg].
  split; [exact Hi|]. unfold alphabet_at. rewrite Hg. reflexivity.
Qed.

Lemma base58_string_app (s1 s2 : string) :
  base58_string (s1 ++ s2) = base58_string s1 && base58_string s2.
Proof.
  induction s1 as [|c s1 IH]; cbn [String.append base58_string]; [reflexivity|].
  destruct (str_index c BASE58_ALPHABET); [exact IH|reflexivity].
Qed.

Lemma base58_string_rev (s : string) :
  base58_string (string_rev s) = base58_string s.
Proof.
  induction s as [|c s IH]; [reflexivity|].
  rewrite string_rev_cons, base58_string_app, IH. cbn [base58_string].
  destruct (str_index c BASE58_ALPHABET); [|apply andb_false_r].
  rewrite andb_true_r. reflexivity.
Qed.

Lemma base58_decode_loop_digits (t : string) :
  base58_string t = true ->
  forall d m : Z, base58_decode_loop t d m = Ok (d + m * base58_digits t).
Proof.
  induction t as [|c t IH]; cbn [base58_string base58_decode_loop base58_digits];
    intros H d m.
  - f_equal. lia.
  - destruct (str_index c BASE58_ALPHABET) as [i|]; [|discriminate].
    rewrite (IH H). f_equal. ring.
Qed.

Lemma base58_decode_loop_bad (t : string) :
  base58_string t = false ->
  forall d m : Z,
    base58_decode_loop t d m = Raise (ValueError "substring not found").
Proof.
  induction t as [|c t IH]; cbn [base58_string base58_decode_loop];
    intros H d m; [discriminate|].
  destruct (str_index c BASE58_ALPHABET) as [i|]; [|reflexivity].
  apply IH, H.
Qed.

Lemma base58_digits_nonneg (t : string) : 0 <= base58_digits t.
Proof.
  induction t as [|c t IH]; cbn [base58_digits]; [lia|].
  change BASE58_COUNT with 58.
  destruct (str_index c BASE58_ALPHABET) as [i|] eqn:E; [|lia].
  destruct (alphabet_at_str_index _ _ E). lia.
Qed.

(** X5.  [base58_decode] reads a string over the alphabet as a number in
    base 58 and hands it to [int2bytes]; a character outside the
    alphabet, anywhere in the string, makes it raise the [ValueError] of
    [str.index], whatever the length asked for. *)
Theorem base58_decode_alphabet (s : string) (length : option nat) :
  if base58_string s
  then 0 <= base58_digits (string_rev s) /\
       base58_decode s length =
       int2bytes (base58_digits (string_rev s)) length
  else base58_decode s length = Raise (ValueError "substring not found").
Proof.
  destruct (base58_string s) eqn:E; unfold base58_decode;
    rewrite <- base58_string_rev in E.
  - split; [apply base58_digits_nonneg|].
    rewrite (base58_decode_loop_digits _ E). cbn [bind]. f_equal. lia.
  - rewrite (base58_decode_loop_bad _ E). reflexivity.
Qed.

(** *** Encoding a decoded string *)

Lemma base58_encode_num_0 (acc : string) : base58_encode_num 0 acc = acc.
Proof. unfold base58_encode_num. rewrite base58_encode_loop_eq. reflexivity. Qed.

Lemma base58_encode_num_step (num : Z) (acc : string) :
  0 < num ->
  base58_encode_num num acc =
  base58_encode_num (num / BASE58_COUNT)
    (String (alphabet_at (num mod BASE58_COUNT)) acc).
Proof.
  intros Hn. unfold base58_encode_num at 1. rewrite base58_encode_loop_eq.
  destruct (Z.ltb_spec num BASE58_COUNT) as [Hlt|Hge].
  - rewrite Z.div_small, Z.mod_small by lia.
    rewrite base58_encode_num_0.
    destruct (Z.eqb_spec num 0); [lia|reflexivity].
  - reflexivity.
Qed.

Lemma lstrip_1_app (u w : string) :
  lstrip_1 (u ++ w) =
  match lstrip_1 u with
  | EmptyString => lstrip_1 w
  | _ => (lstrip_1 u ++ w)%string
  end.
Proof.
  induction u as [|c u IH]; cbn [String.append lstrip_1].
  - destruct (lstrip_1 w); reflexivity.
  - destruct (Ascii.eqb c "1"); [exact IH|reflexivity].
Qed.

Lemma string_rev_app (s1 s2 : string) :
  string_rev (s1 ++ s2) = (string_rev s2 ++ string_rev s1)%string.
Proof.
  induction s1 as [|c s1 IH]; cbn [String.append].
  - change (string_rev EmptyString) with EmptyString.
    induction (string_rev s2) as [|d r IHr]; cbn; [reflexivity|].
    rewrite <- IHr. reflexivity.
  - rewrite !string_rev_cons, IH, string_app_assoc. reflexivity.
Qed.

Lemma string_rev_involutive (s : string) : string_rev (string_rev s) = s.
Proof.
  induction s as [|c s IH]; [reflexivity|].
  rewrite string_rev_cons, string_rev_app, IH. reflexivity.
Qed.

Lemma lstrip_1_single (c : ascii) :
  lstrip_1 (String c EmptyString) =
  if Ascii.eqb c "1" then EmptyString else String c EmptyString.
Proof. cbn [lstrip_1]. destruct (Ascii.eqb c "1"); reflexivity. Qed.

(** A string of ["1"]s only stands for 0, and only such a string does. *)
Lemma all_ones_digits (t : string) :
  base58_string t = true ->
  (lstrip_1 (string_rev t) = EmptyString <-> base58_digits t = 0).
Proof.
  induction t as [|c t IH]; intros H; [split; reflexivity|].
  cbn [base58_string] in H. cbn [base58_digits].
  destruct (str_index c BASE58_ALPHABET) as [i|] eqn:Ei; [|discriminate].
  destruct (alphabet_at_str_index _ _ Ei) as [Ri Ec].
  pose proof (base58_digits_nonneg t) as HD. specialize (IH H).
  change BASE58_COUNT with 58 in *.
  rewrite string_rev_cons, lstrip_1_app, lstrip_1_single.
  split.
  - destruct (lstrip_1 (string_rev t)); [|discriminate].
    destruct (Ascii.eqb_spec c "1") as [->|Hc]; [|discriminate].
    intros _. assert (i = 0) by (vm_compute in Ei; congruence).
    assert (base58_digits t = 0) by (apply IH; reflexivity). lia.
  - intros Hz. assert (Hi : i = 0) by lia.
    assert (HD0 : base58_digits t = 0) by lia.
    apply IH in HD0. rewrite HD0. subst i. rewrite <- Ec. reflexivity.
Qed.

Lemma base58_encode_num_digits (t : string) :
  base58_string t = true ->
  forall acc : string,
    base58_encode_num (base58_digits t) acc =
    (lstrip_1 (string_rev t) ++ acc)%string.
Proof.
  induction t as [|c t IH]; intros H acc.
  - cbn [base58_digits]. rewrite base58_encode_num_0. reflexivity.
  - pose proof (all_ones_digits _ H) as Hall.
    cbn [base58_string] in H. cbn [base58_digits] in *.
    destruct (str_index c BASE58_ALPHABET) as [i|] eqn:Ei; [|discriminate].
    destruct (alphabet_at_str_index _ _ Ei) as [Ri Ec].
    pose proof (base58_digits_nonneg t) as HD.
    pose proof (all_ones_digits _ H) as Hall'.
    specialize (IH H). change BASE58_COUNT with 58 in *.
    destruct (Z.eq_dec (i + 58 * base58_digits t) 0) as [Hz|Hnz].
    + rewrite Hz, base58_encode_num_0.
      apply Hall in Hz. rewrite Hz. reflexivity.
    + rewrite base58_encode_num_step by lia.
      change BASE58_COUNT with 58.
      replace (i + 58 * base58_digits t) with (i + base58_digits t * 58)
        by ring.
      rewrite Z.div_add, Z.mod_add, Z.div_small, Z.mod_small by lia.
      cbn [Z.add]. rewrite Ec, IH.
      rewrite string_rev_cons, lstrip_1_app, lstrip_1_single.
      destruct (lstrip_1 (string_rev t)) eqn:El.
      * assert (HD0 : base58_digits t = 0) by (apply Hall'; reflexivity).
        destruct (Ascii.eqb_spec c "1") as [->|Hc]; [|reflexivity].
        exfalso. assert (i = 0) by (vm_compute in Ei; congruence). lia.
      * rewrite string_app_assoc. reflexivity.
Qed.

Lemma int2bytes_none_bytes2int (b : bytes) :
  int2bytes (bytes2int b) None = Ok (lstrip_zeros b).
Proof.
  cbn [int2bytes]. rewrite least_length_lstrip.
  destruct (lstrip_zeros_split b) as [k Hk].
  rewrite Hk at 1. rewrite bytes2int_zeros. apply int_to_bytes_bytes2int.
Qed.

Lemma bytes2int_lstrip_zeros (b : bytes) :
  bytes2int (lstrip_zeros b) = bytes2int b.
Proof.
  destruct (lstrip_zeros_split b) as [k Hk].
  rewrite Hk at 2. rewrite bytes2int_zeros. reflexivity.
Qed.

(** X6.  The other way round: a string over the alphabet decodes, at
    the least length, to bytes whose encoding is the string without its
    leading ["1"]s -- the digit 0, which [base58_encode] never writes in
    front. *)
Theorem base58_encode_decode (s : string) :
  base58_string s = true ->
  exists b : bytes,
    base58_decode s None = Ok b /\ base58_encode b = lstrip_1 s.
Proof.
  intros H. pose proof H as Hr. rewrite <- base58_string_rev in Hr.
  set (v := base58_digits (string_rev s)).
  assert (Hv : 0 <= v) by apply base58_digits_nonneg.
  set (b0 := to_bytes_be (Z.to_nat v) v).
  assert (Hb0 : bytes2int b0 = v).
  { apply bytes2int_to_bytes_be. split; [exact Hv|].
    rewrite Z2Nat.id by exact Hv. apply Z.pow_gt_lin_r; lia. }
  exists (lstrip_zeros b0). split.
  - unfold base58_decode. rewrite (base58_decode_loop_digits _ Hr).
    cbn [bind]. fold v. replace (0 + 1 * v) with (bytes2int b0) by lia.
    apply int2bytes_none_bytes2int.
  - change (base58_encode (lstrip_zeros b0))
      with (base58_encode_num (bytes2int (lstrip_zeros b0)) EmptyString).
    rewrite bytes2int_lstrip_zeros, Hb0. unfold v.
    rewrite (base58_encode_num_digits _ Hr), string_rev_involutive.
    clear. induction (lstrip_1 s) as [|c r IH]; cbn; [reflexivity|].
    rewrite IH. reflexivity.
Qed.

Lemma base58_encode_decode_witness :
  exists b : bytes,
    base58_decode "11Ab" None = Ok b /\ base58_encode b = "Ab"%string.
Proof. apply (base58_encode_decode "11Ab"). reflexivity. Defined.

(** *** Signatures in DER *)

Lemma getitem_app_r (a b : bytes) (i n : nat) :
  n = (List.length a + i)%nat -> getitem (a ++ b) n = getitem b i.
Proof.
  intros ->. unfold getitem. rewrite nth_error_app2 by lia.
  replace (List.length a + i - List.length a)%nat with i by lia. reflexivity.
Qed.

Lemma getitem_head (x : byte) (b : bytes) : getitem (x :: b) 0 = inr (byte_to_Z x).
Proof. reflexivity. Qed.

Lemma slice_app_mid (a b c : bytes) (lo hi : nat) :
  lo = List.length a -> hi = (List.length a + List.length b)%nat ->
  slice lo hi (a ++ b ++ c) = b.
Proof.
  intros -> ->. unfold slice. rewrite skipn_app, skipn_all, Nat.sub_diag.
  cbn [skipn app].
  replace (List.length a + List.length b - List.length a)%nat
    with (List.length b) by lia.
  rewrite firstn_app, firstn_all, Nat.sub_diag. cbn [firstn].
  apply app_nil_r.
Qed.

Lemma int2bytes_1 (n : Z) :
  0 <= n < 256 -> int2bytes n (Some 1%nat) = Ok [byte_of_Z n].
Proof.
  intros Hn. cbn [int2bytes].
  rewrite int_to_bytes_ok by (change (256 ^ Z.of_nat 1) with 256; lia).
  cbn [to_bytes_be app]. rewrite Z.mod_small by lia. reflexivity.
Qed.

Lemma der_positive_length (b r : bytes) :
  der_positive b = inr r ->
  (List.length b <= List.length r <= S (List.length b))%nat /\
  (1 <= List.length r)%nat.
Proof.
  destruct b as [|b0 b]; [discriminate|].
  unfold der_positive. rewrite getitem_head. cbn [der_bind].
  destruct (127 <? byte_to_Z b0); intros [= <-]; cbn [List.length app]; lia.
Qed.

(** What the two functions do in a row, before the leading zeros are
    looked at: the two integers of the DER come back as they were
    written. *)
Lemma der_to_signature_of_der (left right r s : bytes) :
  der_positive left = inr r -> der_positive right = inr s ->
  (List.length r + List.length s <= 251)%nat ->
  exists der : bytes,
    signature_to_der left right = inr der /\
    der_to_signature der =
    der_bind (der_strip r) (fun r' =>
    der_bind (der_strip s) (fun s' => inr (r', s'))).
Proof.
  intros Hr Hs Hlen.
  unfold signature_to_der. rewrite Hr, Hs. cbn [der_bind].
  rewrite !int2bytes_1 by lia. cbn [der_lift der_bind].
  cbv zeta.
  match goal with
  | |- context [int2bytes (Z.of_nat (List.length ?l)) _] =>
      assert (Hl : (List.length l = 4 + List.length r + List.length s)%nat)
  end.
  { cbn [app List.length]. rewrite length_app. cbn [List.length]. lia. }
  rewrite int2bytes_1 by lia. cbn [der_lift der_bind].
  eexists. split; [reflexivity|].
  set (rsl := byte_of_Z _). cbn [app].
  unfold der_to_signature.
  change (getitem (x30 :: rsl :: x02 :: byte_of_Z (Z.of_nat (List.length r)) :: ?t) 3)
    with (inr (A := der_exn)
            (byte_to_Z (byte_of_Z (Z.of_nat (List.length r))))).
  cbn [der_bind]. rewrite byte_to_of_Z by lia. rewrite Nat2Z.id.
  set (pre := [x30; rsl; x02; byte_of_Z (Z.of_nat (List.length r))]).
  set (sl := byte_of_Z (Z.of_nat (List.length s))).
  change (x30 :: rsl :: x02 :: byte_of_Z (Z.of_nat (List.length r))
            :: r ++ x02 :: sl :: s)
    with (pre ++ r ++ [x02; sl] ++ s).
  replace (pre ++ r ++ [x02; sl] ++ s)
    with ((pre ++ r ++ [x02]) ++ sl :: s) at 1
    by (rewrite <- !app_assoc; reflexivity).
  rewrite (getitem_app_r _ _ 0)
    by (rewrite !length_app; unfold pre; cbn [List.length]; lia).
  rewrite getitem_head. cbn [der_bind].
  change (byte_to_Z sl)
    with (byte_to_Z (byte_of_Z (Z.of_nat (List.length s)))).
  rewrite byte_to_of_Z by lia. rewrite Nat2Z.id.
  rewrite (slice_app_mid pre r) by (unfold pre; cbn [List.length]; lia).
  replace (pre ++ r ++ [x02; sl] ++ s)
    with ((pre ++ r ++ [x02; sl]) ++ s ++ [])
    by (rewrite app_nil_r, <- !app_assoc; reflexivity).
  rewrite (slice_app_mid _ s)
    by (rewrite !length_app; unfold pre; cbn [List.length]; lia).
  reflexivity.
Qed.

Lemma der_strip_positive (b r : bytes) :
  der_safe b = true -> der_positive b = inr r -> der_strip r = inr b.
Proof.
  destruct b as [|b0 b]; [discriminate|].
  unfold der_positive. rewrite getitem_head. cbn [der_bind der_safe].
  pose proof (byte_to_Z_range b0) as R0.
  destruct (Z.ltb_spec 127 (byte_to_Z b0)) as [Hhi|Hlo].
  - intros _ [= <-]. unfold der_strip. cbn [app]. rewrite getitem_head.
    cbn [der_bind]. change (byte_to_Z x00 =? 0) with true. cbv iota.
    change (getitem (x00 :: b0 :: b) 1) with (inr (A := der_exn) (byte_to_Z b0)).
    cbn [der_bind]. destruct (Z.ltb_spec 127 (byte_to_Z b0)); [reflexivity|lia].
  - intros Hs [= <-]. unfold der_strip. rewrite getitem_head. cbn [der_bind].
    destruct (byte_to_Z b0 =? 0); [|reflexivity].
    destruct b as [|b1 b]; [discriminate|].
    change (getitem (b0 :: b1 :: b) 1) with (inr (A := der_exn) (byte_to_Z b1)).
    cbn [der_bind]. apply Z.leb_le in Hs.
    destruct (Z.ltb_spec 127 (byte_to_Z b1)); [lia|reflexivity].
Qed.

(** X7.  A pair of byte strings that are not empty and do not start
    with a zero byte followed by nothing or by a byte over 127, short
    enough for the one-byte lengths, comes back from
    [der_to_signature(signature_to_der(left, right))]. *)
Theorem der_roundtrip (left right : bytes) :
  der_safe left = true -> der_safe right = true ->
  (List.length left + List.length right <= 249)%nat ->
  exists der : bytes,
    signature_to_der left right = inr der /\
    der_to_signature der = inr (left, right).
Proof.
  intros Hl Hr Hlen.
  destruct (der_positive left) as [e|r] eqn:Er.
  { destruct left; discriminate. }
  destruct (der_positive right) as [e|s] eqn:Es.
  { destruct right; discriminate. }
  destruct (der_positive_length _ _ Er) as [Lr _].
  destruct (der_positive_length _ _ Es) as [Ls _].
  destruct (der_to_signature_of_der left right r s Er Es ltac:(lia))
    as (der & E1 & E2).
  exists der. split; [exact E1|]. rewrite E2.
  rewrite (der_strip_positive _ _ Hl Er), (der_strip_positive _ _ Hr Es).
  reflexivity.
Qed.

Lemma der_roundtrip_witness :
  exists der : bytes,
    signature_to_der [x00; x7f; x01] [x80; x00] = inr der /\
    der_to_signature der = inr ([x00; x7f; x01], [x80; x00]).
Proof.
  apply (der_roundtrip [x00; x7f; x01] [x80; x00]);
    [reflexivity|reflexivity|cbn; lia].
Defined.

(** X8.  The round trip is lost on a string that starts with a zero
    byte followed by a byte over 127, as one in 512 of the 32-byte
    numbers of a signature do: [signature_to_der] writes it as it is and
    [der_to_signature] takes its zero byte for the sign padding and
    drops it.  On the single zero byte [der_to_signature] raises
    [IndexError]. *)
Theorem der_drops_leading_zero (b1 : byte) (rest right : bytes) :
  127 < byte_to_Z b1 -> der_safe right = true ->
  (List.length rest + List.length right <= 247)%nat ->
  (exists der : bytes,
     signature_to_der (x00 :: b1 :: rest) right = inr der /\
     der_to_signature der = inr (b1 :: rest, right)) /\
  (exists der : bytes,
     signature_to_der [x00] right = inr der /\
     der_to_signature der = inl IndexError).
Proof.
  intros Hb Hr Hlen.
  destruct (der_positive right) as [e|s] eqn:Es.
  { destruct right; discriminate. }
  destruct (der_positive_length _ _ Es) as [Ls _].
  split.
  - destruct (der_to_signature_of_der (x00 :: b1 :: rest) right
                (x00 :: b1 :: rest) s eq_refl Es
                ltac:(cbn [List.length]; lia)) as (der & E1 & E2).
    exists der. split; [exact E1|]. rewrite E2.
    unfold der_strip at 1. rewrite getitem_head. cbn [der_bind].
    change (byte_to_Z x00 =? 0) with true. cbv iota.
    change (getitem (x00 :: b1 :: rest) 1)
      with (inr (A := der_exn) (byte_to_Z b1)).
    cbn [der_bind]. destruct (Z.ltb_spec 127 (byte_to_Z b1)); [|lia].
    cbn [skipn]. rewrite (der_strip_positive _ _ Hr Es). reflexivity.
  - destruct (der_to_signature_of_der [x00] right [x00] s eq_refl Es
                ltac:(cbn [List.length]; lia)) as (der & E1 & E2).
    exists der. split; [exact E1|]. rewrite E2. reflexivity.
Qed.

Lemma der_drops_leading_zero_witness :
  (exists der : bytes,
     signature_to_der [x00; x80; x01] [x05] = inr der /\
     der_to_signature der = inr ([x80; x01], [x05])) /\
  (exists der : bytes,
     signature_to_der [x00] [x05] = inr der /\
     der_to_signature der = inl IndexError).
Proof.
  apply (der_drops_leading_zero x80 [x01] [x05]);
    [reflexivity|reflexivity|cbn; lia].
Defined.

(** ** btc/keys.py *)

Lemma base58_decode_encode_pad (k : nat) (b : bytes) :
  base58_decode (base58_encode b) (Some (k + List.length b)%nat) =
  Ok (repeat x00 k ++ b).
Proof.
  rewrite base58_decode_encode. cbn [int2bytes].
  pose proof (bytes2int_range b) as Hr.
  rewrite int_to_bytes_ok.
  - rewrite to_bytes_be_pad, to_bytes_be_bytes2int by assumption. reflexivity.
  - split; [lia|]. rewrite Nat2Z.inj_add, Z.pow_add_r by lia.
    assert (1 <= 256 ^ Z.of_nat k) by (apply Z.pow_le_mono_r with (b := 0); lia).
    nia.
Qed.

(** A list that is its own shift behind [x] is made of [x]s. *)
Lemma shifted_fixpoint (x : byte) (n : nat) :
  forall l : bytes,
    List.length l = S n -> [x] ++ firstn n l = l -> l = repeat x (S n).
Proof.
  induction n as [|n IH]; intros l Hl E.
  - destruct l as [|a [|b l]]; try discriminate Hl.
    cbn in E. injection E as <-. reflexivity.
  - destruct l as [|a l]; [discriminate Hl|].
    cbn [app firstn] in E. injection E as <- E.
    injection Hl as Hl. cbn [repeat]. f_equal.
    apply IH; [exact Hl|exact E].
Qed.

Section Keys.
Context {hashlib : Hashlib}.

(** X9.  A private key of 32 bytes comes back from its compressed WIF:
    [privatekey_from_wif(privatekey_to_wif(k, True)) == k]. *)
Theorem wif_roundtrip_compressed (k : bytes) :
  List.length k = 32%nat ->
  KeysBTC.privatekey_from_wif (KeysBTC.privatekey_to_wif k true) = Ok k /\
  KeysBTC.privatekey_from_wif
    (Address.get_private_key_wif (KeysBTC.mk k None None None None) true) =
  Ok k.
Proof.
  intros Hk.
  assert (E : KeysBTC.privatekey_from_wif (KeysBTC.privatekey_to_wif k true)
              = Ok k).
  { unfold KeysBTC.privatekey_from_wif, KeysBTC.privatekey_to_wif. cbv zeta.
    set (c := slice 0 4 (sha256 (sha256 ([x80] ++ k ++ [x01])))).
    assert (Hc : List.length c = 4%nat).
    { unfold c, slice. rewrite length_firstn. cbn [skipn].
      rewrite sha256_length. reflexivity. }
    replace 38%nat with (List.length (([x80] ++ k ++ [x01]) ++ c))
      by (rewrite !length_app, Hk, Hc; reflexivity).
    rewrite base58_roundtrip_at_length. cbv beta iota. apply f_equal.
    rewrite <- !app_assoc.
    apply (slice_app_mid [x80] k ([x01] ++ c)); [reflexivity|].
    rewrite Hk. reflexivity. }
  split; exact E.
Qed.

(** X10.  The uncompressed WIF of a key of 32 bytes is one byte shorter,
    and [privatekey_from_wif] reads at the fixed length of 38 bytes: it
    returns the version byte [80] followed by the first 31 bytes of the
    key, not the key. *)
Theorem wif_uncompressed_shifted (k : bytes) :
  List.length k = 32%nat ->
  KeysBTC.privatekey_from_wif (KeysBTC.privatekey_to_wif k false) =
  Ok ([x80] ++ firstn 31 k) /\
  ([x80] ++ firstn 31 k = k -> k = repeat x80 32).
Proof.
  intros Hk. split.
  - unfold KeysBTC.privatekey_from_wif, KeysBTC.privatekey_to_wif. cbv zeta.
    set (c := slice 0 4 (sha256 (sha256 ([x80] ++ k ++ [])))).
    assert (Hc : List.length c = 4%nat).
    { unfold c, slice. rewrite length_firstn. cbn [skipn].
      rewrite sha256_length. reflexivity. }
    replace 38%nat with (1 + List.length (([x80] ++ k ++ []) ++ c))%nat
      by (rewrite !length_app, Hk, Hc; reflexivity).
    rewrite base58_decode_encode_pad. cbv beta iota. apply f_equal.
    rewrite app_nil_r. cbn [repeat app]. unfold slice.
    cbn [skipn Nat.sub]. change (33 - 1)%nat with 32%nat.
    change (firstn 32 (x80 :: k ++ c)) with (x80 :: firstn 31 (k ++ c)).
    apply f_equal.
    rewrite firstn_app, Hk. change (31 - 32)%nat with 0%nat.
    cbn [firstn]. apply app_nil_r.
  - apply shifted_fixpoint. exact Hk.
Qed.

(** *** Public keys, hashes and addresses *)

Lemma get_public_key_fresh (k : bytes) (pkh : option bytes)
  (addr : option string) (compressed : bool) :
  let self := KeysBTC.mk k None None pkh addr in
  exists (P : ECPoint.t) (pk : bytes),
    ECPoint.__mul__ G (bytes2int k) = Ok P /\
    on_secp256k1 P = true /\ reduced P = true /\
    KeysBTC.point_to_publickey P compressed = Ok pk /\
    pk = (if compressed
          then (if ECPoint.y P mod 2 =? 0 then [x02] else [x03]) ++
               to_bytes_be 32 (ECPoint.x P)
          else [x04] ++ to_bytes_be 32 (ECPoint.x P) ++
               to_bytes_be 32 (ECPoint.y P)) /\
    KeysBTC.get_public_key self compressed =
    (Ok pk, KeysBTC.mk k (Some P) (Some pk) pkh addr).
Proof.
  intros self.
  destruct (multiply_total G (bytes2int k) G_on_secp256k1 G_reduced)
    as (P & EP & HP & RP).
  destruct (on_secp256k1_inv P HP) as (_ & _ & Hp & _).
  destruct (reduced_inv P RP) as [Rx Ry]. rewrite Hp in Rx, Ry.
  eexists P, _. split; [exact EP|]. split; [exact HP|]. split; [exact RP|].
  assert (Epk : KeysBTC.point_to_publickey P compressed =
                Ok (if compressed
                    then (if ECPoint.y P mod 2 =? 0 then [x02] else [x03]) ++
                         to_bytes_be 32 (ECPoint.x P)
                    else [x04] ++ to_bytes_be 32 (ECPoint.x P) ++
                         to_bytes_be 32 (ECPoint.y P))).
  { unfold KeysBTC.point_to_publickey.
    rewrite !int2bytes32_ok by assumption. destruct compressed; reflexivity. }
  split; [exact Epk|]. split; [reflexivity|].
  unfold KeysBTC.get_public_key, KeysBTC.get_public_point, self.
  cbn [KeysBTC._public_key KeysBTC._public_point].
  rewrite get_generator_point_G. cbn [bind].
  unfold KeysBTC.get_private_key_int. cbn [KeysBTC._private_key].
  unfold ECPoint.__mul__ in EP |- *. rewrite EP. rewrite Epk. reflexivity.
Qed.


Lemma lstrip_1_ones (n : nat) (s : string) :
  lstrip_1 (Address.ones n ++ s) = lstrip_1 s.
Proof. induction n as [|n IH]; [reflexivity|exact IH]. Qed.

(** [base58_encode] writes no leading ["1"]: its first digit is not 0. *)
Lemma base58_encode_num_head (num : Z) :
  0 <= num ->
  forall acc : string,
    num = 0 \/
    exists (c : ascii) (r : string),
      base58_encode_num num acc = String c r /\ c <> "1"%char.
Proof.
  intros Hnum. pattern num. apply Zlt_0_ind; [|exact Hnum].
  clear num Hnum. intros num IH Hnum acc.
  destruct (Z.eq_dec num 0) as [Hz|Hnz]; [left; exact Hz|right].
  rewrite base58_encode_num_step by lia. change BASE58_COUNT with 58.
  assert (Hq : 0 <= num / 58 < num).
  { split; [apply Z.div_pos; lia|]. apply Z.div_lt; lia. }
  destruct (IH (num / 58) Hq
              (String (alphabet_at (num mod 58)) acc)) as [Hz|H].
  - rewrite Hz, base58_encode_num_0. eexists _, _. split; [reflexivity|].
    assert (Hsmall : num < 58).
    { destruct (Z.lt_ge_cases num 58) as [L|L]; [exact L|].
      assert (1 <= num / 58) by (apply Z.div_le_lower_bound; lia). lia. }
    rewrite Z.mod_small by lia. intros Hc.
    pose proof (str_index_alphabet_at num ltac:(change BASE58_COUNT with 58; lia))
      as Hi.
    rewrite Hc in Hi. vm_compute in Hi. injection Hi as Hi. lia.
  - exact H.
Qed.

Lemma lstrip_1_base58_encode (b : bytes) :
  lstrip_1 (base58_encode b) = base58_encode b.
Proof.
  change (base58_encode b) with (base58_encode_num (bytes2int b) EmptyString).
  destruct (base58_encode_num_head (bytes2int b) (proj1 (bytes2int_range b))
              EmptyString) as [Hz|(c & r & E & Hc)].
  - rewrite Hz, base58_encode_num_0. reflexivity.
  - rewrite E. cbn [lstrip_1].
    destruct (Ascii.eqb_spec c "1"); [contradiction|reflexivity].
Qed.

Lemma address_to_pubkey_hash_of (v : byte) (h : bytes) (n : nat) :
  List.length h = 20%nat ->
  let t := [v] ++ h in
  KeysBTC.address_to_pubkey_hash
    (Address.ones n ++ base58_encode (t ++ slice 0 4 (sha256 (sha256 t)))) =
  Ok h.
Proof.
  intros Hh t. unfold KeysBTC.address_to_pubkey_hash.
  rewrite lstrip_1_ones, lstrip_1_base58_encode.
  set (c := slice 0 4 (sha256 (sha256 t))).
  assert (Hc : List.length c = 4%nat).
  { unfold c, slice. rewrite length_firstn. cbn [skipn].
    rewrite sha256_length. reflexivity. }
  assert (Ht : List.length t = 21%nat)
    by (unfold t; cbn [app List.length]; rewrite Hh; reflexivity).
  replace 25%nat with (List.length (t ++ c))
    by (rewrite length_app, Ht, Hc; reflexivity).
  rewrite base58_roundtrip_at_length. cbn [bind].
  assert (E1 : slice 0 21 (t ++ c) = t).
  { apply (slice_app_mid [] t c); [reflexivity|]. rewrite Ht. reflexivity. }
  assert (E2 : skipn 21 (t ++ c) = c).
  { rewrite <- Ht, skipn_app, skipn_all, Nat.sub_diag. reflexivity. }
  rewrite E1, E2. fold c.
  destruct (list_eq_dec Byte.byte_eq_dec c c) as [_|N]; [|contradiction].
  apply f_equal. unfold t. rewrite <- app_assoc.
  apply (slice_app_mid [v] h c); [reflexivity|]. rewrite Hh. reflexivity.
Qed.

(** X12.  On an instance built from a valid private key, for a version
    byte, [get_address] returns the Base58Check string of the version
    and the hash of the compressed public key, and
    [address_to_pubkey_hash] accepts it and gives that hash of 20 bytes
    back.  The address is cached: a later call returns it whatever
    version it asks for. *)
Theorem address_roundtrip (k : bytes) (version : Z) :
  0 < bytes2int k -> 0 <= version < 256 ->
  exists (self0 self1 : KeysBTC.t) (h : bytes) (a : string),
    KeysBTC.__init__ k = Ok self0 /\
    fst (Address.get_pubkey_hash self0) = Ok h /\
    List.length h = 20%nat /\
    Address.get_address self0 (Some version) = (Ok a, self1) /\
    KeysBTC.address_to_pubkey_hash a = Ok h /\
    (forall v : option Z, Address.get_address self1 v = (Ok a, self1)).
Proof.
  intros Hk Hv.
  destruct (get_public_key_fresh k None None true)
    as (P & pk & _ & _ & _ & _ & _ & Eg).
  exists (KeysBTC.mk k None None None None).
  unfold Address.get_address, Address.get_pubkey_hash.
  cbn [KeysBTC._address KeysBTC._public_key_hash]. rewrite Eg.
  destruct (Z.ltb_spec version 0); [lia|].
  destruct (Z.ltb_spec 255 version); [lia|]. cbn [orb fst].
  set (h := ripemd160 (sha256 pk)).
  assert (Hh : List.length h = 20%nat)
    by apply (hashlib_digest_size RIPEMD160).
  eexists _, h, _. split; [apply KeysBTC_init_ok; exact Hk|].
  split; [reflexivity|]. split; [exact Hh|]. split; [reflexivity|].
  split.
  - apply address_to_pubkey_hash_of. exact Hh.
  - intros v. reflexivity.
Qed.

(** X13.  A signature whose [s] is a multiple of the group order, 0
    first of all, has no inverse: [verify] raises the [ValueError] of
    [mod_inverse] instead of returning [False], and leaves the instance
    as it was. *)
Theorem verify_rejects_zero_s (self : KeysBTC.t) (hash r s : bytes) :
  bytes2int s mod SECP256K1_ORDER = 0 ->
  KeysBTC.verify self hash r s =
  (Raise (ValueError
            ("No modular inverse for: a=" ++ fmt_d (bytes2int s) ++
             ", m=" ++ fmt_d SECP256K1_ORDER)), self).
Proof.
  intros Hs. unfold KeysBTC.verify. cbv zeta.
  rewrite mod_inverse_not_coprime; [reflexivity| | |].
  - apply bytes2int_range.
  - discriminate.
  - apply Z.mod_divide in Hs; [|discriminate].
    intros Hg.
    assert (Hd : (SECP256K1_ORDER | Z.gcd (bytes2int s) SECP256K1_ORDER)).
    { apply Z.gcd_greatest; [exact Hs|apply Z.divide_refl]. }
    rewrite Hg in Hd. apply Z.divide_1_r_nonneg in Hd; discriminate.
Qed.

End Keys.

Lemma wif_roundtrip_compressed_witness :
  let hashlib := fixed_hashlib x01 in
  let k := repeat x00 31 ++ [x01] in
  KeysBTC.privatekey_from_wif (KeysBTC.privatekey_to_wif k true) = Ok k /\
  KeysBTC.privatekey_from_wif
    (Address.get_private_key_wif (KeysBTC.mk k None None None None) true) =
  Ok k.
Proof.
  exact (@wif_roundtrip_compressed (fixed_hashlib x01)
           (repeat x00 31 ++ [x01]) eq_refl).
Defined.

Lemma wif_uncompressed_shifted_witness :
  let hashlib := fixed_hashlib x01 in
  let k := repeat x00 31 ++ [x01] in
  KeysBTC.privatekey_from_wif (KeysBTC.privatekey_to_wif k false) =
  Ok ([x80] ++ repeat x00 31) /\
  ([x80] ++ firstn 31 k = k -> k = repeat x80 32).
Proof.
  exact (@wif_uncompressed_shifted (fixed_hashlib x01)
           (repeat x00 31 ++ [x01]) eq_refl).
Defined.

Lemma address_roundtrip_witness :
  let hashlib := fixed_hashlib x01 in
  exists (self0 self1 : KeysBTC.t) (h : bytes) (a : string),
    KeysBTC.__init__ [x01] = Ok self0 /\
    fst (Address.get_pubkey_hash self0) = Ok h /\
    List.length h = 20%nat /\
    Address.get_address self0 (Some 111) = (Ok a, self1) /\
    KeysBTC.address_to_pubkey_hash a = Ok h /\
    (forall v : option Z, Address.get_address self1 v = (Ok a, self1)).
Proof.
  apply (@address_roundtrip (fixed_hashlib x01) [x01] 111);
    [reflexivity|lia].
Defined.

Lemma verify_rejects_zero_s_witness :
  let self := KeysBTC.mk [x01] None None None None in
  KeysBTC.verify self [x02] [x02] [] =
  (Raise (ValueError
            ("No modular inverse for: a=" ++ fmt_d (bytes2int []) ++
             ", m=" ++ fmt_d SECP256K1_ORDER)), self).
Proof.
  exact (verify_rejects_zero_s
           (KeysBTC.mk [x01] None None None None) [x02] [x02] [] eq_refl).
Defined.

(** ** btc/ecpoint.py *)

(** *** The constants *)

(** X14.  The constants of the module are what the algorithms take them
    for: the field modulus [p] and the group order [n] are prime, so
    that [mod_inverse] finds an inverse of every residue other than 0;
    [p = 3 (mod 4)], as the square root of [get_secp256k1_y] needs; and
    the generator point is on the curve. *)
Theorem secp256k1_constants :
  Z.prime SECP256K1_P /\ Z.prime SECP256K1_ORDER /\
  SECP256K1_P mod 4 = 3 /\
  KeysBTC.get_generator_point = Ok G /\
  (forall (m a : Z),
     m = SECP256K1_P \/ m = SECP256K1_ORDER -> a mod m <> 0 ->
     exists i : Z,
       mod_inverse (a mod m) m = Ok i /\ 0 <= i < m /\ (a * i) mod m = 1).
Proof.
  split; [exact SECP256K1_P_prime|]. split; [exact SECP256K1_ORDER_prime|].
  split; [reflexivity|]. split; [exact get_generator_point_G|].
  intros m a Hm Ha.
  assert (Pm : Z.prime m)
    by (destruct Hm as [-> | ->];
        [exact SECP256K1_P_prime|exact SECP256K1_ORDER_prime]).
  pose proof (Z.prime_ge_2 _ Pm) as Hm2.
  pose proof (Z.mod_pos_bound a m ltac:(lia)) as B.
  destruct (mod_inverse_prime (a mod m) m Pm ltac:(lia)) as (i & Ei & Ri & Hi).
  exists i. split; [exact Ei|]. split; [exact Ri|].
  rewrite <- Hi, Z.mul_mod_idemp_l by lia. reflexivity.
Qed.

(** *** The square root *)

(** X15.  [get_secp256k1_y(x)] returns a [y] in [[0, p)] with
    [y^2 = x^3 + 7 (mod p)] or raises [AssertionError]; when [x] is the
    abscissa of a point of the curve it returns, and its result is one of
    the two ordinates [y] and [p - y] of the points with that
    abscissa. *)
Theorem get_secp256k1_y_roots (x : Z) :
  ((exists y' : Z,
      ECPoint.get_secp256k1_y x = Ok y' /\ 0 <= y' < SECP256K1_P /\
      curve_eqm SECP256K1_P SECP256K1_A SECP256K1_B x y') \/
   (exists msg : string,
      ECPoint.get_secp256k1_y x = Raise (AssertionError msg))) /\
  (forall y : Z,
     0 < y < SECP256K1_P ->
     curve_eqm SECP256K1_P SECP256K1_A SECP256K1_B x y ->
     exists y' : Z,
       ECPoint.get_secp256k1_y x = Ok y' /\
       (y' = y \/ y' = SECP256K1_P - y)).
Proof.
  split.
  - unfold ECPoint.get_secp256k1_y, ECPoint.is_contained, pow_mod.
    rewrite Zpow_mod_correct by discriminate.
    set (y' := (x ^ 3 + x * SECP256K1_A + SECP256K1_B)
                 ^ ((SECP256K1_P + 1) / 4) mod SECP256K1_P).
    destruct (Z.eqb_spec SECP256K1_P 0) as [E|_]; [discriminate E|].
    unfold bind.
    destruct (Z.eqb_spec ((y' ^ 2 - (x ^ 3 + SECP256K1_A * x + SECP256K1_B))
                            mod SECP256K1_P) 0) as [E|E].
    + left. exists y'. split; [reflexivity|].
      split; [apply Z.mod_pos_bound; reflexivity|].
      apply contained_iff_curve_eqm. exact E.
    + right. eexists. reflexivity.
  - intros y Hy Hc.
    destruct (get_secp256k1_y_spec x y Hy Hc) as (y' & E & _ & H).
    exists y'. split; assumption.
Qed.

(** *** The group operations *)

Lemma curve_not_origin (x y : Z) :
  curve_eqm SECP256K1_P SECP256K1_A SECP256K1_B x y ->
  (x =? 0) && (y =? 0) = false.
Proof.
  intros Hc. destruct (Z.eqb_spec x 0) as [->|]; [|reflexivity].
  destruct (Z.eqb_spec y 0) as [->|]; [|reflexivity].
  unfold curve_eqm, eqm in Hc. vm_compute in Hc. discriminate Hc.
Qed.

(** The tangent at a finite point meets the curve in a finite point. *)
Lemma double_finite (P R : ECPoint.t) :
  on_secp256k1 P = true -> ECPoint.__eq__ P ECPoint.infinity = false ->
  ECPoint.double P = Ok R ->
  curve_eqm SECP256K1_P SECP256K1_A SECP256K1_B (ECPoint.x R) (ECPoint.y R).
Proof.
  intros HP Einf. destruct (on_secp256k1_inv P HP) as (Ha & Hb & Hp & Hc).
  destruct Hc as [Hc|Hc]; [congruence|].
  rewrite double_eq by (assumption || rewrite Hp; discriminate).
  rewrite Hp, Ha, Hb.
  destruct (mod_inverse _ _) as [i|e] eqn:Ei; [|discriminate].
  unfold bind. cbv zeta. set (res := ECPoint.mk _ _ _ _ _).
  intros [= <-]. subst res.
  apply mod_inverse_inv in Ei;
    [|apply Z.mod_pos_bound; reflexivity|reflexivity].
  destruct Ei as [_ Ei].
  cbn [ECPoint.x ECPoint.y].
  set (m := SECP256K1_P) in *. set (x1 := ECPoint.x P) in *.
  set (y1 := ECPoint.y P) in *.
  set (s := ((3 * x1 * x1 + SECP256K1_A) mod m * i) mod m).
  assert (Hi : eqm m ((2 * y1) * i) 1).
  { unfold eqm. rewrite <- Ei, Z.mul_mod_idemp_l, Z.mod_mod by discriminate.
    reflexivity. }
  assert (Hs : eqm m (s * (2 * y1)) (3 * x1 * x1 + SECP256K1_A)).
  { unfold s. rewrite Zmod_eqm, Zmod_eqm.
    replace ((3 * x1 * x1 + SECP256K1_A) * i * (2 * y1))
      with ((3 * x1 * x1 + SECP256K1_A) * ((2 * y1) * i)) by ring.
    rewrite Hi. rewrite Z.mul_1_r. reflexivity. }
  pose proof (tangent_on_curve m SECP256K1_A SECP256K1_B x1 y1 s Hc Hs) as T.
  cbv zeta in T. eapply curve_eqm_mod; [| |exact T].
  - apply Zmod_eqm.
  - rewrite Zmod_eqm. rewrite Zmod_eqm. reflexivity.
Qed.

(** The slope of the chord, whichever point comes first. *)
Lemma chord_slope (P1 P2 : ECPoint.t) (i : Z) :
  (((ECPoint.x P2 - ECPoint.x P1) mod SECP256K1_P) * i) mod SECP256K1_P = 1 ->
  let s := ((ECPoint.y P2 - ECPoint.y P1) mod SECP256K1_P * i)
             mod SECP256K1_P in
  eqm SECP256K1_P (s * (ECPoint.x P2 - ECPoint.x P1))
    (ECPoint.y P2 - ECPoint.y P1).
Proof.
  intros Ei s. set (m := SECP256K1_P) in *.
  assert (Hi : eqm m ((ECPoint.x P2 - ECPoint.x P1) * i) 1).
  { unfold eqm. rewrite <- Ei, Z.mul_mod_idemp_l, Z.mod_mod by discriminate.
    reflexivity. }
  unfold s. rewrite Zmod_eqm, Zmod_eqm.
  replace ((ECPoint.y P2 - ECPoint.y P1) * i * (ECPoint.x P2 - ECPoint.x P1))
    with ((ECPoint.y P2 - ECPoint.y P1) * ((ECPoint.x P2 - ECPoint.x P1) * i))
    by ring.
  rewrite Hi. rewrite Z.mul_1_r. reflexivity.
Qed.

(** The chord through two finite points with different abscissas meets
    the curve in a finite point. *)
Lemma add_finite (P1 P2 R : ECPoint.t) :
  on_secp256k1 P1 = true -> on_secp256k1 P2 = true ->
  ECPoint.__eq__ P1 ECPoint.infinity = false ->
  ECPoint.__eq__ P2 ECPoint.infinity = false ->
  ECPoint.x P1 <> ECPoint.x P2 ->
  ECPoint.add P1 P2 = Ok R ->
  curve_eqm SECP256K1_P SECP256K1_A SECP256K1_B (ECPoint.x R) (ECPoint.y R).
Proof.
  intros HP1 HP2 E1 E2 Ex.
  destruct (on_secp256k1_inv P1 HP1) as (Ha & Hb & Hp & Hc1).
  destruct (on_secp256k1_inv P2 HP2) as (_ & _ & _ & Hc2).
  destruct Hc1 as [Hc1|Hc1]; [congruence|].
  destruct Hc2 as [Hc2|Hc2]; [congruence|].
  rewrite add_eq by (assumption || rewrite Hp; discriminate).
  rewrite Hp, Ha, Hb.
  destruct (mod_inverse _ _) as [i|e] eqn:Ei; [|discriminate].
  unfold bind. cbv zeta. set (res := ECPoint.mk _ _ _ _ _).
  intros [= <-]. subst res.
  apply mod_inverse_inv in Ei;
    [|apply Z.mod_pos_bound; reflexivity|reflexivity].
  destruct Ei as [_ Ei].
  cbn [ECPoint.x ECPoint.y].
  pose proof (chord_slope P1 P2 i Ei) as Hs. cbv zeta in Hs.
  set (m := SECP256K1_P) in *.
  set (x1 := ECPoint.x P1) in *. set (y1 := ECPoint.y P1) in *.
  set (x2 := ECPoint.x P2) in *. set (y2 := ECPoint.y P2) in *.
  set (s := ((y2 - y1) mod m * i) mod m) in *.
  assert (Hi : eqm m ((x2 - x1) * i) 1).
  { unfold eqm. rewrite <- Ei, Z.mul_mod_idemp_l, Z.mod_mod by discriminate.
    reflexivity. }
  pose proof (chord_on_curve m SECP256K1_A SECP256K1_B x1 y1 x2 y2 i s
                Hc1 Hc2 Hi Hs) as T.
  cbv zeta in T. eapply curve_eqm_mod; [| |exact T].
  - apply Zmod_eqm.
  - rewrite Zmod_eqm. rewrite Zmod_eqm. reflexivity.
Qed.

Lemma point_eq_intro (P Q : ECPoint.t) :
  on_secp256k1 P = true -> on_secp256k1 Q = true ->
  ECPoint.x P = ECPoint.x Q -> ECPoint.y P = ECPoint.y Q -> P = Q.
Proof.
  intros HP HQ Hx Hy.
  destruct (on_secp256k1_inv P HP) as (Ha & Hb & Hp & _).
  destruct (on_secp256k1_inv Q HQ) as (Ha' & Hb' & Hp' & _).
  destruct P, Q. cbn in *. congruence.
Qed.

Lemma eq_infinity_inv (P : ECPoint.t) :
  on_secp256k1 P = true -> ECPoint.__eq__ P ECPoint.infinity = true ->
  P = ECPoint.infinity.
Proof.
  intros HP E. unfold ECPoint.__eq__ in E.
  apply andb_true_iff in E. destruct E as [Ex Ey].
  apply Z.eqb_eq in Ex, Ey.
  apply point_eq_intro; [exact HP|reflexivity|exact Ex|exact Ey].
Qed.

(** The opposite of a finite point. *)
Lemma opposite_valid (P : ECPoint.t) :
  on_secp256k1 P = true -> reduced P = true ->
  ECPoint.__eq__ P ECPoint.infinity = false ->
  let N := ECPoint.mk (ECPoint.x P) (SECP256K1_P - ECPoint.y P)
             SECP256K1_A SECP256K1_B SECP256K1_P in
  on_secp256k1 N = true /\ reduced N = true /\
  ECPoint.__eq__ N ECPoint.infinity = false /\
  ECPoint.y P <> SECP256K1_P - ECPoint.y P.
Proof.
  intros HP RP Einf N.
  destruct (on_curve_y_nonzero P HP RP Einf) as [Hy Hc].
  destruct (on_secp256k1_inv P HP) as (_ & _ & Hp & _).
  destruct (reduced_inv P RP) as [Hx _]. rewrite Hp in Hx.
  assert (HcN : curve_eqm SECP256K1_P SECP256K1_A SECP256K1_B
                  (ECPoint.x P) (SECP256K1_P - ECPoint.y P)).
  { unfold curve_eqm in *. rewrite <- Hc. unfold eqm.
    apply Z.cong_iff_0.
    replace ((SECP256K1_P - ECPoint.y P) * (SECP256K1_P - ECPoint.y P) -
             ECPoint.y P * ECPoint.y P)
      with ((SECP256K1_P - 2 * ECPoint.y P) * SECP256K1_P) by ring.
    apply Z.mod_mul. discriminate. }
  split; [apply on_secp256k1_intro; try reflexivity; exact HcN|].
  split.
  { apply reduced_intro; unfold N; cbn [ECPoint.x ECPoint.y ECPoint.p_mod];
      lia. }
  split.
  { unfold ECPoint.__eq__, N. cbn [ECPoint.x ECPoint.y].
    exact (curve_not_origin _ _ HcN). }
  intros E. assert (H2 : SECP256K1_P = 2 * ECPoint.y P) by lia.
  apply (f_equal (fun z => z mod 2)) in H2.
  rewrite Z.mul_comm, Z.mod_mul in H2 by lia. vm_compute in H2. discriminate H2.
Qed.

(** X16.  The sentinel [(0, 0)] is the identity of [add], on either
    side, and a finite point and its opposite [(x, p - y)] add up to
    it, through [add] and through the operator [+]. *)
Theorem add_identity_and_opposite (P : ECPoint.t) :
  on_secp256k1 P = true -> reduced P = true ->
  ECPoint.add ECPoint.infinity P = Ok P /\
  ECPoint.add P ECPoint.infinity = Ok P /\
  (ECPoint.__eq__ P ECPoint.infinity = false ->
   let N := ECPoint.mk (ECPoint.x P) (SECP256K1_P - ECPoint.y P)
              SECP256K1_A SECP256K1_B SECP256K1_P in
   on_secp256k1 N = true /\
   ECPoint.add P N = Ok ECPoint.infinity /\
   ECPoint.add N P = Ok ECPoint.infinity /\
   ECPoint.__add__ P N = Ok ECPoint.infinity).
Proof.
  intros HP RP. split; [reflexivity|]. split.
  { unfold ECPoint.add.
    destruct (ECPoint.__eq__ P ECPoint.infinity) eqn:E; [|reflexivity].
    rewrite (eq_infinity_inv P HP E). reflexivity. }
  intros Einf N.
  destruct (opposite_valid P HP RP Einf) as (HN & _ & EN & Hne).
  fold N in HN, EN.
  assert (A1 : ECPoint.add P N = Ok ECPoint.infinity).
  { unfold ECPoint.add. rewrite Einf, EN. unfold N at 1 2.
    cbn [ECPoint.x ECPoint.y]. rewrite Z.eqb_refl.
    destruct (Z.eqb_spec (ECPoint.y P) (SECP256K1_P - ECPoint.y P));
      [contradiction|reflexivity]. }
  split; [exact HN|]. split; [exact A1|]. split.
  - unfold ECPoint.add. rewrite EN, Einf. unfold N at 1 2.
    cbn [ECPoint.x ECPoint.y]. rewrite Z.eqb_refl.
    destruct (Z.eqb_spec (SECP256K1_P - ECPoint.y P) (ECPoint.y P));
      [exfalso; apply Hne; congruence|reflexivity].
  - unfold ECPoint.__add__. unfold N at 1 2. cbn [ECPoint.x ECPoint.y].
    rewrite Z.eqb_refl.
    destruct (Z.eqb_spec (ECPoint.y P) (SECP256K1_P - ECPoint.y P));
      [contradiction|exact A1].
Qed.

Lemma add_identity_and_opposite_witness :
  let N := ECPoint.mk SECP256K1_GX (SECP256K1_P - SECP256K1_GY)
             SECP256K1_A SECP256K1_B SECP256K1_P in
  on_secp256k1 G = true /\ reduced G = true /\
  ECPoint.add G N = Ok ECPoint.infinity.
Proof.
  split; [vm_compute; reflexivity|]. split; [vm_compute; reflexivity|].
  apply (add_identity_and_opposite G); vm_compute; reflexivity.
Defined.

(** Two points of the curve with the same abscissa are equal or
    opposite. *)
Lemma same_x_opposite (P Q : ECPoint.t) :
  on_secp256k1 P = true -> reduced P = true ->
  on_secp256k1 Q = true -> reduced Q = true ->
  ECPoint.__eq__ P ECPoint.infinity = false ->
  ECPoint.__eq__ Q ECPoint.infinity = false ->
  ECPoint.x P = ECPoint.x Q -> ECPoint.y P <> ECPoint.y Q ->
  ECPoint.y Q = SECP256K1_P - ECPoint.y P.
Proof.
  intros HP RP HQ RQ EP EQ Hx Hy.
  destruct (on_curve_y_nonzero P HP RP EP) as [By Hc].
  destruct (on_curve_y_nonzero Q HQ RQ EQ) as [By' Hc'].
  rewrite <- Hx in Hc'. unfold curve_eqm, eqm in Hc, Hc'.
  rewrite <- Hc' in Hc. apply Z.cong_iff_0 in Hc.
  replace (ECPoint.y P * ECPoint.y P - ECPoint.y Q * ECPoint.y Q)
    with ((ECPoint.y P - ECPoint.y Q) * (ECPoint.y P + ECPoint.y Q)) in Hc
    by ring.
  apply Z.mod_divide in Hc; [|discriminate].
  apply Z.divide_prime_mul in Hc; [|exact SECP256K1_P_prime].
  destruct Hc as [[c Hd]|[c Hd]].
  - exfalso. assert (c = 0) by nia. subst c. lia.
  - assert (c = 1) by nia. subst c. lia.
Qed.

(** X17.  For finite points [P] and [Q] of the curve, [add(P, Q)] is
    the sentinel of the point at infinity exactly when [Q] is the
    opposite [(x, p - y)] of [P]; otherwise it is a point satisfying the
    curve equation.  [double(P)] is never the sentinel: the curve has no
    point with [y = 0]. *)
Theorem add_infinity_iff_opposite (P Q : ECPoint.t) :
  on_secp256k1 P = true -> reduced P = true ->
  on_secp256k1 Q = true -> reduced Q = true ->
  ECPoint.__eq__ P ECPoint.infinity = false ->
  ECPoint.__eq__ Q ECPoint.infinity = false ->
  (exists R : ECPoint.t,
     ECPoint.add P Q = Ok R /\
     (ECPoint.__eq__ R ECPoint.infinity = true <->
      ECPoint.x Q = ECPoint.x P /\
      ECPoint.y Q = SECP256K1_P - ECPoint.y P) /\
     (ECPoint.__eq__ R ECPoint.infinity = false ->
      curve_eqm SECP256K1_P SECP256K1_A SECP256K1_B
        (ECPoint.x R) (ECPoint.y R))) /\
  (exists R : ECPoint.t,
     ECPoint.double P = Ok R /\
     ECPoint.__eq__ R ECPoint.infinity = false /\
     curve_eqm SECP256K1_P SECP256K1_A SECP256K1_B
       (ECPoint.x R) (ECPoint.y R)).
Proof.
  intros HP RP HQ RQ EP EQ.
  assert (HD : exists R : ECPoint.t,
             ECPoint.double P = Ok R /\
             ECPoint.__eq__ R ECPoint.infinity = false /\
             curve_eqm SECP256K1_P SECP256K1_A SECP256K1_B
               (ECPoint.x R) (ECPoint.y R)).
  { destruct (double_total P HP RP) as (R & ER & _ & _).
    pose proof (double_finite P R HP EP ER) as HR.
    exists R. split; [exact ER|]. split; [|exact HR].
    exact (curve_not_origin _ _ HR). }
  split; [|exact HD].
  destruct (opposite_valid P HP RP EP) as (_ & _ & _ & Hne).
  destruct (add_total P Q HP RP HQ RQ) as (R & ER & HR & _).
  exists R. split; [exact ER|].
  destruct (Z.eq_dec (ECPoint.x P) (ECPoint.x Q)) as [Hx|Hx].
  - destruct (Z.eq_dec (ECPoint.y P) (ECPoint.y Q)) as [Hy|Hy].
    + assert (ER' : ECPoint.double P = Ok R).
      { rewrite <- ER. unfold ECPoint.add. rewrite EP, EQ, Hx, Hy.
        rewrite !Z.eqb_refl. reflexivity. }
      destruct HD as (R' & ER2 & Hfin & Hc).
      assert (R' = R) by congruence. subst R'.
      split; [|intros _; exact Hc].
      rewrite Hfin. split; [discriminate|].
      intros [_ Hopp]. exfalso. apply Hne. congruence.
    + assert (R = ECPoint.infinity).
      { assert (E : ECPoint.add P Q = Ok ECPoint.infinity).
        { unfold ECPoint.add. rewrite EP, EQ, Hx, Z.eqb_refl.
          destruct (Z.eqb_spec (ECPoint.y P) (ECPoint.y Q));
            [contradiction|reflexivity]. }
        congruence. }
      subst R. split; [|discriminate].
      split; [|reflexivity]. intros _. split; [congruence|].
      apply same_x_opposite; assumption.
  - pose proof (add_finite P Q R HP HQ EP EQ Hx ER) as Hc.
    pose proof (curve_not_origin _ _ Hc) as Hfin.
    change (ECPoint.__eq__ R ECPoint.infinity = false) in Hfin.
    split; [|intros _; exact Hc].
    rewrite Hfin. split; [discriminate|]. intros [Hx' _]. congruence.
Qed.

Lemma add_infinity_iff_opposite_witness :
  exists R : ECPoint.t,
    ECPoint.add G G2 = Ok R /\ ECPoint.__eq__ R ECPoint.infinity = false.
Proof.
  destruct (add_infinity_iff_opposite G G2) as [(R & ER & Hiff & _) _];
    try (vm_compute; reflexivity).
  exists R. split; [exact ER|].
  destruct (ECPoint.__eq__ R ECPoint.infinity) eqn:E; [|reflexivity].
  destruct (proj1 Hiff eq_refl) as [E' _]. vm_compute in E'. discriminate E'.
Defined.

(** X18.  [add] is commutative on the valid points with reduced
    coordinates: the slope of the chord does not depend on the order of
    its ends. *)
Theorem add_commutative (P Q : ECPoint.t) :
  on_secp256k1 P = true -> reduced P = true ->
  on_secp256k1 Q = true -> reduced Q = true ->
  ECPoint.add P Q = ECPoint.add Q P.
Proof.
  intros HP RP HQ RQ.
  destruct (ECPoint.__eq__ P ECPoint.infinity) eqn:EP.
  { unfold ECPoint.add. rewrite EP.
    destruct (ECPoint.__eq__ Q ECPoint.infinity) eqn:EQ; [|reflexivity].
    rewrite (eq_infinity_inv P HP EP), (eq_infinity_inv Q HQ EQ). reflexivity. }
  destruct (ECPoint.__eq__ Q ECPoint.infinity) eqn:EQ.
  { unfold ECPoint.add. rewrite EP, EQ. reflexivity. }
  destruct (Z.eq_dec (ECPoint.x P) (ECPoint.x Q)) as [Hx|Hx].
  { unfold ECPoint.add. rewrite EP, EQ, Hx, Z.eqb_refl.
    destruct (Z.eqb_spec (ECPoint.y P) (ECPoint.y Q)) as [Hy|Hy].
    - rewrite Hy, Z.eqb_refl.
      rewrite (point_eq_intro P Q HP HQ Hx Hy). reflexivity.
    - destruct (Z.eqb_spec (ECPoint.y Q) (ECPoint.y P));
        [exfalso; apply Hy; congruence|reflexivity]. }
  destruct (on_secp256k1_inv P HP) as (Ha & Hb & Hp & _).
  destruct (on_secp256k1_inv Q HQ) as (Ha' & Hb' & Hp' & _).
  destruct (reduced_inv P RP) as [Bx _]. rewrite Hp in Bx.
  destruct (reduced_inv Q RQ) as [Bx' _]. rewrite Hp' in Bx'.
  rewrite (add_eq P Q) by (assumption || rewrite Hp; discriminate).
  rewrite (add_eq Q P)
    by (assumption || (rewrite Hp'; discriminate) || congruence).
  rewrite Hp, Hp', Ha, Ha', Hb, Hb'.
  set (m := SECP256K1_P) in *.
  assert (Pm : Z.prime m) by exact SECP256K1_P_prime.
  assert (Hm : 0 < m) by reflexivity.
  assert (Hndiv : forall d, 0 < Z.abs d < m -> d mod m <> 0).
  { intros d Hd E. apply Z.mod_divide in E; [|lia].
    destruct E as [c E]. assert (c = 0) by nia. subst c. lia. }
  assert (D1 : 0 < (ECPoint.x Q - ECPoint.x P) mod m < m).
  { pose proof (Z.mod_pos_bound (ECPoint.x Q - ECPoint.x P) m Hm).
    pose proof (Hndiv (ECPoint.x Q - ECPoint.x P) ltac:(lia)). lia. }
  assert (D2 : 0 < (ECPoint.x P - ECPoint.x Q) mod m < m).
  { pose proof (Z.mod_pos_bound (ECPoint.x P - ECPoint.x Q) m Hm).
    pose proof (Hndiv (ECPoint.x P - ECPoint.x Q) ltac:(lia)). lia. }
  destruct (mod_inverse_prime _ _ Pm D1) as (i1 & E1 & _ & I1).
  destruct (mod_inverse_prime _ _ Pm D2) as (i2 & E2 & _ & I2).
  rewrite E1, E2. cbn [bind]. cbv zeta.
  pose proof (chord_slope P Q i1 I1) as S1.
  pose proof (chord_slope Q P i2 I2) as S2.
  cbv zeta in S1, S2. fold m in S1, S2.
  set (s1 := ((ECPoint.y Q - ECPoint.y P) mod m * i1) mod m) in *.
  set (s2 := ((ECPoint.y P - ECPoint.y Q) mod m * i2) mod m) in *.
  assert (Hs : s1 = s2).
  { assert (B1 : 0 <= s1 < m) by (apply Z.mod_pos_bound; exact Hm).
    assert (B2 : 0 <= s2 < m) by (apply Z.mod_pos_bound; exact Hm).
    assert (Hz : ((s1 - s2) * (ECPoint.x Q - ECPoint.x P)) mod m = 0).
    { replace ((s1 - s2) * (ECPoint.x Q - ECPoint.x P))
        with (s1 * (ECPoint.x Q - ECPoint.x P) +
              s2 * (ECPoint.x P - ECPoint.x Q)) by ring.
      change (eqm m (s1 * (ECPoint.x Q - ECPoint.x P) +
                     s2 * (ECPoint.x P - ECPoint.x Q)) 0).
      rewrite S1, S2.
      replace (ECPoint.y Q - ECPoint.y P + (ECPoint.y P - ECPoint.y Q))
        with 0 by ring.
      reflexivity. }
    apply Z.mod_divide in Hz; [|lia].
    apply Z.divide_prime_mul in Hz; [|exact Pm].
    destruct Hz as [[c Hc]|[c Hc]].
    - assert (c = 0) by nia. lia.
    - exfalso. assert (c = 0) by nia. subst c. lia. }
  rewrite <- Hs. f_equal.
  assert (Ex3 : (s1 * s1 - ECPoint.x P - ECPoint.x Q) mod m =
                (s1 * s1 - ECPoint.x Q - ECPoint.x P) mod m)
    by (f_equal; ring).
  rewrite <- Ex3. set (x3 := (s1 * s1 - ECPoint.x P - ECPoint.x Q) mod m).
  assert (Ey3 : (s1 * (ECPoint.x P - x3) - ECPoint.y P) mod m =
                (s1 * (ECPoint.x Q - x3) - ECPoint.y Q) mod m).
  { change (eqm m (s1 * (ECPoint.x P - x3) - ECPoint.y P)
                  (s1 * (ECPoint.x Q - x3) - ECPoint.y Q)).
    replace (s1 * (ECPoint.x Q - x3) - ECPoint.y Q)
      with (s1 * (ECPoint.x P - x3) + s1 * (ECPoint.x Q - ECPoint.x P)
            - ECPoint.y Q) by ring.
    rewrite S1.
    replace (s1 * (ECPoint.x P - x3) + (ECPoint.y Q - ECPoint.y P)
             - ECPoint.y Q)
      with (s1 * (ECPoint.x P - x3) - ECPoint.y P) by ring.
    reflexivity. }
  rewrite Ey3. reflexivity.
Qed.

Lemma add_commutative_witness : ECPoint.add G G2 = ECPoint.add G2 G.
Proof. apply (add_commutative G G2); vm_compute; reflexivity. Defined.

(** *** Scalar multiplication at its ends *)

Lemma multiply_loop_infinity (n : nat) :
  forall x : Z,
    x < Z.of_nat n ->
    ECPoint.multiply_loop x ECPoint.infinity ECPoint.infinity =
    Ok ECPoint.infinity.
Proof.
  induction n as [|n IH]; intros x Hx; rewrite multiply_loop_eq;
    destruct (Z.gtb_spec x 0) as [Hpos|Hneg]; try lia; try reflexivity.
  assert (Et : ECPoint.multiply_temp x ECPoint.infinity ECPoint.infinity =
               Ok ECPoint.infinity).
  { unfold ECPoint.multiply_temp. destruct (negb (x mod 2 =? 0)); reflexivity. }
  rewrite Et. cbn [bind].
  change (ECPoint.double ECPoint.infinity) with (Ok ECPoint.infinity).
  cbn [bind]. apply IH.
  pose proof (multiply_x_bounds x ltac:(lia)). lia.
Qed.

(** X19.  What [multiply(P, k)] returns at the ends of its loop, for a
    valid point [P]: for every [k <= 1], the negative scalars included,
    it is [P] itself, the loop is not entered; for [k = 2] it is
    [double(P)]; and every multiple of the sentinel of the point at
    infinity is the sentinel. *)
Theorem multiply_small_scalars (P : ECPoint.t) :
  on_secp256k1 P = true ->
  (forall k : Z, k <= 1 -> ECPoint.multiply P k = Ok P) /\
  ECPoint.multiply P 2 = ECPoint.double P /\
  (forall k : Z, ECPoint.multiply ECPoint.infinity k = Ok ECPoint.infinity).
Proof.
  intros HP. split; [|split].
  - intros k Hk. unfold ECPoint.multiply. rewrite (init_on_curve P HP).
    cbn [bind]. rewrite multiply_loop_eq.
    destruct (Z.gtb_spec (k - 1) 0); [lia|reflexivity].
  - unfold ECPoint.multiply. rewrite (init_on_curve P HP). cbn [bind].
    change (2 - 1) with 1.
    rewrite multiply_loop_eq. change (1 >? 0) with true. cbv iota.
    unfold ECPoint.multiply_temp. change (negb (1 mod 2 =? 0)) with true.
    cbv iota.
    assert (E : ECPoint.__eq__ P P = true).
    { unfold ECPoint.__eq__. rewrite !Z.eqb_refl. reflexivity. }
    rewrite E. destruct (ECPoint.double P) as [R|e]; [|reflexivity].
    unfold bind. rewrite (multiply_loop_eq (ECPoint.multiply_x 1)).
    reflexivity.
  - intros k. unfold ECPoint.multiply.
    change (ECPoint.__init__ _ _ _ _ _) with (Ok ECPoint.infinity).
    cbn [bind]. apply (multiply_loop_infinity (Z.to_nat k)). lia.
Qed.

Lemma multiply_small_scalars_witness :
  ECPoint.multiply G (-5) = Ok G /\ ECPoint.multiply G 2 = ECPoint.double G.
Proof.
  destruct (multiply_small_scalars G) as (H1 & H2 & _);
    [vm_compute; reflexivity|].
  split; [apply H1; lia|exact H2].
Defined.

(** ** btc/bip32.py *)

Lemma well_formed_intro (key : ExtendedKey.key_value) (cc fp : bytes)
  (level index : Z) :
  match key with
  | ExtendedKey.KeyBytes k => List.length k = 32%nat
  | ExtendedKey.KeyPoint K =>
      on_secp256k1 K = true /\ reduced K = true /\
      ECPoint.__eq__ K ECPoint.infinity = false
  | ExtendedKey.KeyOther => False
  end ->
  List.length cc = 32%nat -> List.length fp = 4%nat ->
  0 <= level < 256 -> 0 <= index < 2 ^ 32 ->
  well_formed (ExtendedKey.mk key cc level index fp) = true.
Proof.
  intros Hkey Hcc Hfp Hl Hi. unfold well_formed.
  cbn [ExtendedKey.key ExtendedKey.level ExtendedKey.index
       ExtendedKey.chain_code ExtendedKey.fingerprint].
  rewrite !andb_true_iff, !Nat.eqb_eq, !Z.leb_le, !Z.ltb_lt.
  repeat split; try lia; try assumption.
  destruct key as [k|K|]; [apply Nat.eqb_eq; exact Hkey| |contradiction].
  destruct Hkey as (H1 & H2 & H3). rewrite H1, H2, H3. reflexivity.
Qed.

Lemma well_formed_roundtrip {hashlib : Hashlib} (self0 node : ExtendedKey.t) :
  well_formed node = true ->
  exists s : string,
    ExtendedKey.serialize node = Ok s /\
    ExtendedKey.deserialize self0 s = Ok node.
Proof.
  destruct node as [key cc level index fp].
  unfold well_formed.
  cbn [ExtendedKey.key ExtendedKey.level ExtendedKey.index
       ExtendedKey.chain_code ExtendedKey.fingerprint].
  rewrite !andb_true_iff.
  intros [[[[[[Hkey Hcc] Hl0] Hl1] Hi0] Hi1] Hfp].
  apply Nat.eqb_eq in Hcc, Hfp.
  apply Z.leb_le in Hl0, Hi0. apply Z.ltb_lt in Hl1, Hi1.
  destruct key as [k | K |]; [| |discriminate].
  - apply Nat.eqb_eq in Hkey. apply roundtrip_private; auto.
  - rewrite !andb_true_iff in Hkey. destruct Hkey as [[HK RK] Hinf].
    apply negb_true_iff in Hinf. apply roundtrip_public; auto.
Qed.

Lemma SECP256K1_ORDER_lt_2_256 : SECP256K1_ORDER < 256 ^ Z.of_nat 32.
Proof. reflexivity. Qed.

Section Bip32.
Context {hashlib : Hashlib}.

Lemma hmac_sha512_halves (secret data : bytes) :
  List.length (slice 0 32 (hmac_sha512 secret data)) = 32%nat /\
  List.length (skipn 32 (hmac_sha512 secret data)) = 32%nat.
Proof.
  pose proof (hmac_digest_size SHA512 secret data) as H.
  change (hmac_digest SHA512 secret data) with (hmac_sha512 secret data) in H.
  unfold slice. rewrite length_firstn, !length_skipn, H.
  split; reflexivity.
Qed.

Lemma get_fingerprint_length (pk : bytes) :
  List.length (ExtendedKey.get_fingerprint pk) = 4%nat.
Proof.
  unfold ExtendedKey.get_fingerprint, slice.
  rewrite length_firstn, length_skipn.
  pose proof (hashlib_digest_size RIPEMD160 (sha256 pk)) as H.
  change (hashlib_digest RIPEMD160 (sha256 pk)) with (ripemd160 (sha256 pk)) in H.
  rewrite H. reflexivity.
Qed.

(** X20.  [seed_to_master_key(seed)] splits the HMAC-SHA512 of the seed
    under ["Bitcoin seed"]: when the left half [IL] is 0 or not below
    the group order it raises [ValueError]; otherwise it returns the
    master node with the left half as key and the right half as chain
    code, a well-formed node that [KeysBTC] accepts as a private key
    and that [serialize] and [deserialize] carry there and back. *)
Theorem seed_to_master_key_spec (seed : bytes) (self0 : ExtendedKey.t) :
  let I := hmac_sha512 ExtendedKey.bitcoin_seed seed in
  let IL := bytes2int (slice 0 32 I) in
  if (IL =? 0) || (IL >=? SECP256K1_ORDER)
  then ExtendedKey.seed_to_master_key seed =
       Raise (ValueError "Wrong master key")
  else exists (m : ExtendedKey.t) (s : string),
         ExtendedKey.seed_to_master_key seed = Ok m /\
         m = ExtendedKey.mk (ExtendedKey.KeyBytes (slice 0 32 I))
               (skipn 32 I) 0 0 [x00; x00; x00; x00] /\
         well_formed m = true /\
         is_ok (KeysBTC.__init__ (slice 0 32 I)) = true /\
         ExtendedKey.serialize m = Ok s /\
         ExtendedKey.deserialize self0 s = Ok m.
Proof.
  intros I IL. unfold ExtendedKey.seed_to_master_key. fold I IL.
  destruct ((IL =? 0) || (IL >=? SECP256K1_ORDER)) eqn:E; [reflexivity|].
  apply orb_false_iff in E. destruct E as [E0 _]. apply Z.eqb_neq in E0.
  destruct (hmac_sha512_halves ExtendedKey.bitcoin_seed seed) as [HL HR].
  fold I in HL, HR.
  set (m := ExtendedKey.mk (ExtendedKey.KeyBytes (slice 0 32 I)) (skipn 32 I)
              0 0 [x00; x00; x00; x00]).
  assert (Hwf : well_formed m = true).
  { apply well_formed_intro; try assumption; try reflexivity; lia. }
  destruct (well_formed_roundtrip self0 m Hwf) as (s & Es & Ed).
  exists m, s. split; [reflexivity|]. split; [reflexivity|].
  split; [exact Hwf|]. split; [|split; assumption].
  rewrite KeysBTC_init_ok; [reflexivity|].
  pose proof (bytes2int_range (slice 0 32 I)). fold IL in H. lia.
Qed.

(** X21.  [prv_to_child] on a private node whose key has a positive
    value, for an index in [0, 2^32): the data hashed under the chain
    code is [00], the key and the index for a hardened index, and the
    compressed public key and the index otherwise; with [IL] and [IR]
    the halves of the hash and [k_i = (IL + k) mod n], the result is the
    [ValueError] of an invalid key when [IL >= n] or [k_i = 0], and
    otherwise the child with [k_i] in 32 bytes, [IR], the next level,
    the index and the fingerprint of the parent public key. *)
Theorem prv_to_child_spec (parent : ExtendedKey.t) (k : bytes) (index : Z) :
  ExtendedKey.key parent = ExtendedKey.KeyBytes k ->
  0 < bytes2int k -> 0 <= index < 2 ^ 32 ->
  exists (P : ECPoint.t) (pk : bytes),
    ECPoint.__mul__ G (bytes2int k) = Ok P /\
    KeysBTC.point_to_publickey P true = Ok pk /\
    let data :=
      if index >=? 2 ^ 31 then [x00] ++ k ++ to_bytes_be 4 index
      else pk ++ to_bytes_be 4 index in
    let I := hmac_sha512 (ExtendedKey.chain_code parent) data in
    let IL := bytes2int (slice 0 32 I) in
    let k_i := (IL + bytes2int k) mod SECP256K1_ORDER in
    BIP32.prv_to_child (BIP32.VKey parent) index =
    (if (IL >=? SECP256K1_ORDER) || (k_i =? 0)
     then Raise (ValueError "The resulting key is invalid")
     else Ok (ExtendedKey.mk (ExtendedKey.KeyBytes (to_bytes_be 32 k_i))
                (skipn 32 I) (ExtendedKey.level parent + 1) index
                (ExtendedKey.get_fingerprint pk))) /\
    bytes2int (to_bytes_be 32 k_i) = k_i /\ 0 <= k_i < SECP256K1_ORDER.
Proof.
  intros Hkey Hk Hidx.
  destruct (get_public_key_fresh k None None true)
    as (P & pk & EP & _ & _ & Epk & _ & Eg).
  exists P, pk. split; [exact EP|]. split; [exact Epk|]. cbv zeta.
  set (data := if index >=? 2 ^ 31 then [x00] ++ k ++ to_bytes_be 4 index
               else pk ++ to_bytes_be 4 index).
  set (I := hmac_sha512 (ExtendedKey.chain_code parent) data).
  set (IL := bytes2int (slice 0 32 I)).
  set (k_i := (IL + bytes2int k) mod SECP256K1_ORDER).
  assert (Bk : 0 <= k_i < SECP256K1_ORDER)
    by (apply Z.mod_pos_bound; reflexivity).
  pose proof SECP256K1_ORDER_lt_2_256 as Hn.
  split; [|split; [apply bytes2int_to_bytes_be; lia|exact Bk]].
  unfold BIP32.prv_to_child. rewrite Hkey.
  rewrite (KeysBTC_init_ok k Hk). cbn [bind].
  unfold int2bytes at 1.
  rewrite int_to_bytes_ok by (change (256 ^ Z.of_nat 4) with (2 ^ 32); lia).
  cbn [bind].
  destruct (index >=? 2 ^ 31) eqn:Eh.
  - cbn [bind]. unfold KeysBTC.get_private_key, KeysBTC.get_private_key_int.
    cbn [KeysBTC._private_key]. fold data I IL k_i.
    destruct ((IL >=? SECP256K1_ORDER) || (k_i =? 0)); [reflexivity|].
    unfold int2bytes32, int2bytes. rewrite int_to_bytes_ok by lia.
    cbn [bind]. rewrite Eg. reflexivity.
  - rewrite Eg. cbn [bind]. unfold KeysBTC.get_private_key_int.
    cbn [KeysBTC._private_key]. fold data I IL k_i.
    destruct ((IL >=? SECP256K1_ORDER) || (k_i =? 0)); [reflexivity|].
    unfold int2bytes32, int2bytes. rewrite int_to_bytes_ok by lia.
    reflexivity.
Qed.

(** *** The children are nodes again *)

Lemma prv_to_child_inv (parent child : ExtendedKey.t) (k : bytes) (index : Z) :
  ExtendedKey.key parent = ExtendedKey.KeyBytes k ->
  BIP32.prv_to_child (BIP32.VKey parent) index = Ok child ->
  exists kb cc fp : bytes,
    child = ExtendedKey.mk (ExtendedKey.KeyBytes kb) cc
              (ExtendedKey.level parent + 1) index fp /\
    List.length kb = 32%nat /\ List.length cc = 32%nat /\
    List.length fp = 4%nat /\ 0 <= index < 2 ^ 32.
Proof.
  intros Hkey. unfold BIP32.prv_to_child. rewrite Hkey.
  destruct (KeysBTC.__init__ k) as [cur|e]; [|discriminate]. cbn [bind].
  destruct (int2bytes index (Some 4%nat)) as [ib|e] eqn:Eib; [|discriminate].
  apply int_to_bytes_inv in Eib. destruct Eib as [Ridx _].
  change (256 ^ Z.of_nat 4) with (2 ^ 32) in Ridx.
  cbn [bind].
  match goal with
  | |- bind ?c _ = _ -> _ => destruct c as [[data cur']|e]; [|discriminate]
  end.
  cbn [bind]. cbv zeta.
  destruct (_ || _); [discriminate|].
  destruct (int2bytes32 _) as [kb|e] eqn:Ekb; [|discriminate]. cbn [bind].
  destruct (fst (KeysBTC.get_public_key cur' true)) as [pk|e]; [|discriminate].
  cbn [bind]. intros [= <-].
  eexists _, _, _. split; [reflexivity|].
  apply int_to_bytes_inv in Ekb. destruct Ekb as [_ ->].
  split; [apply to_bytes_be_length|].
  split; [apply hmac_sha512_halves|].
  split; [apply get_fingerprint_length|exact Ridx].
Qed.

Lemma pub_to_child_inv (parent child : ExtendedKey.t) (K : ECPoint.t)
  (index : Z) :
  ExtendedKey.key parent = ExtendedKey.KeyPoint K ->
  on_secp256k1 K = true -> reduced K = true ->
  BIP32.pub_to_child (BIP32.VKey parent) index = Ok child ->
  exists (K_i : ECPoint.t) (cc fp : bytes),
    child = ExtendedKey.mk (ExtendedKey.KeyPoint K_i) cc
              (ExtendedKey.level parent + 1) index fp /\
    on_secp256k1 K_i = true /\ reduced K_i = true /\
    ECPoint.__eq__ K_i ECPoint.infinity = false /\
    List.length cc = 32%nat /\ List.length fp = 4%nat /\
    0 <= index < 2 ^ 31.
Proof.
  intros Hkey HK RK. unfold BIP32.pub_to_child.
  destruct (Z.geb_spec index (2 ^ 31)) as [|Hlt]; [discriminate|].
  destruct (int2bytes index (Some 4%nat)) as [ib|e] eqn:Eib; [|discriminate].
  apply int_to_bytes_inv in Eib. destruct Eib as [Ridx _].
  cbn [bind]. rewrite Hkey.
  destruct (KeysBTC.point_to_publickey K true) as [pk|e]; [|discriminate].
  cbn [bind]. rewrite get_generator_point_G. cbn [bind].
  set (I := hmac_sha512 (ExtendedKey.chain_code parent) (pk ++ ib)).
  set (IL := bytes2int (slice 0 32 I)).
  destruct (multiply_total G IL G_on_secp256k1 G_reduced)
    as (GL & EGL & HGL & RGL).
  unfold ECPoint.__mul__. rewrite EGL. cbn [bind].
  destruct (add_op_total GL K HGL RGL HK RK) as (K_i & EK & HKi & RKi).
  rewrite EK. cbn [bind].
  destruct (IL >=? SECP256K1_ORDER); [discriminate|]. cbn [orb].
  destruct (ECPoint.__eq__ K_i ECPoint.infinity) eqn:Einf; [discriminate|].
  intros [= <-]. eexists _, _, _. split; [reflexivity|].
  repeat split; try assumption; try lia.
  - apply hmac_sha512_halves.
  - apply get_fingerprint_length.
Qed.

Lemma serialize_level_overflow (node : ExtendedKey.t) :
  ExtendedKey.key node <> ExtendedKey.KeyOther ->
  ExtendedKey.level node < 0 \/ 256 <= ExtendedKey.level node ->
  ExtendedKey.serialize node = Raise OverflowError.
Proof.
  intros Hkey Hl. unfold ExtendedKey.serialize.
  assert (E : int2bytes (ExtendedKey.level node) (Some 1%nat) =
              Raise OverflowError).
  { cbn [int2bytes]. unfold int_to_bytes.
    change (256 ^ Z.of_nat 1) with 256.
    destruct (Z.ltb_spec (ExtendedKey.level node) 0); [reflexivity|].
    destruct (Z.leb_spec 256 (ExtendedKey.level node)); [reflexivity|lia]. }
  destruct (ExtendedKey.key node); [| |contradiction];
    rewrite E; reflexivity.
Qed.

(** X22.  The child that [prv_to_child] or [pub_to_child] returns for a
    well-formed parent is one level down, of the kind of its parent and
    has the index asked for.  Up to the parent level 254 it is
    well-formed again, and [serialize] and [deserialize] carry it there
    and back; the child of a parent at level 255 has the level 256,
    which [serialize] cannot write in one byte: it raises
    [OverflowError]. *)
Theorem children_well_formed (parent child self0 : ExtendedKey.t) (index : Z) :
  well_formed parent = true ->
  BIP32.prv_to_child (BIP32.VKey parent) index = Ok child \/
  BIP32.pub_to_child (BIP32.VKey parent) index = Ok child ->
  ExtendedKey.level child = ExtendedKey.level parent + 1 /\
  ExtendedKey.index child = index /\
  ExtendedKey.is_private child = ExtendedKey.is_private parent /\
  if ExtendedKey.level parent <? 255
  then well_formed child = true /\
       exists s : string,
         ExtendedKey.serialize child = Ok s /\
         ExtendedKey.deserialize self0 s = Ok child
  else ExtendedKey.serialize child = Raise OverflowError.
Proof.
  intros Hwf Hchild.
  pose proof Hwf as Hwf'. unfold well_formed in Hwf'.
  rewrite !andb_true_iff in Hwf'.
  destruct Hwf' as [[[[[[Hkey _] Hl0] Hl1] _] _] _].
  apply Z.leb_le in Hl0. apply Z.ltb_lt in Hl1.
  assert (Hshape : exists (key : ExtendedKey.key_value) (cc fp : bytes),
             child = ExtendedKey.mk key cc (ExtendedKey.level parent + 1)
                       index fp /\
             ExtendedKey.is_private child = ExtendedKey.is_private parent /\
             match key with
             | ExtendedKey.KeyBytes k => List.length k = 32%nat
             | ExtendedKey.KeyPoint K =>
                 on_secp256k1 K = true /\ reduced K = true /\
                 ECPoint.__eq__ K ECPoint.infinity = false
             | ExtendedKey.KeyOther => False
             end /\
             List.length cc = 32%nat /\ List.length fp = 4%nat /\
             0 <= index < 2 ^ 32).
  { destruct (ExtendedKey.key parent) as [k|K|] eqn:Ek; [| |discriminate].
    - destruct Hchild as [H|H].
      + destruct (prv_to_child_inv parent child k index Ek H)
          as (kb & cc & fp & -> & Hkb & Hcc & Hfp & Hidx).
        exists (ExtendedKey.KeyBytes kb), cc, fp.
        unfold ExtendedKey.is_private. rewrite Ek. cbn [ExtendedKey.key].
        repeat split; solve [assumption | reflexivity | lia].
      + exfalso. revert H. unfold BIP32.pub_to_child.
        destruct (index >=? 2 ^ 31); [discriminate|].
        destruct (int2bytes index (Some 4%nat)); [|discriminate].
        cbn [bind]. rewrite Ek. discriminate.
    - rewrite !andb_true_iff in Hkey. destruct Hkey as [[HK RK] _].
      destruct Hchild as [H|H].
      + exfalso. revert H. unfold BIP32.prv_to_child. rewrite Ek.
        discriminate.
      + destruct (pub_to_child_inv parent child K index Ek HK RK H)
          as (K_i & cc & fp & -> & HKi & RKi & Einf & Hcc & Hfp & Hidx).
        exists (ExtendedKey.KeyPoint K_i), cc, fp.
        unfold ExtendedKey.is_private. rewrite Ek. cbn [ExtendedKey.key].
        repeat split; solve [assumption | reflexivity | lia]. }
  destruct Hshape as (key & cc & fp & -> & Hpriv & Hk & Hcc & Hfp & Hidx).
  cbn [ExtendedKey.level ExtendedKey.index].
  split; [reflexivity|]. split; [reflexivity|]. split; [exact Hpriv|].
  destruct (Z.ltb_spec (ExtendedKey.level parent) 255) as [Hlt|Hge].
  - assert (W : well_formed
                  (ExtendedKey.mk key cc (ExtendedKey.level parent + 1)
                     index fp) = true)
      by (apply well_formed_intro; try assumption; lia).
    split; [exact W|]. apply well_formed_roundtrip. exact W.
  - apply serialize_level_overflow; cbn [ExtendedKey.key ExtendedKey.level].
    + destruct key; [discriminate|discriminate|contradiction].
    + lia.
Qed.

(** X23.  What [serialize] raises: [ValueError] for a key that is
    neither [bytes] nor a point; otherwise [OverflowError] for a level
    outside [0, 256) and, the level being right, for an index outside
    [0, 2^32). *)
Theorem serialize_errors (node : ExtendedKey.t) :
  (ExtendedKey.key node = ExtendedKey.KeyOther ->
   ExtendedKey.serialize node = Raise (ValueError "Invalid extended key")) /\
  (ExtendedKey.key node <> ExtendedKey.KeyOther ->
   ExtendedKey.level node < 0 \/ 256 <= ExtendedKey.level node ->
   ExtendedKey.serialize node = Raise OverflowError) /\
  (ExtendedKey.key node <> ExtendedKey.KeyOther ->
   0 <= ExtendedKey.level node < 256 ->
   ExtendedKey.index node < 0 \/ 2 ^ 32 <= ExtendedKey.index node ->
   ExtendedKey.serialize node = Raise OverflowError).
Proof.
  split; [|split].
  - intros Ek. unfold ExtendedKey.serialize. rewrite Ek. reflexivity.
  - apply serialize_level_overflow.
  - intros Hk Hl Hi. unfold ExtendedKey.serialize.
    assert (E1 : int2bytes (ExtendedKey.level node) (Some 1%nat) =
                 Ok (to_bytes_be 1 (ExtendedKey.level node))).
    { apply int_to_bytes_ok. change (256 ^ Z.of_nat 1) with 256. lia. }
    assert (E4 : int2bytes (ExtendedKey.index node) (Some 4%nat) =
                 Raise OverflowError).
    { cbn [int2bytes]. unfold int_to_bytes.
      change (256 ^ Z.of_nat 4) with (2 ^ 32).
      destruct (Z.ltb_spec (ExtendedKey.index node) 0); [reflexivity|].
      destruct (Z.leb_spec (2 ^ 32) (ExtendedKey.index node));
        [reflexivity|lia]. }
    destruct (ExtendedKey.key node); [| |contradiction];
      rewrite E1, E4; reflexivity.
Qed.

(** X24.  [deserialize] checks what it reads: on the Base58 string of
    78 bytes and 4 more that are not the first bytes of their double
    SHA-256 it raises the [ValueError] of a wrong checksum, and with the
    right checksum it raises the [ValueError] of an invalid key when the
    version bytes are neither [0488ade4] nor [0488b21e] -- those of the
    test network, for example. *)
Theorem deserialize_rejects (self0 : ExtendedKey.t) (payload t : bytes) :
  List.length payload = 78%nat -> List.length t = 4%nat ->
  (t <> slice 0 4 (sha256 (sha256 payload)) ->
   ExtendedKey.deserialize self0 (base58_encode (payload ++ t)) =
   Raise (ValueError
            ("Wrong checksum of the extended key: " ++ hex (payload ++ t)))) /\
  (t = slice 0 4 (sha256 (sha256 payload)) ->
   firstn 4 payload <> MAINNET_PRIVATE ->
   firstn 4 payload <> MAINNET_PUBLIC ->
   ExtendedKey.deserialize self0 (base58_encode (payload ++ t)) =
   Raise (ValueError
            ("Invalid serialized extended key: " ++ hex (payload ++ t)))).
Proof.
  intros Hp Ht.
  assert (E1 : slice 0 78 (payload ++ t) = payload).
  { apply (slice_app_mid [] payload t); [reflexivity|].
    rewrite Hp. reflexivity. }
  assert (E2 : skipn 78 (payload ++ t) = t).
  { rewrite <- Hp, skipn_app, skipn_all, Nat.sub_diag. reflexivity. }
  assert (E3 : slice 0 4 (payload ++ t) = firstn 4 payload).
  { unfold slice. change (skipn 0 (payload ++ t)) with (payload ++ t).
    change (4 - 0)%nat with 4%nat. rewrite firstn_app, Hp.
    change (4 - 78)%nat with 0%nat. cbn [firstn]. apply app_nil_r. }
  unfold ExtendedKey.deserialize.
  rewrite base58_roundtrip_82 by (rewrite length_app, Hp, Ht; reflexivity).
  cbn [bind]. rewrite E1, E2, E3. split.
  - intros Hne. rewrite bytes_eqb_neq by congruence. reflexivity.
  - intros -> H1 H2. rewrite bytes_eqb_refl. cbn [negb].
    rewrite (bytes_eqb_neq _ _ H1), (bytes_eqb_neq _ _ H2). reflexivity.
Qed.


(** *** The key path *)

Lemma try_child_none (derive : BIP32.value -> Z -> result ExtendedKey.t)
  (index : Z) :
  BIP32.try_child derive BIP32.VNone index = Ok BIP32.VNone.
Proof. reflexivity. Qed.

Lemma build_loop_invariants (indexes : list Z) :
  forall (prv pub : BIP32.value) (path path' : list BIP32.couple),
    BIP32.build_loop indexes prv pub path = (path', Ok tt) ->
    exists ext : list BIP32.couple,
      path' = path ++ ext /\ List.length ext = List.length indexes /\
      (prv = BIP32.VNone ->
       Forall (fun c => BIP32.private c = BIP32.VNone) ext) /\
      (pub = BIP32.VNone ->
       Forall (fun c => BIP32.public c = BIP32.VNone) ext).
Proof.
  induction indexes as [|index rest IH]; intros prv pub path path';
    cbn [BIP32.build_loop].
  - intros [= <-]. exists []. rewrite app_nil_r.
    repeat split; constructor.
  - destruct (BIP32.try_child BIP32.prv_to_child prv index) as [prv'|e] eqn:E1;
      [|discriminate].
    destruct (BIP32.try_child BIP32.pub_to_child pub index) as [pub'|e] eqn:E2;
      [|discriminate].
    intros H. destruct (IH _ _ _ _ H) as (ext & -> & Hlen & Hprv & Hpub).
    exists (BIP32.mk_couple prv' pub' :: ext).
    split; [rewrite <- app_assoc; reflexivity|].
    split; [cbn [List.length]; congruence|]. split.
    + intros ->. rewrite try_child_none in E1. injection E1 as <-.
      constructor; [reflexivity|]. apply Hprv. reflexivity.
    + intros ->. rewrite try_child_none in E2. injection E2 as <-.
      constructor; [reflexivity|]. apply Hpub. reflexivity.
Qed.

(** X25.  When [build_keys_path] returns, [keys_path] starts with the
    couple of the master keys and has one couple more than the path has
    indices; the master keys are unchanged; and with a public-only
    master every private entry is [None]. *)
Theorem build_keys_path_invariants (self self' : BIP32.t)
  (indexes : option (list Z)) :
  BIP32.build_keys_path self indexes = (self', Ok tt) ->
  BIP32.master_prv self' = BIP32.master_prv self /\
  BIP32.master_pub self' = BIP32.master_pub self /\
  BIP32.level_indexes self' =
  match indexes with
  | None | Some [] => BIP32.level_indexes self
  | Some l => l
  end /\
  List.length (BIP32.keys_path self') =
  S (List.length (BIP32.level_indexes self')) /\
  hd_error (BIP32.keys_path self') =
  Some (BIP32.mk_couple (BIP32.master_prv self) (BIP32.master_pub self)) /\
  (BIP32.master_prv self = BIP32.VNone ->
   Forall (fun c => BIP32.private c = BIP32.VNone) (BIP32.keys_path self')).
Proof.
  unfold BIP32.build_keys_path.
  set (idx := match indexes with
              | None | Some [] => BIP32.level_indexes self
              | Some l => l
              end).
  destruct (BIP32.build_loop idx _ _ _) as [path r] eqn:E.
  intros [= <- ->].
  destruct (build_loop_invariants _ _ _ _ _ E) as (ext & -> & Hlen & Hprv & _).
  cbn [BIP32.master_prv BIP32.master_pub BIP32.level_indexes BIP32.keys_path].
  split; [reflexivity|]. split; [reflexivity|]. split; [reflexivity|].
  split; [cbn [app List.length]; congruence|]. split; [reflexivity|].
  intros Hn. cbn [app]. constructor; [exact Hn|]. apply Hprv. exact Hn.
Qed.

(** X26.  After a derivation has failed, the text left in [keys_path]
    is taken for the parent of the next step.  From a public-only
    master, on a path that goes on with a normal index behind a
    hardened one, [build_keys_path] raises [AttributeError]; and after
    a path that ends with a hardened index, [ckd_pub] raises it for a
    normal index, as [ckd_priv] does for every index, having no private
    key at all. *)
Theorem derivation_after_failure (master : ExtendedKey.t) (K : ECPoint.t)
  (h i j : Z) (rest more : list Z) :
  ExtendedKey.key master = ExtendedKey.KeyPoint K ->
  2 ^ 31 <= h -> 0 <= i < 2 ^ 31 ->
  (exists self : BIP32.t,
     BIP32.__init__ master (Some (h :: i :: rest)) = Ok self /\
     BIP32.build_keys_path self None =
     (BIP32.mk BIP32.VNone (BIP32.VKey master) (h :: i :: rest)
        [BIP32.mk_couple BIP32.VNone (BIP32.VKey master);
         BIP32.mk_couple BIP32.VNone (BIP32.VStr BIP32.hardened_message)],
      Raise AttributeError)) /\
  (exists self : BIP32.t,
     BIP32.__init__ master (Some [h]) = Ok self /\
     snd (BIP32.build_keys_path self None) = Ok tt /\
     snd (BIP32.ckd_pub self (i :: more)) = Raise AttributeError /\
     snd (BIP32.ckd_priv self (j :: more)) = Raise AttributeError).
Proof.
  intros Hkey Hh Hi.
  assert (Eh : BIP32.pub_to_child (BIP32.VKey master) h =
               Raise (ValueError BIP32.hardened_message))
    by (apply pub_to_child_hardened; exact Hh).
  assert (Ei : BIP32.pub_to_child (BIP32.VStr BIP32.hardened_message) i =
               Raise AttributeError).
  { unfold BIP32.pub_to_child.
    destruct (Z.geb_spec i (2 ^ 31)); [lia|].
    unfold int2bytes.
    rewrite int_to_bytes_ok by (change (256 ^ Z.of_nat 4) with (2 ^ 32); lia).
    reflexivity. }
  split.
  - eexists. unfold BIP32.__init__. rewrite Hkey. split; [reflexivity|].
    unfold BIP32.build_keys_path.
    cbn [BIP32.level_indexes BIP32.master_prv BIP32.master_pub].
    cbn [BIP32.build_loop BIP32.try_child]. rewrite Eh.
    cbn [BIP32.build_loop BIP32.try_child]. rewrite Ei. reflexivity.
  - eexists. unfold BIP32.__init__. rewrite Hkey. split; [reflexivity|].
    assert (Eb : BIP32.build_keys_path
                   (BIP32.mk BIP32.VNone (BIP32.VKey master) [h] []) None =
                 (BIP32.mk BIP32.VNone (BIP32.VKey master) [h]
                    [BIP32.mk_couple BIP32.VNone (BIP32.VKey master);
                     BIP32.mk_couple BIP32.VNone
                       (BIP32.VStr BIP32.hardened_message)], Ok tt)).
    { unfold BIP32.build_keys_path.
      cbn [BIP32.level_indexes BIP32.master_prv BIP32.master_pub].
      cbn [BIP32.build_loop BIP32.try_child]. rewrite Eh. reflexivity. }
    split; [rewrite Eb; reflexivity|]. split.
    + unfold BIP32.ckd_pub. rewrite Eb. cbn [snd].
      unfold BIP32.last_couple. cbn [BIP32.keys_path last BIP32.public].
      cbn [BIP32.derive_all]. rewrite Ei. reflexivity.
    + unfold BIP32.ckd_priv. rewrite Eb. cbn [snd].
      unfold BIP32.last_couple. cbn [BIP32.keys_path last BIP32.private].
      reflexivity.
Qed.

End Bip32.

Lemma prv_to_child_spec_witness :
  let hashlib := fixed_hashlib x01 in
  let parent :=
    ExtendedKey.mk (ExtendedKey.KeyBytes (repeat x00 31 ++ [x01]))
      (repeat x00 32) 0 0 [x00; x00; x00; x00] in
  BIP32.prv_to_child (BIP32.VKey parent) (2 ^ 31) =
  Ok (ExtendedKey.mk (ExtendedKey.KeyBytes (repeat x00 31 ++ [x02]))
        (repeat x00 31 ++ [x01]) 1 (2 ^ 31)
        (ExtendedKey.get_fingerprint ([x02] ++ to_bytes_be 32 SECP256K1_GX))).
Proof.
  intros hashlib parent.
  destruct (@prv_to_child_spec hashlib parent (repeat x00 31 ++ [x01])
              (2 ^ 31) eq_refl eq_refl ltac:(lia))
    as (P & pk & EP & Epk & E & _).
  vm_compute in EP. injection EP as <-.
  vm_compute in Epk. injection Epk as <-.
  rewrite E. reflexivity.
Defined.

Lemma children_well_formed_witness :
  let hashlib := fixed_hashlib x01 in
  let parent :=
    ExtendedKey.mk (ExtendedKey.KeyBytes (repeat x00 31 ++ [x01]))
      (repeat x00 32) 0 0 [x00; x00; x00; x00] in
  let child :=
    ExtendedKey.mk (ExtendedKey.KeyBytes (repeat x00 31 ++ [x02]))
      (repeat x00 31 ++ [x01]) 1 (2 ^ 31)
      (ExtendedKey.get_fingerprint ([x02] ++ to_bytes_be 32 SECP256K1_GX)) in
  BIP32.prv_to_child (BIP32.VKey parent) (2 ^ 31) = Ok child /\
  well_formed child = true.
Proof.
  intros hashlib parent child.
  assert (E : BIP32.prv_to_child (BIP32.VKey parent) (2 ^ 31) = Ok child)
    by (vm_compute; reflexivity).
  split; [exact E|].
  destruct (@children_well_formed hashlib parent child parent (2 ^ 31)
              eq_refl (or_introl E)) as (_ & _ & _ & H).
  exact (proj1 H).
Defined.

Lemma deserialize_rejects_witness :
  let hashlib := fixed_hashlib x01 in
  let self0 := ExtendedKey.mk ExtendedKey.KeyOther [] 0 0 [] in
  let payload := TESTNET_PUBLIC ++ repeat x00 74 in
  ExtendedKey.deserialize self0
    (base58_encode (payload ++ [x00; x00; x00; x00])) =
  Raise (ValueError
           ("Invalid serialized extended key: " ++
            hex (payload ++ [x00; x00; x00; x00]))).
Proof.
  intros hashlib self0 payload.
  apply (@deserialize_rejects hashlib self0 payload [x00; x00; x00; x00]
           eq_refl eq_refl); [reflexivity|discriminate|discriminate].
Defined.

Lemma build_keys_path_invariants_witness :
  let hashlib := fixed_hashlib x01 in
  let master :=
    ExtendedKey.mk (ExtendedKey.KeyPoint G) (repeat x00 32) 0 0
      [x00; x00; x00; x00] in
  let self := BIP32.mk BIP32.VNone (BIP32.VKey master) [2 ^ 31; 2 ^ 31] [] in
  exists self' : BIP32.t,
    BIP32.build_keys_path self None = (self', Ok tt) /\
    List.length (BIP32.keys_path self') = 3%nat /\
    Forall (fun c => BIP32.private c = BIP32.VNone) (BIP32.keys_path self').
Proof.
  intros hashlib master self. eexists.
  assert (E : BIP32.build_keys_path self None =
              (BIP32.mk BIP32.VNone (BIP32.VKey master) [2 ^ 31; 2 ^ 31]
                 [BIP32.mk_couple BIP32.VNone (BIP32.VKey master);
                  BIP32.mk_couple BIP32.VNone
                    (BIP32.VStr BIP32.hardened_message);
                  BIP32.mk_couple BIP32.VNone
                    (BIP32.VStr BIP32.hardened_message)], Ok tt))
    by reflexivity.
  split; [exact E|].
  destruct (@build_keys_path_invariants hashlib self _ None E)
    as (_ & _ & _ & Hlen & _ & Hall).
  split; [exact Hlen|]. apply Hall. reflexivity.
Defined.

Lemma derivation_after_failure_witness :
  let hashlib := fixed_hashlib x01 in
  let master :=
    ExtendedKey.mk (ExtendedKey.KeyPoint G) (repeat x00 32) 0 0
      [x00; x00; x00; x00] in
  exists self : BIP32.t,
    BIP32.__init__ master (Some [2 ^ 31; 0]) = Ok self /\
    snd (BIP32.build_keys_path self None) = Raise AttributeError.
Proof.
  intros hashlib master.
  destruct (@derivation_after_failure hashlib master G (2 ^ 31) 0 0 [] []
              eq_refl ltac:(lia) ltac:(lia))
    as [(self & E1 & E2) _].
  exists self. split; [exact E1|]. rewrite E2. reflexivity.
Defined.

(** ** btc/randoms.py *)

Lemma pow_256_2 (n : nat) : 256 ^ Z.of_nat n = 2 ^ (8 * Z.of_nat n).
Proof. change 256 with (2 ^ 8). rewrite <- Z.pow_mul_r by lia. reflexivity. Qed.

Lemma rlen_bounds (q : Z) :
  RFC6979.qlen q <= RFC6979.rlen q /\ RFC6979.rlen q mod 8 = 0 /\
  0 <= RFC6979.rlen q / 8.
Proof.
  unfold RFC6979.rlen, RFC6979.qlen.
  pose proof (bit_length_nonneg q) as H.
  pose proof (Z.div_mod (bit_length q + 7) 8 ltac:(lia)) as D.
  pose proof (Z.mod_pos_bound (bit_length q + 7) 8 ltac:(lia)) as B.
  split; [lia|]. split.
  - rewrite Z.mul_comm. apply Z.mod_mul. lia.
  - rewrite Z.mul_comm, Z.div_mul by lia. apply Z.div_pos; lia.
Qed.

Lemma int2octets_ok (q x : Z) :
  0 <= x < 2 ^ RFC6979.rlen q ->
  RFC6979.int2octets q x = Ok (to_bytes_be (Z.to_nat (RFC6979.rlen q / 8)) x).
Proof.
  intros Hx. unfold RFC6979.int2octets. apply int_to_bytes_ok.
  destruct (rlen_bounds q) as (_ & Hm & H0).
  rewrite pow_256_2, Z2Nat.id by exact H0.
  replace (8 * (RFC6979.rlen q / 8)) with (RFC6979.rlen q); [exact Hx|].
  pose proof (Z.div_mod (RFC6979.rlen q) 8 ltac:(lia)). lia.
Qed.

(** X27.  The conversions of RFC 6979 keep their sizes, for a positive
    [q]: [bits2int] gives a number below [2^qlen], as its docstring
    asks; [int2octets] of a number below [q] and [bits2octets] of any
    bytes return [rlen / 8] bytes, which stand for that number and for
    [bits2int(b) mod q]. *)
Theorem rfc6979_conversions (q : Z) (b : bytes) :
  0 < q ->
  0 <= RFC6979.bits2int q b < 2 ^ RFC6979.qlen q /\
  (exists o : bytes,
     RFC6979.bits2octets q b = Ok o /\
     List.length o = Z.to_nat (RFC6979.rlen q / 8) /\
     bytes2int o = RFC6979.bits2int q b mod q) /\
  (forall x : Z,
     0 <= x < q ->
     exists o : bytes,
       RFC6979.int2octets q x = Ok o /\
       List.length o = Z.to_nat (RFC6979.rlen q / 8) /\
       bytes2int o = x).
Proof.
  intros Hq.
  destruct (rlen_bounds q) as (Hqr & Hm & H0).
  assert (Hql : 0 <= RFC6979.qlen q) by apply bit_length_nonneg.
  assert (Hq2 : q < 2 ^ RFC6979.rlen q).
  { pose proof (bit_length_bound q ltac:(lia)) as B.
    fold (RFC6979.qlen q) in B.
    assert (2 ^ RFC6979.qlen q <= 2 ^ RFC6979.rlen q)
      by (apply Z.pow_le_mono_r; lia).
    lia. }
  assert (Hoct : forall x : Z,
            0 <= x < q ->
            exists o : bytes,
              RFC6979.int2octets q x = Ok o /\
              List.length o = Z.to_nat (RFC6979.rlen q / 8) /\
              bytes2int o = x).
  { intros x Hx. eexists. split; [apply int2octets_ok; lia|].
    split; [apply to_bytes_be_length|].
    apply bytes2int_to_bytes_be.
    rewrite pow_256_2, Z2Nat.id by exact H0.
    replace (8 * (RFC6979.rlen q / 8)) with (RFC6979.rlen q); [lia|].
    pose proof (Z.div_mod (RFC6979.rlen q) 8 ltac:(lia)). lia. }
  split; [|split; [|exact Hoct]].
  - unfold RFC6979.bits2int.
    pose proof (bytes2int_range b) as Hb. rewrite pow_256_2 in Hb.
    replace (8 * Z.of_nat (List.length b))
      with (Z.of_nat (List.length b) * 8) in Hb by ring.
    set (blen := Z.of_nat (List.length b) * 8) in *.
    destruct (Z.ltb_spec (RFC6979.qlen q) blen) as [Hlt|Hge].
    + rewrite Z.shiftr_div_pow2 by lia. split.
      * apply Z.div_pos; [lia|]. apply Z.pow_pos_nonneg; lia.
      * apply Z.div_lt_upper_bound; [apply Z.pow_pos_nonneg; lia|].
        rewrite <- Z.pow_add_r by lia.
        replace (blen - RFC6979.qlen q + RFC6979.qlen q) with blen by ring.
        lia.
    + split; [lia|].
      assert (2 ^ blen <= 2 ^ RFC6979.qlen q)
        by (apply Z.pow_le_mono_r; lia).
      lia.
  - unfold RFC6979.bits2octets.
    destruct (Z.eqb_spec q 0); [lia|].
    destruct (Hoct (RFC6979.bits2int q b mod q)
                (Z.mod_pos_bound _ q Hq)) as (o & Eo & Lo & Vo).
    rewrite Eo. cbn [bind]. eexists. split; [reflexivity|].
    rewrite Lo, Z2Nat.id, Z.sub_diag by exact H0.
    cbn [Z.to_nat repeat app]. split; assumption.
Qed.

Lemma rfc6979_conversions_witness :
  0 <= RFC6979.bits2int SECP256K1_ORDER (repeat xff 33)
    < 2 ^ RFC6979.qlen SECP256K1_ORDER /\
  RFC6979.qlen SECP256K1_ORDER = 256.
Proof.
  split; [|reflexivity].
  apply (rfc6979_conversions SECP256K1_ORDER (repeat xff 33)). reflexivity.
Defined.

Lemma rfc6979_bits2octets (q : Z) (b : bytes) :
  0 < q -> exists o : bytes, RFC6979.bits2octets q b = Ok o.
Proof.
  intros Hq. unfold RFC6979.bits2octets.
  destruct (Z.eqb_spec q 0); [lia|].
  destruct (rlen_bounds q) as (Hqr & _ & _).
  pose proof (bit_length_bound q ltac:(lia)) as B.
  fold (RFC6979.qlen q) in B.
  assert (2 ^ RFC6979.qlen q <= 2 ^ RFC6979.rlen q)
    by (apply Z.pow_le_mono_r; [lia|exact Hqr]).
  pose proof (Z.mod_pos_bound (RFC6979.bits2int q b) q Hq).
  rewrite int2octets_ok by lia. cbn [bind]. eexists. reflexivity.
Qed.

Section Nonce.
Context {hashlib : Hashlib}.

Lemma step_h_S (q : Z) (g : option ECPoint.t) (sha_type : string)
  (f : nat) (k v : bytes) :
  RFC6979.step_h q g sha_type (S f) k v =
  match RFC6979.fill q sha_type (RFC6979.fill_fuel q) k v [] with
  | None => None
  | Some (Raise e) => Some (Raise e)
  | Some (Ok (v1, t)) =>
      let kk := RFC6979.bits2int q t in
      let retry :=
        match hmac_sha k (v1 ++ [x00]) sha_type with
        | Raise e => Some (Raise e)
        | Ok k' =>
            match hmac_sha k' v1 sha_type with
            | Raise e => Some (Raise e)
            | Ok v' => RFC6979.step_h q g sha_type f k' v'
            end
        end in
      if (1 <=? kk) && (kk <? q) then
        match RFC6979.test_suitable g kk with
        | Raise e => Some (Raise e)
        | Ok true => Some (Ok kk)
        | Ok false => retry
        end
      else retry
  end.
Proof. reflexivity. Qed.

Lemma step_h_more (q : Z) (g : option ECPoint.t) (sha_type : string)
  (fuel : nat) :
  forall (k v : bytes) (r : result Z),
    RFC6979.step_h q g sha_type fuel k v = Some r ->
    RFC6979.step_h q g sha_type (S fuel) k v = Some r.
Proof.
  induction fuel as [|f IH]; intros k v r H; [discriminate|].
  rewrite step_h_S in H. rewrite step_h_S.
  destruct (RFC6979.fill q sha_type (RFC6979.fill_fuel q) k v [])
    as [[[v1 t]|e]|]; try exact H.
  cbv zeta in H |- *.
  assert (Hretry :
    match hmac_sha k (v1 ++ [x00]) sha_type with
    | Raise e => Some (Raise e)
    | Ok k' =>
        match hmac_sha k' v1 sha_type with
        | Raise e => Some (Raise e)
        | Ok v' => RFC6979.step_h q g sha_type f k' v'
        end
    end = Some r ->
    match hmac_sha k (v1 ++ [x00]) sha_type with
    | Raise e => Some (Raise e)
    | Ok k' =>
        match hmac_sha k' v1 sha_type with
        | Raise e => Some (Raise e)
        | Ok v' => RFC6979.step_h q g sha_type (S f) k' v'
        end
    end = Some r).
  { destruct (hmac_sha k (v1 ++ [x00]) sha_type) as [k'|e]; [|trivial].
    destruct (hmac_sha k' v1 sha_type) as [v'|e]; [|trivial].
    apply IH. }
  destruct ((1 <=? RFC6979.bits2int q t) && (RFC6979.bits2int q t <? q));
    [|exact (Hretry H)].
  destruct (RFC6979.test_suitable g (RFC6979.bits2int q t)) as [[|]|e];
    try exact H. exact (Hretry H).
Qed.

(** X28.  What [random_rfc6979] returns passed both tests of its loop:
    [1 <= k < q], and [k] times the generator point, when one is given,
    has an [x] other than 0.  The nonce is the first candidate that
    passes: a longer run of the loop returns the same. *)
Theorem random_rfc6979_result (q : Z) (g : option ECPoint.t)
  (sha_type : string) (fuel : nat) (message : bytes) (x k : Z) :
  RFC6979.random_rfc6979 q g sha_type fuel message x = Some (Ok k) ->
  1 <= k < q /\
  RFC6979.test_suitable g k = Ok true /\
  (forall C : ECPoint.t,
     g = Some C -> exists R : ECPoint.t,
       ECPoint.multiply C k = Ok R /\ ECPoint.x R <> 0) /\
  (forall more : nat,
     RFC6979.random_rfc6979 q g sha_type (more + fuel) message x =
     Some (Ok k)).
Proof.
  intros H. pose proof H as H'. unfold RFC6979.random_rfc6979 in H'.
  destruct (RFC6979.steps_a_g q sha_type message x) as [[k0 v0]|e] eqn:Es;
    [|discriminate].
  destruct (step_h_inv _ _ _ _ _ _ _ H') as [Rk Hs].
  split; [exact Rk|]. split; [exact Hs|]. split.
  - intros C ->. cbn [RFC6979.test_suitable] in Hs.
    unfold ECPoint.__mul__ in Hs.
    destruct (ECPoint.multiply C k) as [R|e]; [|discriminate].
    cbn [bind] in Hs. injection Hs as Hs. apply negb_true_iff in Hs.
    apply Z.eqb_neq in Hs. exists R. split; [reflexivity|exact Hs].
  - intros more. unfold RFC6979.random_rfc6979. rewrite Es.
    induction more as [|m IH]; [exact H'|].
    apply step_h_more. exact IH.
Qed.

(** *** [sign] and the exceptions of its nonce *)

Lemma hmac_sha_256 (k v : bytes) :
  hmac_sha k v "256" = Ok (hmac_digest SHA256 k v).
Proof. reflexivity. Qed.

Lemma fill_no_raise (q : Z) (fuel : nat) :
  forall (k v t : bytes) (e : exn),
    RFC6979.fill q "256" fuel k v t <> Some (Raise e).
Proof.
  induction fuel as [|f IH]; intros k v t e; cbn [RFC6979.fill];
    destruct (_ <? _); try discriminate.
  rewrite hmac_sha_256. apply IH.
Qed.

Lemma step_h_no_raise (fuel : nat) :
  forall (k v : bytes) (e : exn),
    RFC6979.step_h SECP256K1_ORDER (Some G) "256" fuel k v <> Some (Raise e).
Proof.
  induction fuel as [|f IH]; intros k v e; [discriminate|].
  cbn [RFC6979.step_h].
  destruct (RFC6979.fill SECP256K1_ORDER "256"
              (RFC6979.fill_fuel SECP256K1_ORDER) k v [])
    as [[[v1 t]|e']|] eqn:Ef; [| |discriminate].
  2:{ exfalso. exact (fill_no_raise _ _ _ _ _ _ Ef). }
  rewrite !hmac_sha_256.
  destruct ((1 <=? _) && (_ <? _)); [|apply IH].
  cbn [RFC6979.test_suitable].
  destruct (multiply_total G (RFC6979.bits2int SECP256K1_ORDER t)
              G_on_secp256k1 G_reduced) as (C & EC & _ & _).
  unfold ECPoint.__mul__. rewrite EC. cbn [bind].
  destruct (negb (ECPoint.x C =? 0)); [discriminate|apply IH].
Qed.

Lemma rlen_secp256k1 : RFC6979.rlen SECP256K1_ORDER = 256.
Proof. reflexivity. Qed.

(** X29.  [sign] raises nothing for a private key whose number is below
    [2^256], one of at most 32 bytes for example: if its loop ends, it
    returns two strings of 32 bytes.  For a larger key the conversion
    of the key to 32 octets, at the start of the derivation of the nonce,
    raises [OverflowError]. *)
Theorem sign_exceptions (fuel : nat) (self : KeysBTC.t) (hash : bytes) :
  (KeysBTC.get_private_key_int self < 2 ^ 256 ->
   KeysBTC.sign fuel self hash = None \/
   exists r s : bytes,
     KeysBTC.sign fuel self hash = Some (Ok (r, s)) /\
     List.length r = 32%nat /\ List.length s = 32%nat) /\
  (2 ^ 256 <= KeysBTC.get_private_key_int self ->
   KeysBTC.sign fuel self hash = Some (Raise OverflowError)).
Proof.
  set (d := KeysBTC.get_private_key_int self).
  assert (Hd : 0 <= d) by apply bytes2int_range.
  split.
  - intros Hlt. unfold KeysBTC.sign. rewrite get_generator_point_G. fold d.
    destruct (RFC6979.random_rfc6979 SECP256K1_ORDER (Some G) "256" fuel hash d)
      as [[k|e]|] eqn:Ek; [| |left; reflexivity].
    + right.
      pose proof Ek as Ek'. unfold RFC6979.random_rfc6979 in Ek'.
      destruct (RFC6979.steps_a_g _ _ _ _) as [[k0 v0]|e]; [|discriminate].
      destruct (step_h_inv _ _ _ _ _ _ _ Ek') as [Rk _].
      destruct (multiply_total G k G_on_secp256k1 G_reduced)
        as (C & EC & HC & RC).
      destruct (mod_inverse_prime k SECP256K1_ORDER SECP256K1_ORDER_prime
                  ltac:(lia)) as (w & Ew & _).
      destruct (on_secp256k1_inv C HC) as (_ & _ & Hp & _).
      destruct (reduced_inv C RC) as [RCx _]. rewrite Hp in RCx.
      cbn [bind]. unfold ECPoint.__mul__. rewrite EC. cbn [bind].
      rewrite Ew. cbn [bind]. rewrite int2bytes32_ok by exact RCx.
      cbn [bind]. unfold int2bytes32, int2bytes.
      rewrite int_to_bytes_ok.
      * cbn [bind]. eexists _, _. split; [reflexivity|].
        split; apply to_bytes_be_length.
      * pose proof SECP256K1_ORDER_lt_2_256.
        match goal with
        | |- 0 <= ?a mod _ < _ =>
            pose proof (Z.mod_pos_bound a SECP256K1_ORDER eq_refl)
        end. lia.
    + exfalso. unfold RFC6979.random_rfc6979 in Ek.
      assert (Es : exists kv, RFC6979.steps_a_g SECP256K1_ORDER "256" hash d
                              = Ok kv).
      { unfold RFC6979.steps_a_g.
        change (sha hash "256") with (Ok (hashlib_digest SHA256 hash)).
        cbn [bind]. rewrite int2octets_ok
          by (rewrite rlen_secp256k1; lia).
        cbn [bind].
        destruct (rfc6979_bits2octets SECP256K1_ORDER
                    (hashlib_digest SHA256 hash) eq_refl) as (o & Eo).
        rewrite Eo. cbn [bind]. rewrite !hmac_sha_256. cbn [bind].
        eexists. reflexivity. }
      destruct Es as [[k0 v0] Es]. rewrite Es in Ek.
      exact (step_h_no_raise _ _ _ _ Ek).
  - intros Hge. unfold KeysBTC.sign. rewrite get_generator_point_G. fold d.
    assert (Er : RFC6979.random_rfc6979 SECP256K1_ORDER (Some G) "256" fuel
                   hash d = Some (Raise OverflowError)).
    { unfold RFC6979.random_rfc6979, RFC6979.steps_a_g.
      change (sha hash "256") with (Ok (hashlib_digest SHA256 hash)).
      cbn [bind].
      assert (Eo : RFC6979.int2octets SECP256K1_ORDER d = Raise OverflowError).
      { unfold RFC6979.int2octets, int_to_bytes. rewrite rlen_secp256k1.
        change (256 ^ Z.of_nat (Z.to_nat (256 / 8))) with (2 ^ 256).
        destruct (Z.ltb_spec d 0); [reflexivity|].
        destruct (Z.leb_spec (2 ^ 256) d); [reflexivity|lia]. }
      rewrite Eo. reflexivity. }
    rewrite Er. reflexivity.
Qed.

End Nonce.

Lemma random_rfc6979_result_witness :
  let hashlib := fixed_hashlib x01 in
  RFC6979.random_rfc6979 SECP256K1_ORDER (Some G) "256" 1 [x01] 1 =
  Some (Ok 1) /\
  RFC6979.random_rfc6979 SECP256K1_ORDER (Some G) "256" 3 [x01] 1 =
  Some (Ok 1).
Proof.
  intros hashlib.
  assert (H : RFC6979.random_rfc6979 SECP256K1_ORDER (Some G) "256" 1 [x01] 1
              = Some (Ok 1)) by (vm_compute; reflexivity).
  split; [exact H|].
  destruct (@random_rfc6979_result hashlib _ _ _ _ _ _ _ H)
    as (_ & _ & _ & Hmore).
  exact (Hmore 2%nat).
Defined.

(** *** The Miller-Rabin test *)







